(** * ESG report pipeline: text extraction format, pattern tagging, aggregation

    A shallow embedding of the three stages of the pipeline
    ([02_pdf_text_extractor.py], [03_esg_data_extractor.py],
    [04_quantitative_analysis_visualization.py]) and of the script that
    runs them in turn ([00_RUN_ALL_ANALYSIS.py]), together with the
    properties stated about them.

    Text is a list of characters.  A character is a code point below 256
    (the type [ascii]); the character classes below are the ones Python
    assigns to these code points ([str.isspace], [str.lower], and the
    classes [\d], [\w] and [\s] of the [re] module on [str] patterns). *)


From Stdlib Require Import Ascii String.
From Stdlib Require Import List Arith Lia Bool NArith ZArith.
From Stdlib Require Import Sorted Permutation.
From Stdlib Require Import DecimalString DecimalNat.
From Stdlib Require DecimalFacts.
From Stdlib Require Import Floats.
From Stdlib Require Uint63.
Import ListNotations.

Local Open Scope nat_scope.
Local Open Scope list_scope.

(** ** Characters and strings *)

(** A text is the list of its characters, and a character is one of the
    256 characters with a code point below 256 (Latin-1): the English
    reports the pipeline reads are written in them.  Text with other
    characters is outside the model. *)
Definition str := list ascii.

(** String literals of the source are written ["..."%string] and read
    as lists of characters through [L]. *)
Definition L (s : string) : str := list_ascii_of_string s.

Definition code (c : ascii) : N := N_of_ascii c.

Definition in_range (lo hi : N) (c : ascii) : bool :=
  (N.leb lo (code c) && N.leb (code c) hi)%bool.

(** [str.isspace], also the class [\s] and the separators of [str.split]
    and [str.strip]. *)
Definition is_space (c : ascii) : bool :=
  (in_range 9 13 c || in_range 28 32 c
   || N.eqb (code c) 133 || N.eqb (code c) 160)%bool.

(** The class [\d]. *)
Definition is_digit (c : ascii) : bool := in_range 48 57 c.

(** The class [\w], which decides the word boundary [\b]. *)
Definition is_word (c : ascii) : bool :=
  (in_range 48 57 c || in_range 65 90 c || N.eqb (code c) 95
   || in_range 97 122 c || N.eqb (code c) 170 || in_range 178 179 c
   || N.eqb (code c) 181 || in_range 185 186 c || in_range 188 190 c
   || in_range 192 214 c || in_range 216 246 c || in_range 248 255 c)%bool.

(** [str.lower] on one character. *)
Definition lower_char (c : ascii) : ascii :=
  if (in_range 65 90 c
      || (in_range 192 222 c && negb (N.eqb (code c) 215)))%bool
  then ascii_of_N (code c + 32)
  else c.

Definition lower (s : str) : str := map lower_char s.

Definition newline : ascii := ascii_of_N 10.
Definition space : ascii := ascii_of_N 32.

Definition str_eqb (a b : str) : bool :=
  if list_eq_dec ascii_dec a b then true else false.

(** [text[a:b]] for [0 <= a] and [0 <= b]. *)
Definition slice (text : str) (a b : nat) : str :=
  firstn (b - a) (skipn a text).

(** [s.startswith(w)], returning what follows [w]. *)
Fixpoint strip_prefix (w s : str) : option str :=
  match w with
  | [] => Some s
  | c :: w' =>
      match s with
      | [] => None
      | d :: s' => if Ascii.eqb c d then strip_prefix w' s' else None
      end
  end.

(** [w in s]. *)
Fixpoint contains (w s : str) : bool :=
  match strip_prefix w s with
  | Some _ => true
  | None =>
      match s with
      | [] => false
      | _ :: s' => contains w s'
      end
  end.

(** [s.split()]: the maximal runs of non-whitespace characters.  [cur]
    holds the run being read, in reverse. *)
Fixpoint split_ws_aux (cur : str) (s : str) : list str :=
  match s with
  | [] => match cur with [] => [] | _ => [rev cur] end
  | c :: s' =>
      if is_space c
      then match cur with
           | [] => split_ws_aux [] s'
           | _ => rev cur :: split_ws_aux [] s'
           end
      else split_ws_aux (c :: cur) s'
  end.

Definition split_ws (s : str) : list str := split_ws_aux [] s.

(** [sep.join(words)]. *)
Fixpoint join (sep : str) (words : list str) : str :=
  match words with
  | [] => []
  | [w] => w
  | w :: ws => w ++ sep ++ join sep ws
  end.

(** [' '.join(s.split())]. *)
Definition collapse_ws (s : str) : str := join [space] (split_ws s).

Fixpoint lstrip (s : str) : str :=
  match s with
  | c :: s' => if is_space c then lstrip s' else s
  | [] => []
  end.

(** [s.strip()]. *)
Definition strip (s : str) : str := rev (lstrip (rev (lstrip s))).

(** [str(n)] for a non-negative integer. *)
Definition str_of_nat (n : nat) : str :=
  L (NilZero.string_of_uint (Nat.to_uint n)).

(** [sys.int_max_str_digits] at its default: the most digits of a
    string that [int] converts (Python 3.11 and the releases that carry
    the same limit). *)
Definition max_str_digits : nat := 4300.

(** [int(s)] for a string of decimal digits; [None] stands for the
    [ValueError] raised on a string of more than [max_str_digits]
    digits, leading zeros counted, and on anything that is no string of
    digits. *)
Definition int_of_str (s : str) : option nat :=
  match s with
  | [] => None
  | _ =>
      if (forallb is_digit s && (length s <=? max_str_digits))%bool
      then option_map Nat.of_uint (NilEmpty.uint_of_string (string_of_list_ascii s))
      else None
  end.

(** ** Regular expressions

    The fragment of Python's [re] syntax that the patterns of the program
    are written in: single-character matchers, the word boundary,
    sequence, alternation, an optional part, repetition of a
    single-character matcher (greedy or lazy, with bounds) and capturing
    groups. *)

Inductive cset : Type :=
| CChar (c : ascii)        (* a literal character *)
| CAny                     (* [.] *)
| CDigit                   (* [\d] *)
| CSpace                   (* [\s] *)
| COr (a b : cset).        (* a bracketed class *)

Inductive regex : Type :=
| Eps
| One (cs : cset)
| WordB                                                   (* [\b] *)
| Seq (r1 r2 : regex)
| Alt (r1 r2 : regex)
| Opt (r : regex)                                         (* [r?] *)
| Rep (greedy : bool) (lo : nat) (hi : option nat) (cs : cset)
| Grp (n : nat) (r : regex).                              (* group [n] *)

Notation "a >> b" := (Seq a b) (at level 61, right associativity).

Fixpoint lit_chars (s : str) : regex :=
  match s with
  | [] => Eps
  | c :: s' => One (CChar c) >> lit_chars s'
  end.

(** A literal; also [re.escape(s)]. *)
Definition lit (s : string) : regex := lit_chars (L s).

Definition star (cs : cset) : regex := Rep true 0 None cs.
Definition plus (cs : cset) : regex := Rep true 1 None cs.
Definition lazy_plus (cs : cset) : regex := Rep false 1 None cs.
Definition times (n : nat) (cs : cset) : regex := Rep true n (Some n) cs.
Definition chr (s : string) : cset :=
  match L s with c :: _ => CChar c | [] => CAny end.

Fixpoint cset_match (icase : bool) (cs : cset) (c : ascii) : bool :=
  match cs with
  | CChar p =>
      if icase then Ascii.eqb (lower_char p) (lower_char c)
      else Ascii.eqb p c
  | CAny => negb (Ascii.eqb c newline)
  | CDigit => is_digit c
  | CSpace => is_space c
  | COr a b => (cset_match icase a c || cset_match icase b c)%bool
  end.

(** Captured groups: group number, start and end offsets, most recent
    first. *)
Definition caps := list (nat * (nat * nat)).

Definition word_before (prev : option ascii) : bool :=
  match prev with Some c => is_word c | None => false end.

Definition word_after (s : str) : bool :=
  match s with c :: _ => is_word c | [] => false end.

Definition more_allowed (hi : option nat) : bool :=
  match hi with None => true | Some h => negb (Nat.eqb h 0) end.

Definition dec_hi (hi : option nat) : option nat := option_map pred hi.

(** The backtracking matcher, in continuation-passing style.  The
    matcher stands at offset [i] of the text, [prev] is the character
    before that offset and [s] the text from it on; [k] is tried on every
    way the expression can match, in the order of preference of [re], and
    the first success is the answer. *)
Section Matcher.

Variable icase : bool.
Variable R : Type.

Definition cont := option ascii -> nat -> str -> caps -> option R.

Fixpoint rep (greedy : bool) (cs : cset) (lo : nat) (hi : option nat)
    (k : cont) (prev : option ascii) (i : nat) (s : str) (cp : caps)
    {struct s} : option R :=
  match s with
  | [] => if Nat.eqb lo 0 then k prev i [] cp else None
  | c :: s' =>
      if greedy then
        match
          (if (more_allowed hi && cset_match icase cs c)%bool
           then rep greedy cs (pred lo) (dec_hi hi) k (Some c) (S i) s' cp
           else None)
        with
        | Some x => Some x
        | None => if Nat.eqb lo 0 then k prev i s cp else None
        end
      else
        match (if Nat.eqb lo 0 then k prev i s cp else None) with
        | Some x => Some x
        | None =>
            if (more_allowed hi && cset_match icase cs c)%bool
            then rep greedy cs (pred lo) (dec_hi hi) k (Some c) (S i) s' cp
            else None
        end
  end.

Fixpoint rmatch (r : regex) (k : cont) (prev : option ascii) (i : nat)
    (s : str) (cp : caps) {struct r} : option R :=
  match r with
  | Eps => k prev i s cp
  | One cs =>
      match s with
      | c :: s' => if cset_match icase cs c then k (Some c) (S i) s' cp else None
      | [] => None
      end
  | WordB =>
      if xorb (word_before prev) (word_after s) then k prev i s cp else None
  | Seq r1 r2 => rmatch r1 (rmatch r2 k) prev i s cp
  | Alt r1 r2 =>
      match rmatch r1 k prev i s cp with
      | Some x => Some x
      | None => rmatch r2 k prev i s cp
      end
  | Opt r1 =>
      match rmatch r1 k prev i s cp with
      | Some x => Some x
      | None => k prev i s cp
      end
  | Rep greedy lo hi cs => rep greedy cs lo hi k prev i s cp
  | Grp n r1 =>
      rmatch r1 (fun prev' i' s' cp' => k prev' i' s' ((n, (i, i')) :: cp'))
        prev i s cp
  end.

End Matcher.

(** A match object: [start()], [end()] and the groups. *)
Record rmatch_obj : Type := MkMatch {
  m_start : nat;
  m_end : nat;
  m_caps : caps
}.

(** [pattern.match(text, i)]: the end offset and the groups of the match
    that starts at offset [i]. *)
Definition match_here (icase : bool) (r : regex) (prev : option ascii)
    (i : nat) (s : str) : option (nat * caps) :=
  rmatch icase (nat * caps) r (fun _ i' _ cp => Some (i', cp)) prev i s [].

(** The scan of [re.finditer]: leftmost matches that do not overlap.
    After a match the scan walks over the [skip] characters the match
    covered.  (No pattern of the program matches the empty string; after
    an empty match this scan moves on by one character.) *)
Fixpoint scan (icase : bool) (r : regex) (skip : nat) (prev : option ascii)
    (i : nat) (s : str) {struct s} : list rmatch_obj :=
  match skip with
  | S n =>
      match s with
      | [] => []
      | c :: s' => scan icase r n (Some c) (S i) s'
      end
  | O =>
      match match_here icase r prev i s with
      | Some (e, cp) =>
          MkMatch i e cp ::
          match s with
          | [] => []
          | c :: s' => scan icase r (e - i - 1) (Some c) (S i) s'
          end
      | None =>
          match s with
          | [] => []
          | c :: s' => scan icase r 0 (Some c) (S i) s'
          end
      end
  end.

(** [re.finditer(r, text)], with [icase] for the flag [re.IGNORECASE]. *)
Definition finditer (icase : bool) (r : regex) (text : str) : list rmatch_obj :=
  scan icase r 0 None 0 text.

(** [match.group()]. *)
Definition group0 (text : str) (mo : rmatch_obj) : str :=
  slice text (m_start mo) (m_end mo).

Fixpoint cap_lookup (n : nat) (cp : caps) : option (nat * nat) :=
  match cp with
  | [] => None
  | (g, se) :: cp' => if Nat.eqb g n then Some se else cap_lookup n cp'
  end.

(** [match.group(n)]; a group that took no part in the match reads as the
    empty string here (Python gives [None]). *)
Definition group (text : str) (mo : rmatch_obj) (n : nat) : str :=
  match cap_lookup n (m_caps mo) with
  | Some (a, b) => slice text a b
  | None => []
  end.

(** [re.findall(r, text)] for a pattern with one group. *)
Definition findall1 (icase : bool) (r : regex) (text : str) : list str :=
  map (fun mo => group text mo 1) (finditer icase r text).

(** [re.search(r, text)]. *)
Definition search (icase : bool) (r : regex) (text : str) : option rmatch_obj :=
  hd_error (finditer icase r text).

(** [re.split(r, text)] for a pattern with [ngroups] groups: the text
    between the matches, with the groups of every match in between. *)
Fixpoint split_pieces (ngroups : nat) (text : str) (last : nat)
    (ms : list rmatch_obj) : list str :=
  match ms with
  | [] => [slice text last (length text)]
  | mo :: ms' =>
      slice text last (m_start mo)
      :: map (group text mo) (seq 1 ngroups)
      ++ split_pieces ngroups text (m_end mo) ms'
  end.

Definition re_split (r : regex) (ngroups : nat) (text : str) : list str :=
  split_pieces ngroups text 0 (finditer false r text).

(** ** Stage 2: the tagger ([ESGDataExtractor])

    [define_patterns]: the keyword lists and patterns. *)

Definition target_keywords : list regex :=
  [ lit "target";
    lit "goal";
    lit "objective";
    lit "aim to";
    lit "reduce" >> star CAny >> lit "by " >> plus CDigit >> lit "%";
    lit "achieve" >> star CAny >> lit "by " >> times 4 CDigit;
    lit "reach" >> star CAny >> lit "by " >> times 4 CDigit;
    plus CDigit >> lit "% reduction";
    lit "net zero";
    lit "carbon neutral";
    lit "science-based target" ].

Definition commitment_strong : list string :=
  [ "committed to"; "will achieve"; "will reduce"; "will reach";
    "pledge to"; "determined to"; "dedicated to"; "have committed" ]%string.

Definition commitment_moderate : list string :=
  [ "plan to"; "intend to"; "aim to"; "working to"; "seeking to";
    "strive to"; "expect to"; "focused on" ]%string.

Definition commitment_weak : list string :=
  [ "aspire to"; "hope to"; "may"; "could"; "exploring";
    "considering"; "evaluating"; "subject to"; "dependent on" ]%string.

Definition initiative_keywords : list regex :=
  [ lit "program"; lit "initiative"; lit "partnership"; lit "collaboration";
    lit "launched"; lit "announced"; lit "introduced"; lit "implemented";
    lit "invested $" >> plus (COr CDigit (chr ","));
    lit "investment of"; lit "million"; lit "billion" ].

Definition impact_keywords : list (string * list string) :=
  [ ("Climate/Carbon",
     ["emission"; "carbon"; "greenhouse gas"; "GHG"; "CO2"; "climate";
      "scope 1"; "scope 2"; "scope 3"; "carbon footprint"]);
    ("Water",
     ["water"; "H2O"; "water use"; "water consumption"; "water stewardship";
      "water stress"; "water efficiency"]);
    ("Waste/Circular Economy",
     ["waste"; "recycl"; "circular"; "zero waste"; "landfill";
      "reuse"; "repurpose"; "end-of-life"]);
    ("Energy",
     ["energy"; "renewable energy"; "solar"; "wind"; "renewable";
      "energy efficiency"; "electricity"]);
    ("Materials",
     ["sustainable material"; "organic cotton"; "recycled polyester";
      "preferred fiber"; "sustainable sourcing"; "material innovation"]);
    ("Supply Chain",
     ["supplier"; "supply chain"; "factory"; "manufacturing";
      "vendor"; "sourcing"]);
    ("Human Rights/Labor",
     ["human rights"; "labor"; "worker"; "fair wage";
      "working conditions"; "child labor"; "forced labor"]);
    ("Diversity/Equity",
     ["diversity"; "equity"; "inclusion"; "DEI"; "gender";
      "racial"; "equal opportunity"; "representation"]);
    ("Biodiversity",
     ["biodiversity"; "ecosystem"; "nature"; "forest"; "deforestation";
      "land use"; "habitat"]);
    ("Governance",
     ["governance"; "board"; "oversight"; "policy"; "compliance";
      "ethics"; "transparency"; "disclosure"]) ]%string.

(** [numeric_patterns]: the entries the extraction passes use. *)

(** ['percentage']: [(\d+(?:\.\d+)?)\s*%] *)
Definition percentage_re : regex :=
  Grp 1 (plus CDigit >> Opt (lit "." >> plus CDigit)) >> star CSpace >> lit "%".

(** ['year']: [\b(20\d{2})\b] *)
Definition year_re : regex :=
  WordB >> Grp 1 (lit "20" >> times 2 CDigit) >> WordB.

(** ['currency']: [\$\s*([\d,]+(?:\.\d+)?)\s*(million|billion|M|B)?] *)
Definition currency_re : regex :=
  lit "$" >> star CSpace
  >> Grp 1 (plus (COr CDigit (chr ",")) >> Opt (lit "." >> plus CDigit))
  >> star CSpace
  >> Opt (Grp 2 (Alt (lit "million") (Alt (lit "billion") (Alt (lit "M") (lit "B"))))).

(** The page marker: [={80}\n\[PAGE (\d+) OF (\d+)\]\n={80}] *)
Definition page_pattern : regex :=
  times 80 (chr "=") >> One (CChar newline) >> lit "[PAGE "
  >> Grp 1 (plus CDigit) >> lit " OF " >> Grp 2 (plus CDigit)
  >> lit "]" >> One (CChar newline) >> times 80 (chr "=").

(** *** Pages and metadata *)

Record Page : Type := MkPage {
  page_number : nat;
  total_pages : nat;
  text : str
}.

(** The [metadata] dictionary: its three keys, each present or not. *)
Record Metadata : Type := MkMetadata {
  md_source_file : option str;
  md_year : option str;
  md_document_type : option str
}.

(** [metadata.get(key, 'Unknown')] *)
Definition md_get (v : option str) : str :=
  match v with Some x => x | None => L "Unknown" end.

(** [label(.+?)\n], searched in the whole content; the group, stripped. *)
Definition header_field (label : string) (content : str) : option str :=
  match search false
          (lit label >> Grp 1 (lazy_plus CAny) >> One (CChar newline))
          content with
  | Some mo => Some (strip (group content mo 1))
  | None => None
  end.

Definition extract_metadata_from_header (content : str) : Metadata :=
  {| md_source_file := header_field "Source File: " content;
     md_year := header_field "Year: " content;
     md_document_type := header_field "Document Type: " content |}.

(** Errors a stage can raise. *)
Inductive error : Type :=
| IOError            (* the file cannot be opened, read or decoded *)
| ValueError         (* [int] of something that is no number *)
| IndexError         (* a list index out of range *)
| KeyError.          (* a column that does not exist *)

Inductive result (A : Type) : Type :=
| Ok (a : A)
| Raise (e : error).

Arguments Ok {A} a.
Arguments Raise {A} e.

Definition rbind {A B : Type} (x : result A) (f : A -> result B) : result B :=
  match x with
  | Ok a => f a
  | Raise e => Raise e
  end.

Notation "x <- c1 ;; c2" := (rbind c1 (fun x => c2))
  (at level 100, c1 at next level, right associativity).

Definition of_option {A : Type} (e : error) (o : option A) : result A :=
  match o with Some a => Ok a | None => Raise e end.

(** [range(start, stop, 3)] *)
Fixpoint range3_aux (n : nat) (start stop : nat) : list nat :=
  match n with
  | O => []
  | S n' => if start <? stop then start :: range3_aux n' (start + 3) stop else []
  end.

Definition range3 (start stop : nat) : list nat := range3_aux stop start stop.

(** The loop of [parse_text_file] over the pieces of [re.split]. *)
Fixpoint structure_pages (pages : list str) (idx : list nat) : result (list Page) :=
  match idx with
  | [] => Ok []
  | i :: idx' =>
      if i + 2 <=? length pages then
        a <- of_option IndexError (nth_error pages i) ;;
        n <- of_option ValueError (int_of_str a) ;;
        b <- of_option IndexError (nth_error pages (i + 1)) ;;
        t <- of_option ValueError (int_of_str b) ;;
        c <- of_option IndexError (nth_error pages (i + 2)) ;;
        rest <- structure_pages pages idx' ;;
        Ok (MkPage n t c :: rest)
      else structure_pages pages idx'
  end.

(** A text file on disk: its name and, when it can be read and decoded,
    its content. *)
Record TextFile : Type := MkTextFile {
  file_name : str;
  file_content : option str
}.

Definition parse_text_file (f : TextFile) : result (Metadata * list Page) :=
  content <- of_option IOError (file_content f) ;;
  let metadata := extract_metadata_from_header content in
  let pages := re_split page_pattern 2 content in
  structured_pages <- structure_pages pages (range3 1 (length pages)) ;;
  Ok (metadata, structured_pages).

(** *** The four kinds of records *)

Record TargetRecord : Type := MkTarget {
  t_year : str;
  t_document : str;
  t_source_file : str;
  t_page_number : nat;
  t_target_text : str;
  t_percentages : str;
  t_target_years : str;
  t_keyword_matched : str
}.

Inductive strength : Type := Strong | Moderate | WeakHedging.

Record LanguageRecord : Type := MkLanguage {
  l_year : str;
  l_document : str;
  l_page_number : nat;
  l_commitment_strength : strength;
  l_phrase : str;
  l_context : str
}.

Record InitiativeRecord : Type := MkInitiative {
  i_year : str;
  i_document : str;
  i_page_number : nat;
  i_initiative_text : str;
  i_keyword_matched : str;
  i_investment_amount : str
}.

Record ImpactAreaRecord : Type := MkImpact {
  a_year : str;
  a_document : str;
  a_page_number : nat;
  a_impact_area : str;
  a_keyword : str;
  a_occurrence_count : nat;
  a_example_context : str
}.

(** The data containers of the extractor. *)
Record Extractor : Type := MkExtractor {
  targets_data : list TargetRecord;
  language_data : list LanguageRecord;
  initiatives_data : list InitiativeRecord;
  impact_areas_data : list ImpactAreaRecord
}.

Definition new_extractor : Extractor := MkExtractor [] [] [] [].

(** [text[max(0, match.start() - w) : min(len(text), match.end() + w)]] *)
Definition window (w : nat) (txt : str) (mo : rmatch_obj) : str :=
  slice txt (m_start mo - w) (Nat.min (length txt) (m_end mo + w)).

(** [', '.join(xs) if xs else ''] *)
Definition join_comma (xs : list str) : str :=
  match xs with
  | [] => []
  | _ => join (L ", ") xs
  end.

(** *** [extract_targets_and_goals] *)

Definition target_context (txt : str) (mo : rmatch_obj) : str :=
  collapse_ws (strip (window 200 txt mo)).

Definition target_entry (md : Metadata) (page : Page) (mo : rmatch_obj)
    : TargetRecord :=
  let context := target_context (text page) mo in
  let percentages := findall1 false percentage_re context in
  let years := findall1 false year_re context in
  {| t_year := md_get (md_year md);
     t_document := md_get (md_document_type md);
     t_source_file := md_get (md_source_file md);
     t_page_number := page_number page;
     t_target_text := firstn 300 context;
     t_percentages := join_comma percentages;
     t_target_years := join_comma years;
     t_keyword_matched := group0 (text page) mo |}.

Definition targets_of_page (md : Metadata) (page : Page) : list TargetRecord :=
  flat_map
    (fun pattern => map (target_entry md page) (finditer true pattern (text page)))
    target_keywords.

Definition extract_targets_and_goals (pages : list Page) (md : Metadata)
    (ex : Extractor) : Extractor :=
  {| targets_data := targets_data ex ++ flat_map (targets_of_page md) pages;
     language_data := language_data ex;
     initiatives_data := initiatives_data ex;
     impact_areas_data := impact_areas_data ex |}.

(** *** [extract_language_patterns] *)

Definition language_entry (md : Metadata) (page : Page) (s : strength)
    (mo : rmatch_obj) : LanguageRecord :=
  let context := collapse_ws (window 150 (text page) mo) in
  {| l_year := md_get (md_year md);
     l_document := md_get (md_document_type md);
     l_page_number := page_number page;
     l_commitment_strength := s;
     l_phrase := group0 (text page) mo;
     l_context := firstn 250 context |}.

Definition language_of_phrases (md : Metadata) (page : Page) (s : strength)
    (phrases : list string) : list LanguageRecord :=
  flat_map
    (fun phrase =>
       if contains (L phrase) (lower (text page))
       then map (language_entry md page s) (finditer true (lit phrase) (text page))
       else [])
    phrases.

Definition language_of_page (md : Metadata) (page : Page) : list LanguageRecord :=
  language_of_phrases md page Strong commitment_strong
  ++ language_of_phrases md page Moderate commitment_moderate
  ++ language_of_phrases md page WeakHedging commitment_weak.

Definition extract_language_patterns (pages : list Page) (md : Metadata)
    (ex : Extractor) : Extractor :=
  {| targets_data := targets_data ex;
     language_data := language_data ex ++ flat_map (language_of_page md) pages;
     initiatives_data := initiatives_data ex;
     impact_areas_data := impact_areas_data ex |}.

(** *** [extract_initiatives] *)

Definition initiative_entry (md : Metadata) (page : Page) (mo : rmatch_obj)
    : InitiativeRecord :=
  let context := collapse_ws (window 200 (text page) mo) in
  let investment_amount :=
    match search false currency_re context with
    | Some cm => group0 context cm
    | None => []
    end in
  {| i_year := md_get (md_year md);
     i_document := md_get (md_document_type md);
     i_page_number := page_number page;
     i_initiative_text := firstn 300 context;
     i_keyword_matched := group0 (text page) mo;
     i_investment_amount := investment_amount |}.

Definition initiatives_of_page (md : Metadata) (page : Page)
    : list InitiativeRecord :=
  flat_map
    (fun pattern => map (initiative_entry md page) (finditer true pattern (text page)))
    initiative_keywords.

Definition extract_initiatives (pages : list Page) (md : Metadata)
    (ex : Extractor) : Extractor :=
  {| targets_data := targets_data ex;
     language_data := language_data ex;
     initiatives_data := initiatives_data ex ++ flat_map (initiatives_of_page md) pages;
     impact_areas_data := impact_areas_data ex |}.

(** *** [extract_impact_areas] *)

Definition impact_of_keyword (md : Metadata) (page : Page) (impact_area : string)
    (keyword : string) : list ImpactAreaRecord :=
  let txt := lower (text page) in
  let pattern := lit_chars (lower (L keyword)) in
  let matches := finditer false pattern txt in
  match matches with
  | [] => []
  | mo :: _ =>
      let count := length matches in
      let context := collapse_ws (window 100 txt mo) in
      [ {| a_year := md_get (md_year md);
           a_document := md_get (md_document_type md);
           a_page_number := page_number page;
           a_impact_area := L impact_area;
           a_keyword := L keyword;
           a_occurrence_count := count;
           a_example_context := firstn 200 context |} ]
  end.

Definition impact_of_page (md : Metadata) (page : Page) : list ImpactAreaRecord :=
  flat_map
    (fun entry => flat_map (impact_of_keyword md page (fst entry)) (snd entry))
    impact_keywords.

Definition extract_impact_areas (pages : list Page) (md : Metadata)
    (ex : Extractor) : Extractor :=
  {| targets_data := targets_data ex;
     language_data := language_data ex;
     initiatives_data := initiatives_data ex;
     impact_areas_data := impact_areas_data ex ++ flat_map (impact_of_page md) pages |}.

(** *** Running the tagger over the files

    The extraction passes append to the containers of the extractor, so
    a failure in the middle of a file is a failure at some state of the
    containers: computations thread the extractor and keep it when they
    raise. *)

Definition ST (S A : Type) : Type := S -> result A * S.

Definition sret {S A : Type} (a : A) : ST S A := fun st => (Ok a, st).

Definition sbind {S A B : Type} (c : ST S A) (f : A -> ST S B) : ST S B :=
  fun st =>
    match c st with
    | (Ok a, st') => f a st'
    | (Raise e, st') => (Raise e, st')
    end.

Definition slift {S A : Type} (r : result A) : ST S A := fun st => (r, st).

Definition supdate {S : Type} (f : S -> S) : ST S unit :=
  fun st => (Ok tt, f st).

Definition sget {S : Type} : ST S S := fun st => (Ok st, st).

Notation "x <~ c1 ;; c2" := (sbind c1 (fun x => c2))
  (at level 100, c1 at next level, right associativity).

Definition M (A : Type) : Type := ST Extractor A.

(** What the run prints (the banners are left out). *)
Inductive event : Type :=
| FoundFiles (n : nat)
| NoFilesFound
| Processing (name : str)
| ExtractedPages (n : nat)
| ErrorProcessing (name : str) (e : error)
| SavedEntries (file : string) (n : nat)
| SavedStatistics.

(** The body of the [try] block of [process_all_text_files]. *)
Definition process_body (f : TextFile) : M nat :=
  parsed <~ slift (parse_text_file f) ;;
  let metadata := fst parsed in
  let pages := snd parsed in
  _ <~ supdate (extract_targets_and_goals pages metadata) ;;
  _ <~ supdate (extract_language_patterns pages metadata) ;;
  _ <~ supdate (extract_initiatives pages metadata) ;;
  _ <~ supdate (extract_impact_areas pages metadata) ;;
  sret (length pages).

(** One turn of the loop over the files: the [try] block and its
    [except] clause. *)
Definition process_file (f : TextFile) (ex : Extractor) : Extractor * list event :=
  match process_body f ex with
  | (Ok n, ex') => (ex', [Processing (file_name f); ExtractedPages n])
  | (Raise e, ex') => (ex', [Processing (file_name f); ErrorProcessing (file_name f) e])
  end.

Fixpoint process_files (fs : list TextFile) (ex : Extractor)
    : Extractor * list event :=
  match fs with
  | [] => (ex, [])
  | f :: fs' =>
      let (ex1, out1) := process_file f ex in
      let (ex2, out2) := process_files fs' ex1 in
      (ex2, out1 ++ out2)
  end.

(** *** [save_all_data] and [create_summary_statistics] *)

Definition strength_name (s : strength) : str :=
  match s with
  | Strong => L "Strong"
  | Moderate => L "Moderate"
  | WeakHedging => L "Weak/Hedging"
  end.

(** Comparison of strings by code points. *)
Fixpoint str_leb (a b : str) : bool :=
  match a, b with
  | [], _ => true
  | _ :: _, [] => false
  | c :: a', d :: b' =>
      if N.ltb (code c) (code d) then true
      else if N.ltb (code d) (code c) then false
      else str_leb a' b'
  end.

(** Add [n] to the count of [key]; a new key goes to the end. *)
Fixpoint add_count (key : str) (n : nat) (acc : list (str * nat)) : list (str * nat) :=
  match acc with
  | [] => [(key, n)]
  | (k, c) :: acc' =>
      if str_eqb k key then (k, c + n) :: acc'
      else (k, c) :: add_count key n acc'
  end.

(** The sums per key, keys in the order of first appearance. *)
Definition sum_by_key (kv : list (str * nat)) : list (str * nat) :=
  fold_left (fun acc p => add_count (fst p) (snd p) acc) kv [].

Fixpoint insert_by_key (p : str * nat) (l : list (str * nat)) : list (str * nat) :=
  match l with
  | [] => [p]
  | q :: l' => if str_leb (fst p) (fst q) then p :: q :: l' else q :: insert_by_key p l'
  end.

(** [sort_index()] of a series indexed by strings. *)
Definition sort_index (l : list (str * nat)) : list (str * nat) :=
  fold_right insert_by_key [] l.

(** The written files of a run; [None] for a file that is not written.
    A CSV file is given by its rows. *)
Record Output : Type := MkOutput {
  extracted_targets_goals_csv : option (list TargetRecord);
  extracted_language_patterns_csv : option (list LanguageRecord);
  extracted_initiatives_csv : option (list InitiativeRecord);
  extracted_impact_areas_csv : option (list ImpactAreaRecord);
  extraction_statistics_txt : option (list str)
}.

Definition no_output : Output := MkOutput None None None None None.

Definition write_if_any {A : Type} (rows : list A) : option (list A) :=
  match rows with
  | [] => None
  | _ => Some rows
  end.

Definition saved_event {A : Type} (file : string) (rows : list A) : list event :=
  match rows with
  | [] => []
  | _ => [SavedEntries file (length rows)]
  end.

Section Stage2Run.

(** [datetime.now().strftime('%Y-%m-%d %H:%M:%S')] *)
Variable now : str.

(** The order pandas gives a series of counts when it sorts it by
    descending value ([value_counts()], [sort_values(ascending=False)]);
    the order among equal counts is left open. *)
Variable sort_desc : list (str * nat) -> list (str * nat).

Definition count_line (suffix : str) (p : str * nat) : str :=
  L "  " ++ fst p ++ L ": " ++ str_of_nat (snd p) ++ suffix.

Definition section_lines (title : string) (suffix : str) (rows : list (str * nat))
    : list str :=
  [ L "" ; L title ; repeat "-"%char 40 ] ++ map (count_line suffix) rows.

(** The lines of [extraction_statistics.txt]. *)
Definition create_summary_statistics (ex : Extractor) : list str :=
  [ L "RALPH LAUREN ESG ANALYSIS - EXTRACTION STATISTICS";
    repeat "="%char 80;
    L "";
    L "Extraction Date: " ++ now;
    L "";
    L "Total Targets/Goals Extracted: " ++ str_of_nat (length (targets_data ex));
    L "Total Language Patterns Identified: " ++ str_of_nat (length (language_data ex));
    L "Total Initiatives Cataloged: " ++ str_of_nat (length (initiatives_data ex));
    L "Total Impact Area Mentions: " ++ str_of_nat (length (impact_areas_data ex));
    L "" ]
  ++ match targets_data ex with
     | [] => []
     | ts =>
         section_lines "Targets by Year:" []
           (sort_index (sum_by_key (map (fun t => (t_year t, 1)) ts)))
     end
  ++ match language_data ex with
     | [] => []
     | ls =>
         section_lines "Language Patterns by Strength:" []
           (sort_desc
              (sum_by_key
                 (map (fun l => (strength_name (l_commitment_strength l), 1)) ls)))
     end
  ++ match impact_areas_data ex with
     | [] => []
     | ims =>
         section_lines "Top Impact Areas Mentioned:" (L " mentions")
           (firstn 10
              (sort_desc
                 (sort_index
                    (sum_by_key
                       (map (fun a => (a_impact_area a, a_occurrence_count a)) ims)))))
     end.

Definition save_all_data (ex : Extractor) : Output * list event :=
  ( {| extracted_targets_goals_csv := write_if_any (targets_data ex);
       extracted_language_patterns_csv := write_if_any (language_data ex);
       extracted_initiatives_csv := write_if_any (initiatives_data ex);
       extracted_impact_areas_csv := write_if_any (impact_areas_data ex);
       extraction_statistics_txt := Some (create_summary_statistics ex) |},
    saved_event "extracted_targets_goals.csv" (targets_data ex)
    ++ saved_event "extracted_language_patterns.csv" (language_data ex)
    ++ saved_event "extracted_initiatives.csv" (initiatives_data ex)
    ++ saved_event "extracted_impact_areas.csv" (impact_areas_data ex)
    ++ [SavedStatistics] ).

(** [process_all_text_files]; [text_files] are the [*_extracted.txt]
    files of the directory in sorted order. *)
Definition process_all_text_files (text_files : list TextFile) (ex : Extractor)
    : Extractor * Output * list event :=
  match text_files with
  | [] => (ex, no_output, [FoundFiles 0; NoFilesFound])
  | _ =>
      let (ex1, out1) := process_files text_files ex in
      let (files, out2) := save_all_data ex1 in
      (ex1, files, FoundFiles (length text_files) :: out1 ++ out2)
  end.

End Stage2Run.

(** ** Stage 1: the page-delimited text file ([PDFTextExtractor]) *)

Definition line80 (c : ascii) : str := repeat c 80.

(** [f"\n{'='*80}\n[PAGE {page_num + 1} OF {total_pages}]\n{'='*80}\n"] *)
Definition page_marker (page_num total : nat) : str :=
  newline :: line80 "="%char
  ++ newline :: L "[PAGE " ++ str_of_nat page_num ++ L " OF " ++ str_of_nat total
  ++ L "]" ++ newline :: line80 "="%char ++ [newline].

Record PageText : Type := MkPageText {
  pt_page_number : nat;
  pt_text : str;
  pt_marker : str
}.

(** [extract_with_pymupdf]; [doc] gives [page.get_text()] of every page
    of the document. *)
Definition extract_with_pymupdf (doc : list str) : list PageText :=
  let total := length doc in
  map (fun p => MkPageText (fst p) (snd p) (page_marker (fst p) total))
      (combine (seq 1 total) doc).

(** The header block of the text file. *)
Definition file_header (pdf_name year doc_type : str) (npages : nat) (now : str) : str :=
  line80 "#"%char ++ newline
  :: L "RALPH LAUREN ESG ANALYSIS - EXTRACTED TEXT" ++ newline
  :: line80 "#"%char ++ newline
  :: L "Source File: " ++ pdf_name ++ newline
  :: L "Year: " ++ year ++ newline
  :: L "Document Type: " ++ doc_type ++ newline
  :: L "Total Pages: " ++ str_of_nat npages ++ newline
  :: L "Extraction Date: " ++ now ++ newline
  :: line80 "#"%char ++ [newline; newline].

Definition file_body (text_by_page : list PageText) : str :=
  flat_map (fun page_data => pt_marker page_data ++ pt_text page_data ++ [newline])
    text_by_page.

(** [save_extracted_text]: the content written to
    [{year}_{safe_name}_extracted.txt]; [year] and [doc_type] as they
    are formatted into the header. *)
Definition save_extracted_text (text_by_page : list PageText)
    (pdf_name year doc_type now : str) : str :=
  file_header pdf_name year doc_type (length text_by_page) now
  ++ file_body text_by_page.

Definition carriage_return : ascii := ascii_of_N 13.

(** What [open(path, 'r', encoding='utf-8').read()] returns for a file
    that holds [written]: a file opened for reading in text mode gives
    every line end, ["\r\n"] and ["\r"] as well as ["\n"], as ["\n"].
    (A file written in text mode holds ["\n"] as it was written, on
    POSIX.) *)
Fixpoint read_text (written : str) : str :=
  match written with
  | [] => []
  | c :: s =>
      if Ascii.eqb c carriage_return then
        match s with
        | d :: s' =>
            if Ascii.eqb d newline then newline :: read_text s'
            else newline :: read_text s
        | [] => [newline]
        end
      else c :: read_text s
  end.

(** ** Stage 3: the aggregator ([ESGAnalyzer])

    Of stage 3 the loading of the four tables and the first analysis of
    a run, [analyze_targets_over_time], are embedded: what they print,
    the files they write and the rows of [targets_by_year_summary.csv].
    How pandas reads a cell of a table as a number is left open, and so
    is the drawing of the chart. *)

(** A row of [targets_by_year_summary.csv]; [None] is the missing value.
    [number] is the type of the numeric values of the year column. *)
Record SummaryRow (number : Type) : Type := MkSummaryRow {
  Year : number;
  Target_Mentions : nat;
  YoY_Change : option Z;
  YoY_pct_Change : option float
}.

Arguments MkSummaryRow {number} Year Target_Mentions YoY_Change YoY_pct_Change.
Arguments Year {number} s.
Arguments Target_Mentions {number} s.
Arguments YoY_Change {number} s.
Arguments YoY_pct_Change {number} s.

(** The four frames of the analyzer, each by its rows; [pd.DataFrame()]
    and a table without rows are both the empty list, as [df.empty]
    takes them. *)
Record Analyzer : Type := MkAnalyzer {
  targets_df : list TargetRecord;
  language_df : list LanguageRecord;
  initiatives_df : list InitiativeRecord;
  impact_df : list ImpactAreaRecord
}.

(** What is written: the chart by its name, the summary table by its
    rows. *)
Inductive artifact (number : Type) : Type :=
| Chart (name : string)
| TargetsSummary (table : list (SummaryRow number)).

Arguments Chart {number} name.
Arguments TargetsSummary {number} table.

(** What stage 3 prints (the banners are left out). *)
Inductive message : Type :=
| Loaded (table : string) (n : nat)
| FileNotFound (table : string)
| NoDataAvailable (table : string)
| SavedChart (name : string)
| SavedTable (name : string).

Record World (number : Type) : Type := MkWorld {
  analyzer : Analyzer;
  console : list message;
  written : list (artifact number)
}.

Arguments MkWorld {number} analyzer console written.
Arguments analyzer {number} w.
Arguments console {number} w.
Arguments written {number} w.

(** *** Counts and their change *)

(** A count as a [float64], as an [int64] is converted for a
    division (a count of rows is below [2^63]). *)
Definition count_float (n : nat) : float :=
  PrimFloat.of_uint63 (Uint63.of_Z (Z.of_nat n)).

Fixpoint diff_from (prev : nat) (l : list nat) : list (option Z) :=
  match l with
  | [] => []
  | cur :: l' => Some (Z.of_nat cur - Z.of_nat prev)%Z :: diff_from cur l'
  end.

(** [series.diff()]: the first value has no difference. *)
Definition diff (l : list nat) : list (option Z) :=
  match l with
  | [] => []
  | first :: l' => None :: diff_from first l'
  end.

Fixpoint pct_from (prev : nat) (l : list nat) : list (option float) :=
  match l with
  | [] => []
  | cur :: l' =>
      Some (count_float cur / count_float prev - 1)%float :: pct_from cur l'
  end.

(** [series.pct_change()] on counts: [data / data.shift(1) - 1], a
    division and a subtraction of [float64] values; the first value has
    none. *)
Definition pct_change (l : list nat) : list (option float) :=
  match l with
  | [] => []
  | first :: l' => None :: pct_from first l'
  end.

Section Stage3.

(** The numeric values of a year column and their order. *)
Variable number : Type.
Variable number_leb : number -> number -> bool.

(** [pd.to_numeric(column, errors='coerce')] on a cell of the year
    column of a table that [pd.read_csv] loaded: the number that pandas
    reads from the cell, or [None] for a cell that it turns into the
    missing value. *)
Variable to_numeric : str -> option number.

Definition A3 (A : Type) : Type := ST (World number) A.

Definition print (m : message) : A3 unit :=
  supdate (fun w => MkWorld (analyzer w) (console w ++ [m]) (written w)).

Definition write (a : artifact number) : A3 unit :=
  supdate (fun w => MkWorld (analyzer w) (console w) (written w ++ [a])).

Definition get_analyzer : A3 Analyzer :=
  w <~ sget ;; sret (analyzer w).

Definition set_analyzer (a : Analyzer) : A3 unit :=
  supdate (fun w => MkWorld a (console w) (written w)).

(** [pd.read_csv] of a table of stage 2, or [pd.DataFrame()] when the
    file is not found; a file that is there is a table as stage 2
    writes it, which [pd.read_csv] reads. *)
Definition load_table {A : Type} (name : string) (file : option (list A))
    : A3 (list A) :=
  match file with
  | Some rs => _ <~ print (Loaded name (length rs)) ;; sret rs
  | None => _ <~ print (FileNotFound name) ;; sret []
  end.

Definition load_data (files : Output) : A3 unit :=
  t <~ load_table "Targets" (extracted_targets_goals_csv files) ;;
  l <~ load_table "Language" (extracted_language_patterns_csv files) ;;
  i <~ load_table "Initiatives" (extracted_initiatives_csv files) ;;
  a <~ load_table "Impact areas" (extracted_impact_areas_csv files) ;;
  set_analyzer (MkAnalyzer t l i a).

(** Two numbers are equal when each is at most the other. *)
Definition number_eqb (a b : number) : bool :=
  (number_leb a b && number_leb b a)%bool.

(** Count one more occurrence of [y]; a new value goes to the end. *)
Fixpoint bump (y : number) (acc : list (number * nat)) : list (number * nat) :=
  match acc with
  | [] => [(y, 1)]
  | (k, c) :: acc' =>
      if number_eqb k y then (k, S c) :: acc' else (k, c) :: bump y acc'
  end.

(** [series.value_counts()]: the number of rows per value, missing
    values dropped. *)
Definition value_counts (col : list (option number)) : list (number * nat) :=
  fold_left (fun acc v => match v with Some y => bump y acc | None => acc end)
    col [].

Fixpoint insert_year (p : number * nat) (l : list (number * nat))
    : list (number * nat) :=
  match l with
  | [] => [p]
  | q :: l' =>
      if number_leb (fst p) (fst q) then p :: q :: l' else q :: insert_year p l'
  end.

(** [sort_index()] of a series indexed by years. *)
Definition sort_years (l : list (number * nat)) : list (number * nat) :=
  fold_right insert_year [] l.

Fixpoint table_rows (years : list number) (counts : list nat)
    (changes : list (option Z)) (pcts : list (option float))
    : list (SummaryRow number) :=
  match years, counts, changes, pcts with
  | y :: ys, c :: cs, d :: ds, p :: ps =>
      MkSummaryRow y c d p :: table_rows ys cs ds ps
  | _, _, _, _ => []
  end.

(** The summary table of [analyze_targets_over_time]. *)
Definition summary_table (targets_by_year : list (number * nat))
    : list (SummaryRow number) :=
  let years := map fst targets_by_year in
  let mentions := map snd targets_by_year in
  table_rows years mentions
    (diff mentions)
    (map (option_map (fun x => x * 100)%float) (pct_change mentions)).

(** *** The first analysis *)

Definition analyze_targets_over_time : A3 unit :=
  an <~ get_analyzer ;;
  match targets_df an with
  | [] => print (NoDataAvailable "targets")
  | df =>
      let year_numeric := map (fun r => to_numeric (t_year r)) df in
      let targets_by_year := sort_years (value_counts year_numeric) in
      _ <~ write (Chart "targets_by_year.png") ;;
      _ <~ print (SavedChart "targets_by_year.png") ;;
      _ <~ write (TargetsSummary (summary_table targets_by_year)) ;;
      print (SavedTable "targets_by_year_summary.csv")
  end.

Definition initial_world : World number :=
  MkWorld (MkAnalyzer [] [] [] []) [] [].

(** [ESGAnalyzer(data_dir, output_dir)], which loads the tables of
    [data_dir], followed by [analyze_targets_over_time()], the first
    step of [run_all_analyses]. *)
Definition targets_analysis (files : Output) : result unit * World number :=
  (_ <~ load_data files ;; analyze_targets_over_time) initial_world.

End Stage3.

Arguments print {number} m _.
Arguments write {number} a _.
Arguments load_table {number A} name file _.
Arguments load_data {number} files _.
Arguments number_eqb {number} number_leb a b.
Arguments bump {number} number_leb y acc.
Arguments value_counts {number} number_leb col.
Arguments insert_year {number} number_leb p l.
Arguments sort_years {number} number_leb l.
Arguments table_rows {number} years counts changes pcts.
Arguments summary_table {number} targets_by_year.
Arguments analyze_targets_over_time {number} number_leb to_numeric _.
Arguments initial_world {number}.
Arguments targets_analysis {number} number_leb to_numeric files.

(** ** Stage 1, continued: names, years, document types and the run
    over the PDF files *)

(** [s.replace(old, new)] when [old] is a single character. *)
Definition replace_char (old : ascii) (new : str) (s : str) : str :=
  flat_map (fun c => if Ascii.eqb c old then new else [c]) s.

(** [pdf_path.stem.replace(' ', '_').replace('&', 'and')] *)
Definition safe_name (stem : str) : str :=
  replace_char "&"%char (L "and") (replace_char " "%char (L "_") stem).

(** [f"{year}_{safe_name}_extracted.txt"], the name of the text file in
    the output directory. *)
Definition extracted_file_name (year stem : str) : str :=
  year ++ L "_" ++ safe_name stem ++ L "_extracted.txt".

(** [f"{year}_{safe_name}_metadata.json"] *)
Definition metadata_file_name (year stem : str) : str :=
  year ++ L "_" ++ safe_name stem ++ L "_metadata.json".

(** [categorize_document] *)
Definition categorize_document (filename : str) : str :=
  let filename_lower := lower filename in
  let has (w : string) := contains (L w) filename_lower in
  if (has "citizenship"%string || has "gcs"%string || has "sustainability"%string)%bool
  then L "Global Citizenship & Sustainability Report"
  else if (has "10k"%string || has "10-k"%string)%bool
  then L "10-K Annual Report"
  else if (has "cdp"%string && has "climate"%string)%bool
  then L "CDP Climate Change Disclosure"
  else if (has "cdp"%string && has "water"%string)%bool
  then L "CDP Water Security Disclosure"
  else if (has "cdp"%string && has "forest"%string)%bool
  then L "CDP Forest Disclosure"
  else if (has "carbon footprint"%string || has "verification"%string || has "assurance"%string)%bool
  then L "Carbon Footprint Verification/Assurance"
  else L "Other Report".

(** [extract_year_from_path]: [path_str] is [str(pdf_path)] and
    [filename] is [pdf_path.name]; [None] stands for ['Unknown']. *)
Definition extract_year_from_path (path_str filename : str) : option nat :=
  if contains (L "2020") path_str then Some 2020
  else if contains (L "2021") path_str then Some 2021
  else if contains (L "2022") path_str then Some 2022
  else if contains (L "2023") path_str then Some 2023
  else if contains (L "2024") path_str then Some 2024
  else if contains (L "2025") path_str then Some 2025
  else
    find (fun year => contains (str_of_nat year) filename)
      [2020; 2021; 2022; 2023; 2024; 2025].

(** [f"{year}"] for a year that is a number or ['Unknown']. *)
Definition year_text (year : option nat) : str :=
  match year with
  | Some y => str_of_nat y
  | None => L "Unknown"
  end.

(** A PDF file of the input directory: [str(pdf_path)], [pdf_path.name],
    [pdf_path.stem] and what PyMuPDF reads from it, the text of every
    page, or nothing when opening or reading the document raises. *)
Record Pdf : Type := MkPdf {
  pdf_path_str : str;
  pdf_file_name : str;
  pdf_file_stem : str;
  pdf_document : option (list str)
}.

(** The [metadata] dictionary of [save_extracted_text], also an entry of
    the extraction log. *)
Record LogEntry : Type := MkLogEntry {
  original_file : str;
  entry_year : option nat;
  document_type : str;
  entry_total_pages : nat;
  extraction_date : str;
  output_file : str;
  extraction_method : str
}.

(** What stage 1 writes into the output directory.  Of the summary, the
    groups of entries per year are given; [ExtractionSummaryHead] is the
    summary that ends after its heading and the two totals. *)
Inductive stage1_file : Type :=
| ExtractedText (name : str) (content : str)
| MetadataJson (name : str) (metadata : LogEntry)
| ExtractionLogJson (total_files_processed : nat) (files : list LogEntry)
| ExtractionSummary (total : nat) (by_year : list (option nat * list LogEntry))
| ExtractionSummaryHead (total : nat).

(** What stage 1 prints (the banners are left out). *)
Inductive stage1_event : Type :=
| FoundPdfs (n : nat)
| NoPdfsFound
| ProcessingPdf (name : str)
| PyMuPDFFailed (name : str)
| ExtractedPdfPages (n : nat)
| ExtractionFailed (name : str)
| SavedTo (name : str)
| ExtractionComplete (processed : nat).




(** [extract_text_from_pdf]: the pages, or nothing when PyMuPDF fails or
    the document has no page. *)
Definition extract_text_from_pdf (pdf : Pdf)
    : option (list PageText) * list stage1_event :=
  match pdf_document pdf with
  | Some doc =>
      match extract_with_pymupdf doc with
      | [] => (None, [ProcessingPdf (pdf_file_name pdf);
                      ExtractionFailed (pdf_file_name pdf)])
      | text_by_page =>
          (Some text_by_page,
           [ProcessingPdf (pdf_file_name pdf);
            ExtractedPdfPages (length text_by_page)])
      end
  | None => (None, [ProcessingPdf (pdf_file_name pdf);
                    PyMuPDFFailed (pdf_file_name pdf);
                    ExtractionFailed (pdf_file_name pdf)])
  end.

Section Stage1Run.

(** [datetime.now()], as [strftime('%Y-%m-%d %H:%M:%S')] and as
    [isoformat()] give it. *)
Variable now : str.
Variable now_iso : str.

(** [str(self.output_dir / name)]: the path of a file of the output
    directory, as a string. *)
Variable output_path : str -> str.

(** The files [save_extracted_text] writes and the metadata it
    returns, with the [extraction_method] that [process_all_pdfs]
    adds. *)
Definition save_pdf_text (text_by_page : list PageText) (pdf : Pdf)
    (year : option nat) (doc_type : str) : list stage1_file * LogEntry :=
  let output := extracted_file_name (year_text year) (pdf_file_stem pdf) in
  let metadata :=
    {| original_file := pdf_file_name pdf;
       entry_year := year;
       document_type := doc_type;
       entry_total_pages := length text_by_page;
       extraction_date := now_iso;
       output_file := output_path output;
       extraction_method := L "pymupdf" |} in
  ([ ExtractedText output
       (save_extracted_text text_by_page (pdf_file_name pdf) (year_text year)
          doc_type now);
     MetadataJson (metadata_file_name (year_text year) (pdf_file_stem pdf))
       metadata ],
   metadata).

(** One turn of the loop of [process_all_pdfs]. *)
Definition process_pdf (pdf : Pdf)
    : list stage1_file * list LogEntry * list stage1_event :=
  let year := extract_year_from_path (pdf_path_str pdf) (pdf_file_name pdf) in
  let doc_type := categorize_document (pdf_file_name pdf) in
  match extract_text_from_pdf pdf with
  | (Some text_by_page, out) =>
      let (files, metadata) := save_pdf_text text_by_page pdf year doc_type in
      (files, [metadata],
       out ++ [SavedTo (extracted_file_name (year_text year) (pdf_file_stem pdf))])
  | (None, out) => ([], [], out)
  end.


(** *** [save_extraction_log] *)

Definition year_eqb (a b : option nat) : bool :=
  match a, b with
  | Some x, Some y => Nat.eqb x y
  | None, None => true
  | _, _ => false
  end.

(** [by_year[year].append(item)], the key created at the end of the
    dictionary when it is new. *)
Fixpoint group_append (item : LogEntry) (by_year : list (option nat * list LogEntry))
    : list (option nat * list LogEntry) :=
  match by_year with
  | [] => [(entry_year item, [item])]
  | (year, items) :: rest =>
      if year_eqb year (entry_year item) then (year, items ++ [item]) :: rest
      else (year, items) :: group_append item rest
  end.

Definition group_by_year (log : list LogEntry) : list (option nat * list LogEntry) :=
  fold_left (fun by_year item => group_append item by_year) log [].

Fixpoint insert_group (g : nat * list LogEntry) (l : list (nat * list LogEntry))
    : list (nat * list LogEntry) :=
  match l with
  | [] => [g]
  | h :: l' => if fst g <=? fst h then g :: h :: l' else h :: insert_group g l'
  end.

(** The groups when every year is a number. *)
Fixpoint numbered (by_year : list (option nat * list LogEntry))
    : option (list (nat * list LogEntry)) :=
  match by_year with
  | [] => Some []
  | (Some y, items) :: rest => option_map (cons (y, items)) (numbered rest)
  | (None, _) :: _ => None
  end.

Definition all_unknown (by_year : list (option nat * list LogEntry)) : bool :=
  forallb (fun g => match fst g with None => true | Some _ => false end) by_year.

(** [for year in sorted(by_year.keys())]: the groups in ascending order
    of the year.  The keys are numbers and the string ['Unknown'];
    [sorted] compares them with [<], which raises [TypeError] between a
    number and a string, so a dictionary with keys of both kinds has no
    sorted order. *)
Definition sorted_groups (by_year : list (option nat * list LogEntry))
    : option (list (option nat * list LogEntry)) :=
  match numbered by_year with
  | Some groups =>
      Some (map (fun g => (Some (fst g), snd g)) (fold_right insert_group [] groups))
  | None => if all_unknown by_year then Some by_year else None
  end.

(** How a call ends that may raise [TypeError]. *)
Inductive outcome : Type := Returned | RaisedTypeError.

(** [save_extraction_log]: [extraction_log.json] is written first; the
    summary file is opened and its heading written before the years are
    sorted. *)
Definition save_extraction_log (log : list LogEntry) : list stage1_file * outcome :=
  match sorted_groups (group_by_year log) with
  | Some groups =>
      ([ExtractionLogJson (length log) log; ExtractionSummary (length log) groups],
       Returned)
  | None =>
      ([ExtractionLogJson (length log) log; ExtractionSummaryHead (length log)],
       RaisedTypeError)
  end.


End Stage1Run.

(** ** The master script ([MasterAnalysisRunner]) *)

(** [self.scripts]: the scripts of the pipeline and their
    descriptions. *)
Definition scripts : list (string * string) :=
  [ ("02_pdf_text_extractor.py", "PDF Text Extraction");
    ("03_esg_data_extractor.py", "ESG Data Extraction");
    ("04_quantitative_analysis_visualization.py",
     "Quantitative Analysis & Visualization") ]%string.

(** What happens when a script is run: the script file is not there,
    the child process ends with its output and return code, or
    [subprocess.run] raises. *)
Inductive script_run : Type :=
| ScriptMissing
| ScriptExited (stdout stderr : str) (returncode : Z)
| RunRaised.

(** What the master script prints. *)
Inductive master_event : Type :=
| Header (title : string)
| StepHeader (description : string)
| Running (script_name : string)
| ScriptNotFound (script_name : string)
| Stdout (text : str)
| Stderr (text : str)
| CompletedSuccessfully (description : string)
| FailedWithReturnCode (description : string) (returncode : Z)
| ErrorRunning (script_name : string)
| ReportsDirectoryNotFound
| FoundPdfFiles (n : nat)
| NoPdfFilesToAnalyze
| CannotProceed
| ContinuingAfter (description : string)
| LogSaved
| SuccessfulSteps (n total : nat)
| FailedSteps (n total : nat)
| SomeStepsFailed
| AllStepsCompleted.

(** [analysis_execution_log.txt]: the completed steps and, when a step
    failed, the section of the failed steps. *)
Record AnalysisLog : Type := MkAnalysisLog {
  completed_steps : list string;
  failed_section : option (list string)
}.

Definition print_if_any (f : str -> master_event) (text : str) : list master_event :=
  match text with
  | [] => []
  | _ => [f text]
  end.

Section MasterRun.

(** The outcome of running each script. *)
Variable run : string -> script_run.

(** [run_script] *)
Definition run_script (script_name description : string) : bool * list master_event :=
  let intro := [StepHeader description; Running script_name] in
  match run script_name with
  | ScriptMissing => (false, intro ++ [ScriptNotFound script_name])
  | ScriptExited stdout stderr returncode =>
      let output := print_if_any Stdout stdout ++ print_if_any Stderr stderr in
      if Z.eqb returncode 0
      then (true, intro ++ output ++ [CompletedSuccessfully description])
      else (false, intro ++ output ++ [FailedWithReturnCode description returncode])
  | RunRaised => (false, intro ++ [ErrorRunning script_name])
  end.

(** [check_prerequisites]: [extracted_reports] is the number of PDF
    files under the directory [extracted_reports], or nothing when the
    directory does not exist. *)
Definition check_prerequisites (extracted_reports : option nat)
    : bool * list master_event :=
  match extracted_reports with
  | None => (false, [Header "CHECKING PREREQUISITES"; ReportsDirectoryNotFound])
  | Some n =>
      if Nat.eqb n 0
      then (false, [Header "CHECKING PREREQUISITES"; FoundPdfFiles n;
                    NoPdfFilesToAnalyze])
      else (true, [Header "CHECKING PREREQUISITES"; FoundPdfFiles n])
  end.

(** The loop of [run_complete_analysis] over the scripts. *)
Fixpoint run_steps (steps : list (string * string))
    (success_steps failed_steps : list string)
    : list string * list string * list master_event :=
  match steps with
  | [] => (success_steps, failed_steps, [])
  | (script_name, description) :: steps' =>
      let (success, out) := run_script script_name description in
      if success then
        let '(s, f, out') :=
          run_steps steps' (success_steps ++ [description]) failed_steps in
        (s, f, out ++ out')
      else
        let '(s, f, out') :=
          run_steps steps' success_steps (failed_steps ++ [description]) in
        (s, f, out ++ ContinuingAfter description :: out')
  end.

(** [create_analysis_log] *)
Definition create_analysis_log (success_steps failed_steps : list string)
    : AnalysisLog :=
  {| completed_steps := success_steps;
     failed_section := match failed_steps with
                       | [] => None
                       | _ => Some failed_steps
                       end |}.

(** [run_complete_analysis]: what is printed and the log, when it is
    written. *)
Definition run_complete_analysis (extracted_reports : option nat)
    : list master_event * option AnalysisLog :=
  let (ready, out0) := check_prerequisites extracted_reports in
  if ready then
    let '(success_steps, failed_steps, out) := run_steps scripts [] [] in
    (Header "RALPH LAUREN ESG CORPORATE RESPONSE ANALYSIS" :: out0 ++ out
     ++ [LogSaved; Header "ANALYSIS PIPELINE COMPLETE";
         SuccessfulSteps (length success_steps) (length scripts);
         FailedSteps (length failed_steps) (length scripts);
         match failed_steps with
         | [] => AllStepsCompleted
         | _ => SomeStepsFailed
         end],
     Some (create_analysis_log success_steps failed_steps))
  else
    (Header "RALPH LAUREN ESG CORPORATE RESPONSE ANALYSIS" :: out0 ++ [CannotProceed],
     None).

End MasterRun.


(** * Properties *)

(** ** Strings *)

(** [w] occurs in [s] as a substring. *)
Definition occurs_in (w s : str) : Prop :=
  exists pre post, s = pre ++ w ++ post.

(** The page delimiter as it stands in a text file: a line of 80 ['='],
    the line [[PAGE n OF total]] and another line of 80 ['=']. *)
Definition page_delimiter (n total : str) : str :=
  line80 "="%char ++ newline :: L "[PAGE " ++ n ++ L " OF " ++ total
  ++ L "]" ++ newline :: line80 "="%char.

(** A string in which [space] is the only whitespace character. *)
Definition single_spaced (s : str) : Prop :=
  forall c, In c s -> is_space c = true -> c = space.

Lemma split_ws_aux_words (s cur : str) :
  (forall c, In c cur -> is_space c = false) ->
  forall w, In w (split_ws_aux cur s) -> forall c, In c w -> is_space c = false.
Proof.
  revert cur. induction s as [|a s IH]; intros cur Hcur w Hw c Hc; simpl in Hw.
  - destruct cur as [|x cur']; [contradiction|].
    destruct Hw as [<-|[]]. apply Hcur. now apply in_rev.
  - destruct (is_space a) eqn:Ha.
    + destruct cur as [|x cur'].
      * apply (IH [] ltac:(intros ? []) w Hw c Hc).
      * destruct Hw as [<-|Hw].
        -- apply Hcur. now apply in_rev.
        -- apply (IH [] ltac:(intros ? []) w Hw c Hc).
    + apply (IH (a :: cur)) with (w := w); auto.
      intros d [<-|Hd]; auto.
Qed.

Lemma join_space_single (ws : list str) :
  (forall w, In w ws -> forall c, In c w -> is_space c = false) ->
  single_spaced (join [space] ws).
Proof.
  induction ws as [|w ws IH]; intros Hws c Hc Hsp; simpl in Hc.
  - contradiction.
  - destruct ws as [|w' ws'].
    + rewrite (Hws w (or_introl eq_refl) c Hc) in Hsp. discriminate.
    + apply in_app_or in Hc. destruct Hc as [Hc|Hc].
      * rewrite (Hws w (or_introl eq_refl) c Hc) in Hsp. discriminate.
      * simpl in Hc. destruct Hc as [<-|Hc]; [reflexivity|].
        apply IH; auto. intros w0 Hw0. apply Hws. now right.
Qed.

Lemma collapse_ws_single_spaced (s : str) : single_spaced (collapse_ws s).
Proof.
  apply join_space_single. intros w Hw.
  apply (split_ws_aux_words s []); auto. intros ? [].
Qed.

Lemma single_spaced_firstn (n : nat) (s : str) :
  single_spaced s -> single_spaced (firstn n s).
Proof.
  intros H c Hc. apply H. rewrite <- (firstn_skipn n s).
  apply in_or_app. now left.
Qed.

Lemma single_spaced_no_newline (s : str) :
  single_spaced s -> ~ In newline s.
Proof.
  intros H Hin. specialize (H newline Hin eq_refl). discriminate.
Qed.

Lemma page_delimiter_not_in (n total s : str) :
  single_spaced s -> ~ occurs_in (page_delimiter n total) s.
Proof.
  intros H [pre [post ->]]. apply (single_spaced_no_newline _ H).
  apply in_or_app. right. apply in_or_app. left.
  unfold page_delimiter. apply in_or_app. right. now left.
Qed.

(** A stored context: cut to [cap] characters, with no page delimiter
    in it. *)
Definition capped (cap : nat) (s : str) : Prop :=
  length s <= cap /\ forall n total, ~ occurs_in (page_delimiter n total) s.

Lemma capped_firstn_collapse (cap : nat) (s : str) :
  capped cap (firstn cap (collapse_ws s)).
Proof.
  split.
  - apply firstn_le_length.
  - intros n total. apply page_delimiter_not_in.
    apply single_spaced_firstn, collapse_ws_single_spaced.
Qed.

(** ** What each pass emits from a page *)

Lemma targets_of_page_inv (md : Metadata) (page : Page) (r : TargetRecord) :
  In r (targets_of_page md page) ->
  exists pattern mo,
    In pattern target_keywords
    /\ In mo (finditer true pattern (text page))
    /\ r = target_entry md page mo.
Proof.
  unfold targets_of_page. intros H. apply in_flat_map in H.
  destruct H as [pattern [Hp H]]. apply in_map_iff in H.
  destruct H as [mo [<- Hmo]]. eauto.
Qed.

Lemma language_of_phrases_inv (md : Metadata) (page : Page) (s : strength)
    (phrases : list string) (r : LanguageRecord) :
  In r (language_of_phrases md page s phrases) ->
  exists phrase mo,
    In phrase phrases
    /\ contains (L phrase) (lower (text page)) = true
    /\ In mo (finditer true (lit phrase) (text page))
    /\ r = language_entry md page s mo.
Proof.
  unfold language_of_phrases. intros H. apply in_flat_map in H.
  destruct H as [phrase [Hp H]].
  destruct (contains (L phrase) (lower (text page))) eqn:Hc; [|contradiction].
  apply in_map_iff in H. destruct H as [mo [<- Hmo]].
  exists phrase, mo. auto.
Qed.

Lemma language_of_page_inv (md : Metadata) (page : Page) (r : LanguageRecord) :
  In r (language_of_page md page) ->
  exists s phrases phrase mo,
    In (s, phrases)
       [(Strong, commitment_strong); (Moderate, commitment_moderate);
        (WeakHedging, commitment_weak)]
    /\ In phrase phrases
    /\ contains (L phrase) (lower (text page)) = true
    /\ In mo (finditer true (lit phrase) (text page))
    /\ r = language_entry md page s mo.
Proof.
  unfold language_of_page. intros H.
  apply in_app_or in H. destruct H as [H|H];
    [|apply in_app_or in H; destruct H as [H|H]];
    apply language_of_phrases_inv in H;
    destruct H as [phrase [mo [H1 [H2 [H3 H4]]]]].
  - exists Strong, commitment_strong, phrase, mo. simpl. auto.
  - exists Moderate, commitment_moderate, phrase, mo. simpl. auto.
  - exists WeakHedging, commitment_weak, phrase, mo. simpl. auto 6.
Qed.

Lemma initiatives_of_page_inv (md : Metadata) (page : Page) (r : InitiativeRecord) :
  In r (initiatives_of_page md page) ->
  exists pattern mo,
    In pattern initiative_keywords
    /\ In mo (finditer true pattern (text page))
    /\ r = initiative_entry md page mo.
Proof.
  unfold initiatives_of_page. intros H. apply in_flat_map in H.
  destruct H as [pattern [Hp H]]. apply in_map_iff in H.
  destruct H as [mo [<- Hmo]]. eauto.
Qed.

(** The record of one keyword, when the keyword occurs on the page. *)
Definition impact_entry (md : Metadata) (page : Page) (impact_area keyword : string)
    (matches : list rmatch_obj) (mo : rmatch_obj) : ImpactAreaRecord :=
  {| a_year := md_get (md_year md);
     a_document := md_get (md_document_type md);
     a_page_number := page_number page;
     a_impact_area := L impact_area;
     a_keyword := L keyword;
     a_occurrence_count := length matches;
     a_example_context :=
       firstn 200 (collapse_ws (window 100 (lower (text page)) mo)) |}.

Lemma impact_of_keyword_inv (md : Metadata) (page : Page)
    (impact_area keyword : string) (r : ImpactAreaRecord) :
  In r (impact_of_keyword md page impact_area keyword) ->
  exists mo rest,
    finditer false (lit_chars (lower (L keyword))) (lower (text page)) = mo :: rest
    /\ r = impact_entry md page impact_area keyword (mo :: rest) mo.
Proof.
  unfold impact_of_keyword.
  destruct (finditer false (lit_chars (lower (L keyword))) (lower (text page)))
    as [|mo rest] eqn:E; [intros []|].
  intros [<-|[]]. exists mo, rest. split; reflexivity.
Qed.

Lemma impact_of_page_inv (md : Metadata) (page : Page) (r : ImpactAreaRecord) :
  In r (impact_of_page md page) ->
  exists impact_area keywords keyword,
    In (impact_area, keywords) impact_keywords
    /\ In keyword keywords
    /\ In r (impact_of_keyword md page impact_area keyword).
Proof.
  unfold impact_of_page. intros H. apply in_flat_map in H.
  destruct H as [[area kws] [He H]]. apply in_flat_map in H.
  destruct H as [kw [Hk H]]. exists area, kws, kw. auto.
Qed.

(** ** C3: stored contexts *)

(** C3.  Every record that one of the four extraction passes emits from
    a page stores a context of at most its cap (300 characters for a
    target and for an initiative, 250 for a language record, 200 for an
    impact area), and no page delimiter (80 ['='], the line
    [[PAGE n OF total]], 80 ['=']) occurs in it. *)
Theorem C3_contexts_capped_without_delimiter (md : Metadata) (page : Page) :
  (forall r, In r (targets_of_page md page) -> capped 300 (t_target_text r))
  /\ (forall r, In r (language_of_page md page) -> capped 250 (l_context r))
  /\ (forall r, In r (initiatives_of_page md page) -> capped 300 (i_initiative_text r))
  /\ (forall r, In r (impact_of_page md page) -> capped 200 (a_example_context r)).
Proof.
  split; [|split; [|split]]; intros r H.
  - apply targets_of_page_inv in H. destruct H as [p [mo [_ [_ ->]]]].
    apply capped_firstn_collapse.
  - apply language_of_page_inv in H.
    destruct H as [s [ps [p [mo [_ [_ [_ [_ ->]]]]]]]]. apply capped_firstn_collapse.
  - apply initiatives_of_page_inv in H. destruct H as [p [mo [_ [_ ->]]]].
    apply capped_firstn_collapse.
  - apply impact_of_page_inv in H. destruct H as [a [ks [k [_ [_ H]]]]].
    apply impact_of_keyword_inv in H. destruct H as [mo [rest [_ ->]]].
    apply capped_firstn_collapse.
Qed.

(** ** The run over one file *)

(** The four passes in the order of [process_all_text_files]. *)
Definition extract_all (pages : list Page) (md : Metadata) (ex : Extractor)
    : Extractor :=
  extract_impact_areas pages md
    (extract_initiatives pages md
       (extract_language_patterns pages md
          (extract_targets_and_goals pages md ex))).

Lemma process_body_ok (f : TextFile) (md : Metadata) (pages : list Page)
    (ex : Extractor) :
  parse_text_file f = Ok (md, pages) ->
  process_body f ex = (Ok (length pages), extract_all pages md ex).
Proof.
  intros H. unfold process_body, sbind, slift, supdate, sret. rewrite H.
  reflexivity.
Qed.

Lemma process_body_raise (f : TextFile) (e : error) (ex : Extractor) :
  parse_text_file f = Raise e ->
  process_body f ex = (Raise e, ex).
Proof.
  intros H. unfold process_body, sbind, slift. rewrite H. reflexivity.
Qed.


Lemma process_files_app (fs1 fs2 : list TextFile) (ex : Extractor) :
  process_files (fs1 ++ fs2) ex =
  (fst (process_files fs2 (fst (process_files fs1 ex))),
   snd (process_files fs1 ex) ++ snd (process_files fs2 (fst (process_files fs1 ex)))).
Proof.
  revert ex. induction fs1 as [|f fs1 IH]; intros ex; simpl.
  - destruct (process_files fs2 ex); reflexivity.
  - destruct (process_file f ex) as [ex1 out1]. rewrite IH.
    destruct (process_files fs1 ex1) as [ex2 out2]. simpl.
    now rewrite app_assoc.
Qed.

(** A small document of two pages, as stage 1 writes it. *)
Definition sample_texts : list str :=
  [ L "We are committed to achieving net zero by 2040, a 50% reduction from 2020 levels";
    L "Our water stewardship program was launched in 2021." ].

Definition sample_file : TextFile :=
  MkTextFile (L "2023_report_extracted.txt")
    (Some (save_extracted_text (extract_with_pymupdf sample_texts)
             (L "report.pdf") (L "2023") (L "Other Report")
             (L "2024-01-01 00:00:00"))).

Definition unreadable_file : TextFile :=
  MkTextFile (L "2022_broken_extracted.txt") None.

(** ** C5: provenance *)

(** The provenance of the records of one page: the number of the page,
    and the year and the document type of the metadata ([Unknown] where
    the header gave none). *)
Definition provenance (md : Metadata) (page : Page) : Prop :=
  (forall r, In r (targets_of_page md page) ->
     t_page_number r = page_number page
     /\ t_year r = md_get (md_year md)
     /\ t_document r = md_get (md_document_type md))
  /\ (forall r, In r (language_of_page md page) ->
     l_page_number r = page_number page
     /\ l_year r = md_get (md_year md)
     /\ l_document r = md_get (md_document_type md))
  /\ (forall r, In r (initiatives_of_page md page) ->
     i_page_number r = page_number page
     /\ i_year r = md_get (md_year md)
     /\ i_document r = md_get (md_document_type md))
  /\ (forall r, In r (impact_of_page md page) ->
     a_page_number r = page_number page
     /\ a_year r = md_get (md_year md)
     /\ a_document r = md_get (md_document_type md)).

Lemma provenance_holds (md : Metadata) (page : Page) : provenance md page.
Proof.
  split; [|split; [|split]]; intros r H.
  - apply targets_of_page_inv in H. destruct H as [p [mo [_ [_ ->]]]].
    simpl. auto.
  - apply language_of_page_inv in H.
    destruct H as [s [ps [p [mo [_ [_ [_ [_ ->]]]]]]]]. simpl. auto.
  - apply initiatives_of_page_inv in H. destruct H as [p [mo [_ [_ ->]]]].
    simpl. auto.
  - apply impact_of_page_inv in H. destruct H as [a [ks [k [_ [_ H]]]]].
    apply impact_of_keyword_inv in H. destruct H as [mo [rest [_ ->]]].
    simpl. auto.
Qed.



(** ** C6: a file that fails *)

Lemma process_body_raise_inv (f : TextFile) (e : error) (ex ex' : Extractor) :
  process_body f ex = (Raise e, ex') ->
  parse_text_file f = Raise e /\ ex' = ex.
Proof.
  intros H. destruct (parse_text_file f) as [[md pages]|e'] eqn:Hp.
  - rewrite (process_body_ok f md pages ex Hp) in H. discriminate.
  - rewrite (process_body_raise f e' ex Hp) in H. injection H as -> <-. auto.
Qed.

(** C6.  When the processing of a text file raises an error, the
    containers are left as they were before that file and the error is
    printed; in a run over several files the remaining files are
    processed as if the failed file were not there: the containers at the
    end are those of the run without it, and so is the output but for the
    two lines about the failed file. *)
Theorem C6_failed_file_is_skipped (f : TextFile) (e : error) (ex0 ex0' : Extractor) :
  process_body f ex0 = (Raise e, ex0') ->
  ex0' = ex0
  /\ (forall ex, process_file f ex =
        (ex, [Processing (file_name f); ErrorProcessing (file_name f) e]))
  /\ (forall before after ex,
        fst (process_files (before ++ f :: after) ex)
        = fst (process_files (before ++ after) ex)
        /\ snd (process_files (before ++ f :: after) ex)
           = snd (process_files before ex)
             ++ [Processing (file_name f); ErrorProcessing (file_name f) e]
             ++ snd (process_files after (fst (process_files before ex)))).
Proof.
  intros H. apply process_body_raise_inv in H. destruct H as [Hp ->].
  assert (Hf : forall ex, process_file f ex =
            (ex, [Processing (file_name f); ErrorProcessing (file_name f) e])).
  { intros ex. unfold process_file. now rewrite (process_body_raise f e ex Hp). }
  split; [reflexivity|]. split; [exact Hf|].
  intros before after ex. rewrite !process_files_app. simpl.
  rewrite Hf. destruct (process_files after (fst (process_files before ex))).
  simpl. auto.
Qed.

Lemma C6_failed_file_is_skipped_witness :
  fst (process_files [sample_file; unreadable_file; sample_file] new_extractor)
  = fst (process_files [sample_file; sample_file] new_extractor).
Proof.
  destruct (C6_failed_file_is_skipped unreadable_file IOError new_extractor
              new_extractor eq_refl) as [_ [_ H]].
  exact (proj1 (H [sample_file] [sample_file] new_extractor)).
Defined.

(** ** C7: a document without matches *)

Definition no_finds (icase : bool) (r : regex) (txt : str) : bool :=
  match finditer icase r txt with [] => true | _ => false end.

(** No pattern, phrase or keyword of the four sets matches in [txt]. *)
Definition nothing_matches (txt : str) : bool :=
  (forallb (fun pattern => no_finds true pattern txt) target_keywords
   && forallb (fun phrase => no_finds true (lit phrase) txt)
        (commitment_strong ++ commitment_moderate ++ commitment_weak)
   && forallb (fun pattern => no_finds true pattern txt) initiative_keywords
   && forallb
        (fun keyword => no_finds false (lit_chars (lower (L keyword))) (lower txt))
        (flat_map snd impact_keywords))%bool.

Lemma flat_map_nil {A B : Type} (f : A -> list B) (l : list A) :
  (forall x, In x l -> f x = []) -> flat_map f l = [].
Proof.
  induction l as [|a l IH]; intros H; simpl; [reflexivity|].
  rewrite (H a (or_introl eq_refl)), IH; auto.
  intros x Hx. apply H. now right.
Qed.

Lemma no_finds_nil (icase : bool) (r : regex) (txt : str) :
  no_finds icase r txt = true -> finditer icase r txt = [].
Proof.
  unfold no_finds. destruct (finditer icase r txt); [reflexivity|discriminate].
Qed.

Lemma nothing_matches_page (md : Metadata) (page : Page) :
  nothing_matches (text page) = true ->
  targets_of_page md page = []
  /\ language_of_page md page = []
  /\ initiatives_of_page md page = []
  /\ impact_of_page md page = [].
Proof.
  unfold nothing_matches. rewrite !andb_true_iff, !forallb_forall.
  intros [[[Ht Hl] Hi] Ha]. repeat split.
  - apply flat_map_nil. intros p Hp. now rewrite (no_finds_nil _ _ _ (Ht p Hp)).
  - assert (Hps : forall s phrases,
              (forall p, In p phrases ->
                         In p (commitment_strong ++ commitment_moderate ++ commitment_weak)) ->
              language_of_phrases md page s phrases = []).
    { intros s phrases Hin. apply flat_map_nil. intros p Hp.
      rewrite (no_finds_nil _ _ _ (Hl p (Hin p Hp))).
      now destruct (contains _ _). }
    unfold language_of_page. rewrite !Hps; [reflexivity| | |]; intros p Hp.
    + apply in_or_app. right. apply in_or_app. now right.
    + apply in_or_app. right. apply in_or_app. now left.
    + apply in_or_app. now left.
  - apply flat_map_nil. intros p Hp. now rewrite (no_finds_nil _ _ _ (Hi p Hp)).
  - apply flat_map_nil. intros [area kws] He. apply flat_map_nil. intros k Hk.
    unfold impact_of_keyword. simpl.
    rewrite (no_finds_nil _ _ _ (Ha k ltac:(apply in_flat_map; exists (area, kws); auto))).
    reflexivity.
Qed.

Lemma nothing_matches_pages (md : Metadata) (pages : list Page) (ex : Extractor) :
  forallb nothing_matches (map text pages) = true ->
  extract_all pages md ex = ex.
Proof.
  intros H.
  assert (Hp : forall page, In page pages -> nothing_matches (text page) = true).
  { intros page Hin. rewrite forallb_forall in H. apply H. now apply in_map. }
  unfold extract_all, extract_impact_areas, extract_initiatives,
    extract_language_patterns, extract_targets_and_goals. simpl.
  rewrite !flat_map_nil, !app_nil_r; try (now destruct ex);
    intros page Hin; now apply nothing_matches_page, Hp.
Qed.

(** The statistics file of a run that found nothing. *)
Definition zero_statistics (now : str) : list str :=
  [ L "RALPH LAUREN ESG ANALYSIS - EXTRACTION STATISTICS";
    repeat "="%char 80;
    L "";
    L "Extraction Date: " ++ now;
    L "";
    L "Total Targets/Goals Extracted: 0";
    L "Total Language Patterns Identified: 0";
    L "Total Initiatives Cataloged: 0";
    L "Total Impact Area Mentions: 0";
    L "" ].

(** C7.  For a document on whose pages no pattern, phrase or keyword of
    the four sets matches, a run of stage 2 over that document ends
    without an error, with the four containers empty; no row of any of
    the four tables is written, and the statistics file is written with
    the four counts 0. *)
Theorem C7_no_matches_no_rows (now : str)
    (sort_desc : list (str * nat) -> list (str * nat))
    (f : TextFile) (md : Metadata) (pages : list Page) :
  parse_text_file f = Ok (md, pages) ->
  forallb nothing_matches (map text pages) = true ->
  process_all_text_files now sort_desc [f] new_extractor
  = (new_extractor,
     {| extracted_targets_goals_csv := None;
        extracted_language_patterns_csv := None;
        extracted_initiatives_csv := None;
        extracted_impact_areas_csv := None;
        extraction_statistics_txt := Some (zero_statistics now) |},
     [FoundFiles 1; Processing (file_name f); ExtractedPages (length pages);
      SavedStatistics]).
Proof.
  intros Hp Hn. unfold process_all_text_files, process_files, process_file.
  rewrite (process_body_ok f md pages new_extractor Hp).
  rewrite (nothing_matches_pages md pages new_extractor Hn).
  reflexivity.
Qed.

Definition quiet_file : TextFile :=
  MkTextFile (L "2021_notes_extracted.txt")
    (Some (save_extracted_text
             (extract_with_pymupdf [L "Hello world."; L "Nothing to see here."])
             (L "notes.pdf") (L "2021") (L "Other Report")
             (L "2024-01-01 00:00:00"))).

Lemma C7_no_matches_no_rows_witness :
  extraction_statistics_txt
    (snd (fst (process_all_text_files (L "2024-01-02 10:00:00") (fun l => l)
                 [quiet_file] new_extractor)))
  = Some (zero_statistics (L "2024-01-02 10:00:00")).
Proof.
  rewrite (C7_no_matches_no_rows (L "2024-01-02 10:00:00") (fun l => l) quiet_file
             (MkMetadata (Some (L "notes.pdf")) (Some (L "2021"))
                (Some (L "Other Report")))
             [MkPage 1 2 (newline :: L "Hello world." ++ [newline; newline]);
              MkPage 2 2 (newline :: L "Nothing to see here." ++ [newline])]).
  - reflexivity.
  - vm_compute. reflexivity.
  - vm_compute. reflexivity.
Defined.

(** ** The matcher and what it matches *)

(** The character before the offset reached after reading [w]. *)
Fixpoint last_char (prev : option ascii) (w : str) : option ascii :=
  match w with
  | [] => prev
  | c :: w' => last_char (Some c) w'
  end.

Lemma last_char_app (prev : option ascii) (a b : str) :
  last_char prev (a ++ b) = last_char (last_char prev a) b.
Proof. revert prev. induction a as [|c a IH]; intros prev; simpl; auto. Qed.

(** [sem icase r prev w rest]: the expression [r] matches the string
    [w] when [prev] is the character before [w] and [rest] the text
    after it. *)
Fixpoint sem (icase : bool) (r : regex) (prev : option ascii) (w rest : str) : Prop :=
  match r with
  | Eps => w = []
  | One cs => exists c, w = [c] /\ cset_match icase cs c = true
  | WordB => w = [] /\ xorb (word_before prev) (word_after rest) = true
  | Seq r1 r2 =>
      exists w1 w2,
        w = w1 ++ w2
        /\ sem icase r1 prev w1 (w2 ++ rest)
        /\ sem icase r2 (last_char prev w1) w2 rest
  | Alt r1 r2 => sem icase r1 prev w rest \/ sem icase r2 prev w rest
  | Opt r1 => sem icase r1 prev w rest \/ w = []
  | Rep _ lo hi cs =>
      Forall (fun c => cset_match icase cs c = true) w
      /\ lo <= length w
      /\ match hi with Some h => length w <= h | None => True end
  | Grp _ r1 => sem icase r1 prev w rest
  end.

Section Soundness.

Variable icase : bool.
Variable R : Type.

Lemma rep_sound (greedy : bool) (cs : cset) (k : cont R) (cp : caps) (x : R) :
  forall s lo hi prev i,
    rep icase R greedy cs lo hi k prev i s cp = Some x ->
    exists w rest,
      s = w ++ rest
      /\ sem icase (Rep greedy lo hi cs) prev w rest
      /\ k (last_char prev w) (i + length w) rest cp = Some x.
Proof.
  assert (Hstop : forall s lo hi prev i,
            (if Nat.eqb lo 0 then k prev i s cp else None) = Some x ->
            exists w rest,
              s = w ++ rest
              /\ sem icase (Rep greedy lo hi cs) prev w rest
              /\ k (last_char prev w) (i + length w) rest cp = Some x).
  { intros s lo hi prev i H. destruct (Nat.eqb_spec lo 0) as [->|]; [|discriminate].
    exists [], s. simpl. rewrite Nat.add_0_r.
    repeat split; auto. destruct hi; auto; lia. }
  induction s as [|c s IH]; intros lo hi prev i H.
  - simpl in H. apply (Hstop [] lo hi prev i H).
  - assert (Hmore :
      (if (more_allowed hi && cset_match icase cs c)%bool
       then rep icase R greedy cs (pred lo) (dec_hi hi) k (Some c) (S i) s cp
       else None) = Some x ->
      exists w rest,
        c :: s = w ++ rest
        /\ sem icase (Rep greedy lo hi cs) prev w rest
        /\ k (last_char prev w) (i + length w) rest cp = Some x).
    { intros Hm.
      destruct (more_allowed hi) eqn:Hhi; [|discriminate].
      destruct (cset_match icase cs c) eqn:Hc; [|discriminate].
      simpl in Hm. apply IH in Hm.
      destruct Hm as [w [rest [-> [[Hall [Hlo Hh]] Hk]]]].
      exists (c :: w), rest. simpl. rewrite <- plus_n_Sm.
      repeat split; auto; try lia.
      destruct hi as [h|]; simpl in *; auto.
      destruct h; [discriminate|]. simpl in Hh. lia. }
    simpl in H. destruct greedy.
    + destruct (if (more_allowed hi && cset_match icase cs c)%bool
                then rep icase R true cs (pred lo) (dec_hi hi) k (Some c) (S i) s cp
                else None) as [y|] eqn:E.
      * injection H as ->. now apply Hmore.
      * apply (Hstop (c :: s) lo hi prev i H).
    + destruct (if Nat.eqb lo 0 then k prev i (c :: s) cp else None) as [y|] eqn:E.
      * injection H as ->. apply (Hstop (c :: s) lo hi prev i E).
      * now apply Hmore.
Qed.

Lemma rmatch_sound (r : regex) :
  forall (k : cont R) prev i s cp x,
    rmatch icase R r k prev i s cp = Some x ->
    exists w rest cp',
      s = w ++ rest
      /\ sem icase r prev w rest
      /\ k (last_char prev w) (i + length w) rest cp' = Some x.
Proof.
  induction r as [|cs| |r1 IH1 r2 IH2|r1 IH1 r2 IH2|r1 IH1|greedy lo hi cs|n r1 IH1];
    intros k prev i s cp x H; simpl in H.
  - exists [], s, cp. simpl. rewrite Nat.add_0_r. auto.
  - destruct s as [|c s]; [discriminate|].
    destruct (cset_match icase cs c) eqn:Hc; [|discriminate].
    exists [c], s, cp. simpl. rewrite Nat.add_1_r. eauto.
  - destruct (xorb (word_before prev) (word_after s)) eqn:Hb; [|discriminate].
    exists [], s, cp. simpl. rewrite Nat.add_0_r. auto.
  - apply IH1 in H. destruct H as [w1 [rest1 [cp1 [-> [H1 H]]]]].
    apply IH2 in H. destruct H as [w2 [rest [cp2 [-> [H2 H]]]]].
    exists (w1 ++ w2), rest, cp2. rewrite <- app_assoc, last_char_app, length_app.
    rewrite Nat.add_assoc. split; [reflexivity|]. split; [|exact H].
    simpl. eauto.
  - destruct (rmatch icase R r1 k prev i s cp) as [y|] eqn:E.
    + injection H as ->. apply IH1 in E.
      destruct E as [w [rest [cp' [-> [Hs Hk]]]]]. exists w, rest, cp'. simpl. auto.
    + apply IH2 in H.
      destruct H as [w [rest [cp' [-> [Hs Hk]]]]]. exists w, rest, cp'. simpl. auto.
  - destruct (rmatch icase R r1 k prev i s cp) as [y|] eqn:E.
    + injection H as ->. apply IH1 in E.
      destruct E as [w [rest [cp' [-> [Hs Hk]]]]]. exists w, rest, cp'. simpl. auto.
    + exists [], s, cp. simpl. rewrite Nat.add_0_r. auto.
  - apply rep_sound in H. destruct H as [w [rest [-> [Hs Hk]]]].
    exists w, rest, cp. auto.
  - apply IH1 in H. destruct H as [w [rest [cp' [-> [Hs Hk]]]]].
    exists w, rest, ((n, (i, i + length w)) :: cp'). auto.
Qed.

End Soundness.

(** A match at an offset covers a string that the expression matches. *)
Lemma match_here_sound (icase : bool) (r : regex) (prev : option ascii) (i : nat)
    (s : str) (e : nat) (cp : caps) :
  match_here icase r prev i s = Some (e, cp) ->
  exists w rest, s = w ++ rest /\ sem icase r prev w rest /\ e = i + length w.
Proof.
  unfold match_here. intros H. apply rmatch_sound in H.
  destruct H as [w [rest [cp' [-> [Hs Hk]]]]]. injection Hk as <- _.
  exists w, rest. auto.
Qed.

(** Some single-character matcher of [r] takes [c]. *)
Fixpoint accepts (icase : bool) (r : regex) (c : ascii) : bool :=
  match r with
  | Eps | WordB => false
  | One cs | Rep _ _ _ cs => cset_match icase cs c
  | Seq r1 r2 | Alt r1 r2 => (accepts icase r1 c || accepts icase r2 c)%bool
  | Opt r1 | Grp _ r1 => accepts icase r1 c
  end.

Lemma sem_accepts (icase : bool) (r : regex) :
  forall prev w rest,
    sem icase r prev w rest -> Forall (fun c => accepts icase r c = true) w.
Proof.
  induction r as [|cs| |r1 IH1 r2 IH2|r1 IH1 r2 IH2|r1 IH1|greedy lo hi cs|n r1 IH1];
    intros prev w rest H; simpl in *.
  - subst. constructor.
  - destruct H as [c [-> Hc]]. repeat constructor. exact Hc.
  - destruct H as [-> _]. constructor.
  - destruct H as [w1 [w2 [-> [H1 H2]]]]. apply Forall_app. split.
    + eapply Forall_impl; [|eapply IH1; eauto]. intros a ->. reflexivity.
    + eapply Forall_impl; [|eapply IH2; eauto]. intros a ->. apply orb_true_r.
  - destruct H as [H|H].
    + eapply Forall_impl; [|eapply IH1; eauto]. intros a ->. reflexivity.
    + eapply Forall_impl; [|eapply IH2; eauto]. intros a ->. apply orb_true_r.
  - destruct H as [H| ->]; [eapply IH1; eauto|constructor].
  - tauto.
  - eapply IH1; eauto.
Qed.

Lemma app_eq_long_prefix {A : Type} (x : list A) (c : A) (y w rest : list A) :
  x ++ c :: y = w ++ rest -> length x < length w -> In c w.
Proof.
  revert w. induction x as [|a x IH]; intros w H Hl.
  - destruct w as [|b w]; [simpl in Hl; lia|]. injection H as <- _. now left.
  - destruct w as [|b w]; [simpl in Hl; lia|]. injection H as <- H.
    right. apply IH; auto. simpl in Hl. lia.
Qed.

(** No match reaches over a character that no matcher of the expression
    takes. *)
Lemma match_here_barrier (icase : bool) (r : regex) (prev : option ascii) (i : nat)
    (x : str) (c : ascii) (y : str) (e : nat) (cp : caps) :
  accepts icase r c = false ->
  match_here icase r prev i (x ++ c :: y) = Some (e, cp) ->
  e <= i + length x.
Proof.
  intros Hc H. apply match_here_sound in H.
  destruct H as [w [rest [Heq [Hs ->]]]].
  destruct (Nat.le_gt_cases (length w) (length x)) as [Hle|Hgt]; [lia|].
  apply (app_eq_long_prefix x c y w rest Heq) in Hgt.
  apply sem_accepts in Hs. rewrite Forall_forall in Hs.
  rewrite (Hs c Hgt) in Hc. discriminate.
Qed.

(** ** The scan of [finditer] *)

(** Every match the scan reports is the match of the expression at its
    start offset. *)
Lemma scan_sound (icase : bool) (r : regex) (mo : rmatch_obj) :
  forall s skip prev i,
    In mo (scan icase r skip prev i s) ->
    exists a b,
      s = a ++ b
      /\ m_start mo = i + length a
      /\ match_here icase r (last_char prev a) (i + length a) b
         = Some (m_end mo, m_caps mo).
Proof.
  assert (Hstep : forall c s prev i skip,
    (forall skip prev i, In mo (scan icase r skip prev i s) ->
       exists a b, s = a ++ b /\ m_start mo = i + length a
         /\ match_here icase r (last_char prev a) (i + length a) b
            = Some (m_end mo, m_caps mo)) ->
    In mo (scan icase r skip (Some c) (S i) s) ->
    exists a b, c :: s = a ++ b /\ m_start mo = i + length a
      /\ match_here icase r (last_char prev a) (i + length a) b
         = Some (m_end mo, m_caps mo)).
  { intros c s prev i skip IH H. apply IH in H.
    destruct H as [a [b [-> [Hs Hm]]]]. exists (c :: a), b. simpl.
    rewrite <- plus_n_Sm. auto. }
  induction s as [|c s IH]; intros skip prev i H.
  - destruct skip; simpl in H; [|contradiction].
    destruct (match_here icase r prev i []) as [[e cp]|] eqn:E; [|contradiction].
    destruct H as [<-|[]]. exists [], []. simpl. rewrite Nat.add_0_r. auto.
  - destruct skip as [|n]; simpl in H.
    + destruct (match_here icase r prev i (c :: s)) as [[e cp]|] eqn:E.
      * destruct H as [<-|H].
        -- exists [], (c :: s). simpl. rewrite Nat.add_0_r. auto.
        -- eapply Hstep; eauto.
      * eapply Hstep; eauto.
    + eapply Hstep; eauto.
Qed.

(** The scan reports the match at an offset when no earlier match reaches
    over that offset. *)
Lemma scan_finds (icase : bool) (r : regex) (s : str) (e : nat) (cp : caps) :
  forall pre skip prev i,
    skip <= length pre ->
    (forall a b e' cp',
       pre = a ++ b -> b <> [] ->
       match_here icase r (last_char prev a) (i + length a) (b ++ s) = Some (e', cp') ->
       e' <= i + length pre) ->
    match_here icase r (last_char prev pre) (i + length pre) s = Some (e, cp) ->
    In (MkMatch (i + length pre) e cp) (scan icase r skip prev i (pre ++ s)).
Proof.
  induction pre as [|c pre IH]; intros skip prev i Hskip Hfree Hm.
  - simpl in *. assert (skip = 0) by lia. subst skip.
    rewrite Nat.add_0_r in *. destruct s as [|d s]; simpl; rewrite Hm; now left.
  - assert (Hfree' : forall a b e' cp',
              pre = a ++ b -> b <> [] ->
              match_here icase r (last_char (Some c) a) (S i + length a) (b ++ s)
              = Some (e', cp') ->
              e' <= S i + length pre).
    { intros a b e' cp' -> Hb Hab.
      specialize (Hfree (c :: a) b e' cp' eq_refl Hb). simpl in Hfree.
      rewrite <- plus_n_Sm in Hfree. specialize (Hfree Hab).
      rewrite length_app in *. simpl. lia. }
    simpl length in *. rewrite <- plus_n_Sm in *. simpl in Hm.
    destruct skip as [|n]; simpl.
    + destruct (match_here icase r prev i (c :: pre ++ s)) as [[e' cp']|] eqn:E.
      * right. apply (IH (e' - i - 1) (Some c) (S i)); auto.
        specialize (Hfree [] (c :: pre) e' cp' eq_refl ltac:(discriminate)).
        simpl in Hfree. rewrite Nat.add_0_r in Hfree. specialize (Hfree E). lia.
      * apply (IH 0 (Some c) (S i)); auto. lia.
    + apply (IH n (Some c) (S i)); auto. lia.
Qed.

(** A scan without matches: the expression matches at no offset. *)
Lemma scan_nil (icase : bool) (r : regex) :
  forall s prev i,
    scan icase r 0 prev i s = [] ->
    forall a b,
      s = a ++ b ->
      match_here icase r (last_char prev a) (i + length a) b = None.
Proof.
  induction s as [|c s IH]; intros prev i H a b Hab.
  - destruct a; [|discriminate]. destruct b; [|discriminate]. simpl in *.
    rewrite Nat.add_0_r.
    destruct (match_here icase r prev i []) as [[e cp]|]; [discriminate|reflexivity].
  - simpl in H.
    destruct (match_here icase r prev i (c :: s)) as [[e cp]|] eqn:E; [discriminate|].
    destruct a as [|d a]; simpl in Hab.
    + subst b. simpl. rewrite Nat.add_0_r. exact E.
    + injection Hab as <- ->. simpl. rewrite <- plus_n_Sm.
      apply (IH (Some c) (S i) H a b eq_refl).
Qed.

(** The scan with a barrier: a character before the offset that the
    expression cannot take, and no match from the offsets in between. *)
Fixpoint no_match_from (icase : bool) (r : regex) (prev : option ascii) (i : nat)
    (mid s : str) : Prop :=
  match mid with
  | [] => True
  | c :: mid' =>
      match_here icase r prev i (mid ++ s) = None
      /\ no_match_from icase r (Some c) (S i) mid' s
  end.

Lemma no_match_from_suffix (icase : bool) (r : regex) (s : str) :
  forall mid prev i a b,
    no_match_from icase r prev i mid s ->
    mid = a ++ b -> b <> [] ->
    match_here icase r (last_char prev a) (i + length a) (b ++ s) = None.
Proof.
  induction mid as [|c mid IH]; intros prev i a b H Hab Hb.
  - destruct a; [|discriminate]. simpl in Hab. subst b. contradiction.
  - destruct H as [H1 H2]. destruct a as [|d a]; simpl in Hab.
    + subst b. simpl. rewrite Nat.add_0_r. exact H1.
    + injection Hab as <- ->. simpl. rewrite <- plus_n_Sm.
      apply (IH (Some c) (S i) a b H2 eq_refl Hb).
Qed.

Lemma app_split_at {A : Type} (x : list A) (c : A) (mid a b : list A) :
  x ++ c :: mid = a ++ b ->
  (exists b', b = b' ++ c :: mid /\ x = a ++ b')
  \/ (exists a', a = x ++ c :: a' /\ mid = a' ++ b).
Proof.
  revert a. induction x as [|d x IH]; intros a H; simpl in H.
  - destruct a as [|d a]; simpl in H.
    + left. exists []. subst b. auto.
    + injection H as <- ->. right. exists a. auto.
  - destruct a as [|d' a]; simpl in H.
    + left. exists (d :: x). subst b. auto.
    + injection H as <- H. apply IH in H.
      destruct H as [[b' [-> ->]]|[a' [-> ->]]].
      * left. exists b'. auto.
      * right. exists a'. auto.
Qed.

Lemma finditer_finds (icase : bool) (r : regex) (x : str) (c : ascii) (mid s : str)
    (e : nat) (cp : caps) :
  accepts icase r c = false ->
  no_match_from icase r (Some c) (S (length x)) mid s ->
  match_here icase r (last_char (Some c) mid) (length x + S (length mid)) s
  = Some (e, cp) ->
  In (MkMatch (length x + S (length mid)) e cp)
     (finditer icase r (x ++ c :: mid ++ s)).
Proof.
  intros Hc Hmid Hm. unfold finditer.
  replace (x ++ c :: mid ++ s) with ((x ++ c :: mid) ++ s)
    by (rewrite <- app_assoc; reflexivity).
  replace (length x + S (length mid)) with (0 + length (x ++ c :: mid))
    by (rewrite length_app; reflexivity).
  apply scan_finds.
  - lia.
  - intros a b e' cp' Hab Hb Hab'. simpl. rewrite length_app. simpl.
    apply app_split_at in Hab. destruct Hab as [[b' [-> ->]]|[a' [-> Hab]]].
    + rewrite <- app_assoc in Hab'. simpl in Hab'.
      apply match_here_barrier in Hab'; auto. rewrite length_app. lia.
    + rewrite last_char_app in Hab'. simpl in Hab'.
      rewrite length_app in Hab'. simpl in Hab'.
      rewrite <- plus_n_Sm in Hab'.
      pose proof (no_match_from_suffix icase r s mid (Some c) (S (length x)) a' b
                    Hmid Hab Hb) as Hn.
      simpl in Hn. congruence.
  - rewrite last_char_app. simpl. rewrite length_app. simpl. exact Hm.
Qed.

(** ** C2: the years of a target *)

Lemma is_digit_is_word (c : ascii) : is_digit c = true -> is_word c = true.
Proof. unfold is_digit, is_word. intros ->. reflexivity. Qed.

Lemma slice_app_middle (pre y post : str) :
  slice (pre ++ y ++ post) (length pre) (length pre + length y) = y.
Proof.
  unfold slice. rewrite skipn_app, skipn_all, Nat.sub_diag. simpl.
  replace (length pre + length y - length pre) with (length y) by lia.
  rewrite firstn_app, firstn_all, Nat.sub_diag. simpl. apply app_nil_r.
Qed.

(** Unfolding of the matcher on a pattern, leaving the tests on
    characters as they are. *)
Ltac rx_simpl :=
  cbn [match_here rmatch rep lit lit_chars L list_ascii_of_string times plus
       star lazy_plus chr cset_match more_allowed dec_hi option_map pred Nat.eqb
       andb negb word_after].

Tactic Notation "rx_simpl" "in" hyp(H) :=
  cbn [match_here rmatch rep lit lit_chars L list_ascii_of_string times plus
       star lazy_plus chr cset_match more_allowed dec_hi option_map pred Nat.eqb
       andb negb word_after] in H.

(** The year pattern matches exactly the strings [20dd] that stand
    between word boundaries. *)
Lemma year_match (prev : option ascii) (i : nat) (s : str) (e : nat) (cp : caps) :
  match_here false year_re prev i s = Some (e, cp) <->
  exists d1 d2 rest,
    s = "2"%char :: "0"%char :: d1 :: d2 :: rest
    /\ is_digit d1 = true /\ is_digit d2 = true
    /\ word_before prev = false /\ word_after rest = false
    /\ e = i + 4 /\ cp = [(1, (i, i + 4))].
Proof.
  unfold year_re. split.
  - intros H.
    assert (Hs : exists c1 c2 d1 d2 rest, s = c1 :: c2 :: d1 :: d2 :: rest).
    { destruct s as [|c1 [|c2 [|d1 [|d2 rest]]]]; rx_simpl in H;
        repeat match type of H with
               | (if ?b then _ else _) = _ => destruct b; try discriminate H
               | match (if ?b then _ else _) with _ => _ end = _ =>
                   destruct b; try discriminate H
               end; eauto 10. }
    destruct Hs as [c1 [c2 [d1 [d2 [rest ->]]]]]. rx_simpl in H.
    destruct (xorb (word_before prev) (is_word c1)) eqn:Hb; [|discriminate].
    destruct (Ascii.eqb_spec "2"%char c1) as [<-|]; [|discriminate].
    destruct (Ascii.eqb_spec "0"%char c2) as [<-|]; [|discriminate].
    destruct (is_digit d1) eqn:H1; [|discriminate].
    destruct (is_digit d2) eqn:H2; [|discriminate].
    assert (Hk : xorb (word_before (Some d2)) (word_after rest) = true
                 /\ e = S (S (S (S i))) /\ cp = [(1, (i, S (S (S (S i)))))]).
    { destruct (xorb (word_before (Some d2)) (word_after rest)) eqn:Hx;
        destruct rest as [|c5 rest]; rx_simpl in H; cbn [word_after] in Hx;
        rewrite Hx in H; try discriminate H; injection H as <- <-; auto. }
    destruct Hk as [Hx [-> ->]].
    unfold word_before in Hx. rewrite (is_digit_is_word d2 H2) in Hx.
    destruct (word_after rest) eqn:Ha; [discriminate|].
    exists d1, d2, rest. change (is_word "2"%char) with true in Hb.
    destruct (word_before prev); [discriminate|].
    replace (i + 4) with (S (S (S (S i)))) by lia. auto 10.
  - intros [d1 [d2 [rest [-> [H1 [H2 [Hp [Ha [-> ->]]]]]]]]].
    rx_simpl. rewrite Hp. change (is_word "2"%char) with true.
    change (xorb false true) with true. cbv iota.
    change (Ascii.eqb "2" "2") with true. change (Ascii.eqb "0" "0") with true.
    cbv iota. rewrite H1, H2.
    replace (i + 4) with (S (S (S (S i)))) by lia.
    destruct rest as [|c5 rest]; rx_simpl; unfold word_before;
      rewrite (is_digit_is_word d2 H2); rx_simpl; simpl in Ha; rewrite ?Ha;
      reflexivity.
Qed.

Lemma year_re_accepts (c : ascii) :
  accepts false year_re c = true -> is_word c = true.
Proof.
  unfold year_re.
  cbn [accepts lit lit_chars L list_ascii_of_string times cset_match].
  rewrite !orb_false_r, !orb_false_l, !orb_true_iff.
  intros [[H|H]|H].
  - apply Ascii.eqb_eq in H. now subst.
  - apply Ascii.eqb_eq in H. now subst.
  - now apply is_digit_is_word.
Qed.

(** A year of this century that stands as a whole word in [ctx]. *)
Definition whole_word_year (y ctx : str) : Prop :=
  exists pre d1 d2 post,
    ctx = pre ++ y ++ post
    /\ y = ["2"%char; "0"%char; d1; d2]
    /\ is_digit d1 = true /\ is_digit d2 = true
    /\ word_before (last_char None pre) = false
    /\ word_after post = false.

Lemma findall_years (ctx y : str) :
  In y (findall1 false year_re ctx) <-> whole_word_year y ctx.
Proof.
  unfold findall1. rewrite in_map_iff. split.
  - intros [mo [<- Hmo]]. apply scan_sound in Hmo.
    destruct Hmo as [a [b [-> [Hs Hm]]]]. simpl in Hs, Hm.
    apply year_match in Hm.
    destruct Hm as [d1 [d2 [rest [-> [H1 [H2 [Hp [Ha [He Hc]]]]]]]]].
    assert (Hg : group (a ++ "2"%char :: "0"%char :: d1 :: d2 :: rest) mo 1
                 = ["2"%char; "0"%char; d1; d2]).
    { unfold group. rewrite Hc. cbn [cap_lookup Nat.eqb].
      exact (slice_app_middle a ["2"%char; "0"%char; d1; d2] rest). }
    rewrite Hg. exists a, d1, d2, rest. auto 10.
  - intros [pre [d1 [d2 [post [-> [-> [H1 [H2 [Hp Ha]]]]]]]]].
    assert (Hm : forall prev i, word_before prev = false ->
              match_here false year_re prev i
                (["2"%char; "0"%char; d1; d2] ++ post)
              = Some (i + 4, [(1, (i, i + 4))])).
    { intros prev i Hprev. apply year_match. exists d1, d2, post. auto 10. }
    exists (MkMatch (length pre) (length pre + 4)
              [(1, (length pre, length pre + 4))]).
    split.
    + unfold group. cbn [m_caps cap_lookup Nat.eqb].
      exact (slice_app_middle pre ["2"%char; "0"%char; d1; d2] post).
    + destruct (rev pre) as [|c x'] eqn:Hrev.
      * assert (pre = []) by (apply (f_equal (@rev ascii)) in Hrev;
                               now rewrite rev_involutive in Hrev).
        subst pre.
        exact (scan_finds false year_re _ _ _ [] 0 None 0 (le_n 0)
                 ltac:(intros a b ? ? Hab Hb; destruct a; destruct b;
                       try discriminate; congruence)
                 (Hm None 0 eq_refl)).
      * assert (Hpre : pre = rev x' ++ [c]).
        { apply (f_equal (@rev ascii)) in Hrev.
          now rewrite rev_involutive in Hrev. }
        subst pre. rewrite last_char_app in Hp. simpl in Hp.
        rewrite <- app_assoc. simpl app.
        rewrite length_app. simpl length.
        replace (length (rev x') + 1) with (length (rev x') + S (@length ascii []))
          by reflexivity.
        apply (finditer_finds false year_re (rev x') c []
                 ("2"%char :: "0"%char :: d1 :: d2 :: post)).
        -- destruct (accepts false year_re c) eqn:Hacc; [|reflexivity].
           apply year_re_accepts in Hacc. congruence.
        -- exact I.
        -- simpl last_char. apply (Hm (Some c)). exact Hp.
Qed.

(** *** The years of a text, read without the pattern *)

(** A year of this century stands at the head of [s] as a whole word:
    ["20"], two digits, no word character before it ([prev] is the
    character before [s]) and none after it. *)
Definition year_here (prev : option ascii) (s : str) : bool :=
  match s with
  | c1 :: c2 :: d1 :: d2 :: rest =>
      (Ascii.eqb c1 "2" && Ascii.eqb c2 "0" && is_digit d1 && is_digit d2
       && negb (word_before prev) && negb (word_after rest))%bool
  | _ => false
  end.

(** The years that stand in a text as whole words, from left to right,
    every one as often as it stands there. *)
Fixpoint years_from (prev : option ascii) (s : str) : list str :=
  match s with
  | [] => []
  | c :: s' =>
      (if year_here prev s then [firstn 4 s] else []) ++ years_from (Some c) s'
  end.

Definition years_in (ctx : str) : list str := years_from None ctx.

Lemma year_here_shape (prev : option ascii) (s : str) :
  year_here prev s = true <->
  exists d1 d2 rest,
    s = "2"%char :: "0"%char :: d1 :: d2 :: rest
    /\ is_digit d1 = true /\ is_digit d2 = true
    /\ word_before prev = false /\ word_after rest = false.
Proof.
  split.
  - destruct s as [|c1 [|c2 [|d1 [|d2 rest]]]]; try discriminate.
    cbn [year_here]. rewrite !andb_true_iff, !negb_true_iff.
    intros [[[[[H1 H2] H3] H4] H5] H6].
    apply Ascii.eqb_eq in H1, H2. subst c1 c2. exists d1, d2, rest. auto 10.
  - intros [d1 [d2 [rest [-> [H1 [H2 [H3 H4]]]]]]].
    cbn [year_here]. rewrite H1, H2, H3, H4. reflexivity.
Qed.

(** The year pattern matches at an offset exactly when a year stands
    there as a whole word, and it matches the four characters of the
    year. *)
Lemma year_here_match (prev : option ascii) (i : nat) (s : str) :
  match_here false year_re prev i s
  = if year_here prev s then Some (i + 4, [(1, (i, i + 4))]) else None.
Proof.
  destruct (year_here prev s) eqn:E.
  - apply year_here_shape in E.
    destruct E as [d1 [d2 [rest [-> [H1 [H2 [H3 H4]]]]]]].
    apply year_match. exists d1, d2, rest. auto 10.
  - destruct (match_here false year_re prev i s) as [[e cp]|] eqn:Em; [|reflexivity].
    apply year_match in Em.
    destruct Em as [d1 [d2 [rest [-> [H1 [H2 [H3 [H4 _]]]]]]]].
    assert (Ht : year_here prev ("2"%char :: "0"%char :: d1 :: d2 :: rest) = true)
      by (apply year_here_shape; exists d1, d2, rest; auto 10).
    congruence.
Qed.

Lemma year_here_after_word (prev : option ascii) (s : str) :
  word_before prev = true -> year_here prev s = false.
Proof.
  intros H. destruct (year_here prev s) eqn:E; [|reflexivity].
  apply year_here_shape in E.
  destruct E as [d1 [d2 [rest [_ [_ [_ [H3 _]]]]]]]. congruence.
Qed.

Lemma slice_at (pre s : str) (n : nat) :
  slice (pre ++ s) (length pre) (length pre + n) = firstn n s.
Proof.
  unfold slice. rewrite skipn_app, skipn_all, Nat.sub_diag. simpl.
  now replace (length pre + n - length pre) with n by lia.
Qed.

(** The scan for the year pattern reports the years of [years_from]:
    the characters that a match covers start no other year, because a
    word character stands before each of them. *)
Lemma scan_years (ctx : str) :
  forall s pre skip,
    ctx = pre ++ s ->
    (skip = 0
     \/ word_before (last_char None pre) = true
        /\ forallb is_word (firstn (skip - 1) s) = true) ->
    map (fun mo => group ctx mo 1)
      (scan false year_re skip (last_char None pre) (length pre) s)
    = years_from (last_char None pre) s.
Proof.
  induction s as [|c s IH]; intros pre skip Hctx Hskip.
  - destruct skip; cbn [scan years_from]; [|reflexivity].
    rewrite year_here_match. reflexivity.
  - assert (Hctx' : ctx = (pre ++ [c]) ++ s) by (rewrite <- app_assoc; exact Hctx).
    assert (Hlast : last_char None (pre ++ [c]) = Some c)
      by (rewrite last_char_app; reflexivity).
    assert (Hlen : length (pre ++ [c]) = S (length pre))
      by (rewrite length_app; simpl; lia).
    specialize (IH (pre ++ [c])). rewrite Hlast, Hlen in IH.
    destruct skip as [|n].
    + cbn [scan years_from]. rewrite year_here_match.
      destruct (year_here (last_char None pre) (c :: s)) eqn:E.
      * cbn [map app]. f_equal.
        -- unfold group. cbn [m_caps cap_lookup Nat.eqb].
           rewrite Hctx. apply slice_at.
        -- apply year_here_shape in E.
           destruct E as [d1 [d2 [rest [Hs [H1 [H2 _]]]]]].
           injection Hs as -> ->.
           replace (length pre + 4 - length pre - 1) with 3 by lia.
           apply IH; [exact Hctx'|]. right. split; [reflexivity|].
           cbn [Nat.sub firstn forallb]. rewrite (is_digit_is_word d1 H1).
           reflexivity.
      * cbn [app]. apply IH; [exact Hctx'|now left].
    + destruct Hskip as [Hskip|[Hw Hall]]; [discriminate|].
      cbn [scan years_from]. rewrite (year_here_after_word _ _ Hw). cbn [app].
      apply IH; [exact Hctx'|].
      destruct n as [|m]; [now left|]. right.
      cbn [Nat.sub firstn forallb] in Hall.
      apply andb_true_iff in Hall. destruct Hall as [Hc Hall].
      replace (S m - 1) with m by lia.
      split; [exact Hc|exact Hall].
Qed.

Lemma findall_years_list (ctx : str) :
  findall1 false year_re ctx = years_in ctx.
Proof.
  unfold findall1, finditer, years_in.
  apply (scan_years ctx ctx [] 0 eq_refl). now left.
Qed.

(** The matches that [extract_targets_and_goals] visits on a page, in
    the order of its two loops: pattern after pattern, and for every
    pattern its matches from left to right. *)
Definition target_matches (page : Page) : list rmatch_obj :=
  flat_map (fun pattern => finditer true pattern (text page)) target_keywords.

Lemma flat_map_map_inner {A B C : Type} (g : B -> C) (f : A -> list B) (l : list A) :
  flat_map (fun a => map g (f a)) l = map g (flat_map f l).
Proof.
  induction l as [|a l IH]; simpl; [reflexivity|]. now rewrite IH, map_app.
Qed.

Lemma targets_of_page_matches (md : Metadata) (page : Page) :
  targets_of_page md page = map (target_entry md page) (target_matches page).
Proof. apply flat_map_map_inner. Qed.

Lemma Forall2_map_self {A B : Type} (R : B -> A -> Prop) (f : A -> B) (l : list A) :
  (forall a, R (f a) a) -> Forall2 R (map f l) l.
Proof. intros H. induction l as [|a l IH]; simpl; constructor; auto. Qed.

(** C2.  The target records of a page stand one for one, and in the
    same order, for the matches of the target patterns on the page, and
    every record belongs to its own match: its keyword is the text of
    the match and its text are the first 300 characters of the context,
    the whitespace-collapsed window of 200 characters around the match.
    The years of the record are the years of that context and no
    others, listed from left to right as often as they stand there and
    joined by [", "]; a year is listed if and only if it is [20dd], for
    two digits [dd], and stands in the context between word boundaries.
    (Other four-digit years, such as 1999, are not listed.) *)
Theorem C2_target_years (md : Metadata) (page : Page) :
  Forall2
    (fun r mo =>
       let context := collapse_ws (strip (window 200 (text page) mo)) in
       t_keyword_matched r = group0 (text page) mo
       /\ t_target_text r = firstn 300 context
       /\ t_target_years r = join_comma (years_in context)
       /\ forall y, In y (years_in context) <-> whole_word_year y context)
    (targets_of_page md page) (target_matches page).
Proof.
  rewrite targets_of_page_matches. apply Forall2_map_self. intros mo.
  cbn [target_entry t_keyword_matched t_target_text t_target_years].
  unfold target_context. rewrite findall_years_list.
  repeat split; try reflexivity.
  - rewrite <- findall_years_list. apply findall_years.
  - rewrite <- findall_years_list. apply findall_years.
Qed.

Definition sample_metadata : Metadata :=
  MkMetadata (Some (L "report.pdf")) (Some (L "2023")) (Some (L "Other Report")).

Definition sample_page : Page :=
  MkPage 1 1
    (L "We are committed to achieving net zero by 2040, a 50% reduction from 2020 levels").

(** The page of the counterexample to C2 as stated. *)
Definition page_1999 : Page := MkPage 1 1 (L "Our target for 1999").

(** C2 as stated fails: the window of this target record holds the
    four-digit year 1999, and its [target_years] is empty. *)
Lemma C2_counterexample :
  In (target_entry sample_metadata page_1999 (MkMatch 4 10 []))
     (targets_of_page sample_metadata page_1999)
  /\ occurs_in (L "1999")
       (collapse_ws (strip (window 200 (text page_1999) (MkMatch 4 10 []))))
  /\ t_target_years (target_entry sample_metadata page_1999 (MkMatch 4 10 [])) = [].
Proof.
  split; [vm_compute; tauto|]. split; [|vm_compute; reflexivity].
  exists (L "Our target for "), []. vm_compute. reflexivity.
Qed.

(** ** C4: impact areas *)

(** A literal is matched where the text starts with it. *)
Lemma rmatch_literal (R : Type) (w : str) :
  forall (k : cont R) prev i s cp,
    rmatch false R (lit_chars w) k prev i s cp
    = match strip_prefix w s with
      | Some rest => k (last_char prev w) (i + length w) rest cp
      | None => None
      end.
Proof.
  induction w as [|c w IH]; intros k prev i s cp.
  - simpl. now rewrite Nat.add_0_r.
  - cbn [lit_chars rmatch cset_match strip_prefix].
    destruct s as [|d s]; [reflexivity|].
    destruct (Ascii.eqb c d) eqn:E; [|reflexivity].
    rewrite IH. apply Ascii.eqb_eq in E. subst d. simpl.
    now rewrite <- plus_n_Sm.
Qed.

Lemma match_here_literal (w : str) (prev : option ascii) (i : nat) (s : str) :
  match_here false (lit_chars w) prev i s
  = match strip_prefix w s with
    | Some _ => Some (i + length w, [])
    | None => None
    end.
Proof. unfold match_here. now rewrite rmatch_literal. Qed.

(** The offsets at which a left-to-right search finds [w], each search
    starting where the occurrence before it ended; [skip] characters are
    passed over first, and [i] is the offset of [s] in the text. *)
Fixpoint occurrences_from (w : str) (skip i : nat) (s : str) : list nat :=
  match skip with
  | S n =>
      match s with
      | [] => []
      | _ :: s' => occurrences_from w n (S i) s'
      end
  | O =>
      match strip_prefix w s with
      | Some _ =>
          i :: match s with
               | [] => []
               | _ :: s' => occurrences_from w (length w - 1) (S i) s'
               end
      | None =>
          match s with
          | [] => []
          | _ :: s' => occurrences_from w 0 (S i) s'
          end
      end
  end.

(** The occurrences of [w] in [s] that do not overlap, from the left. *)
Definition occurrences (w s : str) : list nat := occurrences_from w 0 0 s.

(** [s.count(w)]: the number of occurrences of [w] in [s]. *)
Definition count_occurrences (w s : str) : nat := length (occurrences w s).

Lemma scan_literal (w : str) :
  forall s skip prev i,
    scan false (lit_chars w) skip prev i s
    = map (fun p => MkMatch p (p + length w) []) (occurrences_from w skip i s).
Proof.
  induction s as [|c s IH]; intros skip prev i.
  - destruct skip; simpl; [|reflexivity].
    rewrite match_here_literal. destruct (strip_prefix w []); reflexivity.
  - destruct skip as [|n]; simpl.
    + rewrite match_here_literal.
      destruct (strip_prefix w (c :: s)); simpl; rewrite IH; [|reflexivity].
      replace (i + length w - i - 1) with (length w - 1) by lia. reflexivity.
    + apply IH.
Qed.

(** [w] stands at offset [p] of [s]. *)
Definition occurs_at (w s : str) (p : nat) : Prop :=
  exists pre post, s = pre ++ w ++ post /\ length pre = p.

Lemma strip_prefix_some (w s rest : str) :
  strip_prefix w s = Some rest <-> s = w ++ rest.
Proof.
  revert s. induction w as [|c w IH]; intros s; simpl.
  - split; [intros H; now injection H|intros ->; reflexivity].
  - destruct s as [|d s]; [split; discriminate|].
    destruct (Ascii.eqb_spec c d) as [->|Hne].
    + rewrite IH. split; [intros ->; reflexivity|intros H; now injection H].
    + split; [discriminate|intros H; injection H; congruence].
Qed.

Lemma occurs_at_0 (w s : str) :
  occurs_at w s 0 <-> strip_prefix w s <> None.
Proof.
  split.
  - intros [pre [post [-> Hl]]]. destruct pre; [|discriminate]. simpl.
    rewrite (proj2 (strip_prefix_some w (w ++ post) post) eq_refl). discriminate.
  - destruct (strip_prefix w s) as [rest|] eqn:E; [|congruence].
    intros _. apply strip_prefix_some in E. exists [], rest. auto.
Qed.

Lemma occurs_at_S (w : str) (c : ascii) (s : str) (p : nat) :
  occurs_at w (c :: s) (S p) <-> occurs_at w s p.
Proof.
  split.
  - intros [pre [post [H Hl]]]. destruct pre as [|d pre]; [discriminate|].
    injection H as _ ->. injection Hl as <-. exists pre, post. auto.
  - intros [pre [post [-> <-]]]. exists (c :: pre), post. auto.
Qed.

(** The first offset of the search is the first place where [w]
    stands. *)
Lemma occurrences_first (w : str) :
  forall s i p rest,
    occurrences_from w 0 i s = p :: rest ->
    exists q, p = i + q /\ occurs_at w s q
              /\ forall q', q' < q -> ~ occurs_at w s q'.
Proof.
  induction s as [|c s IH]; intros i p rest H; simpl in H.
  - destruct (strip_prefix w []) eqn:E; [|discriminate].
    injection H as <- _. exists 0. rewrite Nat.add_0_r.
    split; [reflexivity|]. split; [apply occurs_at_0; congruence|lia].
  - destruct (strip_prefix w (c :: s)) eqn:E.
    + injection H as <- _. exists 0. rewrite Nat.add_0_r.
      split; [reflexivity|]. split; [apply occurs_at_0; congruence|lia].
    + apply IH in H. destruct H as [q [-> [Hq Hmin]]].
      exists (S q). split; [lia|]. split; [now apply occurs_at_S|].
      intros [|q'] Hlt.
      * rewrite occurs_at_0. congruence.
      * rewrite occurs_at_S. apply Hmin. lia.
Qed.

(** Every offset of the search is a place where [w] stands. *)
Lemma occurrences_occur (w : str) :
  forall s skip i p,
    In p (occurrences_from w skip i s) ->
    exists q, p = i + q /\ occurs_at w s q.
Proof.
  induction s as [|c s IH]; intros skip i p H.
  - destruct skip; simpl in H; [|contradiction].
    destruct (strip_prefix w []) eqn:E; [|contradiction].
    destruct H as [<-|[]]. exists 0. rewrite Nat.add_0_r.
    split; [reflexivity|apply occurs_at_0; congruence].
  - assert (Hrec : forall n, In p (occurrences_from w n (S i) s) ->
                     exists q, p = i + q /\ occurs_at w (c :: s) q).
    { intros n Hn. apply IH in Hn. destruct Hn as [q [-> Hq]].
      exists (S q). split; [lia|now apply occurs_at_S]. }
    destruct skip as [|n]; simpl in H; [|eauto].
    destruct (strip_prefix w (c :: s)) eqn:E; [|eauto].
    destruct H as [<-|H]; [|eauto].
    exists 0. rewrite Nat.add_0_r.
    split; [reflexivity|apply occurs_at_0; congruence].
Qed.

(** The areas with each of their keywords. *)
Definition keyword_pairs : list (string * string) :=
  flat_map (fun entry => map (pair (fst entry)) (snd entry)) impact_keywords.

Lemma flat_map_pairs {A B C : Type} (f : A -> B -> list C) (l : list (A * list B)) :
  flat_map (fun entry => flat_map (f (fst entry)) (snd entry)) l
  = flat_map (fun p => f (fst p) (snd p))
      (flat_map (fun entry => map (pair (fst entry)) (snd entry)) l).
Proof.
  induction l as [|[a bs] l IH]; simpl; [reflexivity|].
  rewrite flat_map_app, IH. f_equal.
  induction bs as [|b bs IHb]; simpl; [reflexivity|]. now rewrite IHb.
Qed.

Lemma impact_of_page_pairs (md : Metadata) (page : Page) :
  impact_of_page md page
  = flat_map (fun p => impact_of_keyword md page (fst p) (snd p)) keyword_pairs.
Proof. apply (flat_map_pairs (impact_of_keyword md page)). Qed.

Definition str_pair_dec (x y : str * str) : {x = y} + {x <> y}.
Proof. decide equality; apply (list_eq_dec ascii_dec). Defined.

Lemma keyword_pairs_nodup :
  NoDup (map (fun p => (L (fst p), L (snd p))) keyword_pairs).
Proof.
  assert (H : nodup str_pair_dec (map (fun p => (L (fst p), L (snd p))) keyword_pairs)
              = map (fun p => (L (fst p), L (snd p))) keyword_pairs)
    by (vm_compute; reflexivity).
  rewrite <- H. apply NoDup_nodup.
Qed.

Lemma nodup_map_finer {A B C : Type} (f : A -> B) (g : A -> C) (l : list A) :
  (forall x y, g x = g y -> f x = f y) ->
  NoDup (map f l) -> NoDup (map g l).
Proof.
  intros Hfg. induction l as [|a l IH]; simpl; intros H; [constructor|].
  inversion H as [|? ? Hn Hl]; subst. constructor; auto.
  intros Hin. apply Hn. apply in_map_iff in Hin. destruct Hin as [x [Hx Hxl]].
  apply in_map_iff. exists x. split; auto.
Qed.

(** At most one result for each element, under distinct keys. *)
Lemma flat_map_nodup {A B K : Type} (g : A -> list B) (key : B -> K) (h : A -> K)
    (l : list A) :
  (forall x, length (g x) <= 1) ->
  (forall x y, In y (g x) -> key y = h x) ->
  NoDup (map h l) ->
  NoDup (map key (flat_map g l)).
Proof.
  intros Hone Hkey. induction l as [|a l IH]; simpl; intros H; [constructor|].
  inversion H as [|? ? Hn Hl]; subst. rewrite map_app. apply NoDup_app.
  - specialize (Hone a). destruct (g a) as [|y [|z ys]]; simpl in *;
      [constructor| |lia]. constructor; [intros []|constructor].
  - now apply IH.
  - intros k Hk1 Hk2. apply Hn.
    apply in_map_iff in Hk1. destruct Hk1 as [y [<- Hy]].
    apply in_map_iff in Hk2. destruct Hk2 as [z [Hz Hzl]].
    apply in_flat_map in Hzl. destruct Hzl as [x [Hx Hzx]].
    rewrite <- (Hkey a y Hy), <- Hz, (Hkey x z Hzx).
    now apply in_map.
Qed.

(** The key of an impact-area record in the grouping. *)
Definition triple (r : ImpactAreaRecord) : nat * (str * str) :=
  (a_page_number r, (a_impact_area r, a_keyword r)).

Lemma impact_of_keyword_length (md : Metadata) (page : Page) (area keyword : string) :
  length (impact_of_keyword md page area keyword) <= 1.
Proof.
  unfold impact_of_keyword. destruct (finditer _ _ _); simpl; lia.
Qed.

Lemma impact_of_keyword_triple (md : Metadata) (page : Page) (area keyword : string)
    (r : ImpactAreaRecord) :
  In r (impact_of_keyword md page area keyword) ->
  triple r = (page_number page, (L area, L keyword)).
Proof.
  intros H. apply impact_of_keyword_inv in H. destruct H as [mo [rest [_ ->]]].
  reflexivity.
Qed.

Lemma impact_of_page_nodup (md : Metadata) (page : Page) :
  NoDup (map triple (impact_of_page md page)).
Proof.
  rewrite impact_of_page_pairs.
  apply (flat_map_nodup _ triple
           (fun p => (page_number page, (L (fst p), L (snd p))))).
  - intros p. apply impact_of_keyword_length.
  - intros p r. apply impact_of_keyword_triple.
  - apply (nodup_map_finer (fun p => (L (fst p), L (snd p)))); [|apply keyword_pairs_nodup].
    intros x y H. now injection H as -> ->.
Qed.

Lemma impact_of_pages_nodup (md : Metadata) (pages : list Page) :
  NoDup (map page_number pages) ->
  NoDup (map triple (flat_map (impact_of_page md) pages)).
Proof.
  induction pages as [|page pages IH]; simpl; intros H; [constructor|].
  inversion H as [|? ? Hn Hl]; subst. rewrite map_app. apply NoDup_app.
  - apply impact_of_page_nodup.
  - now apply IH.
  - intros k Hk1 Hk2. apply Hn.
    apply in_map_iff in Hk1. destruct Hk1 as [r1 [<- Hr1]].
    apply in_map_iff in Hk2. destruct Hk2 as [r2 [Hr2 Hin2]].
    apply in_flat_map in Hin2. destruct Hin2 as [page2 [Hp2 Hin2]].
    apply (provenance_holds md page) in Hr1.
    apply (provenance_holds md page2) in Hin2.
    destruct Hr1 as [Hr1 _]. destruct Hin2 as [Hin2 _].
    unfold triple in Hr2. injection Hr2 as Hnum _ _.
    apply in_map_iff. exists page2. split; [congruence|assumption].
Qed.

(** What an impact-area record says about its keyword on its page. *)
Definition counts_keyword (r : ImpactAreaRecord) (page : Page) : Prop :=
  exists area keywords keyword first,
    In (area, keywords) impact_keywords
    /\ In keyword keywords
    /\ a_page_number r = page_number page
    /\ a_impact_area r = L area
    /\ a_keyword r = L keyword
    /\ a_occurrence_count r
       = count_occurrences (lower (L keyword)) (lower (text page))
    /\ 1 <= a_occurrence_count r
    /\ occurs_at (lower (L keyword)) (lower (text page)) first
    /\ (forall q, q < first -> ~ occurs_at (lower (L keyword)) (lower (text page)) q)
    /\ a_example_context r
       = firstn 200
           (collapse_ws
              (slice (lower (text page)) (first - 100)
                 (Nat.min (length (text page))
                    (first + length (L keyword) + 100)))).

Lemma impact_record_counts (md : Metadata) (page : Page) (r : ImpactAreaRecord) :
  In r (impact_of_page md page) -> counts_keyword r page.
Proof.
  intros H. apply impact_of_page_inv in H.
  destruct H as [area [kws [kw [He [Hk H]]]]].
  apply impact_of_keyword_inv in H. destruct H as [mo [rest [Hf ->]]].
  unfold finditer in Hf. rewrite scan_literal in Hf.
  destruct (occurrences_from (lower (L kw)) 0 0 (lower (text page)))
    as [|p ps] eqn:Hocc; [discriminate|].
  simpl in Hf. injection Hf as <- <-.
  destruct (occurrences_first _ _ _ _ _ Hocc) as [q [Hq [Hat Hmin]]].
  simpl in Hq. subst q.
  exists area, kws, kw, p. unfold impact_entry, count_occurrences, occurrences.
  rewrite Hocc. simpl. unfold window, lower. simpl. rewrite !length_map.
  repeat split; auto; lia.
Qed.

(** C4.  When the impact-area pass runs over pages with pairwise
    distinct page numbers (the pages of one document), it emits at most
    one record for each triple of page number, impact area and keyword.
    Every record it emits comes from one of the pages and carries the
    number of occurrences of its keyword on that page, in lower case and
    counted from the left without overlap, which is at least 1; its
    example context is the collapsed window of 100 characters around the
    first occurrence, cut to 200 characters. *)
Theorem C4_impact_area_records (md : Metadata) (pages : list Page) :
  NoDup (map page_number pages) ->
  NoDup (map triple
           (impact_areas_data (extract_impact_areas pages md new_extractor)))
  /\ forall r,
       In r (impact_areas_data (extract_impact_areas pages md new_extractor)) ->
       exists page, In page pages /\ counts_keyword r page.
Proof.
  intros H. simpl. split.
  - now apply impact_of_pages_nodup.
  - intros r Hr. apply in_flat_map in Hr. destruct Hr as [page [Hp Hr]].
    exists page. split; [exact Hp|]. now apply (impact_record_counts md).
Qed.

Lemma C4_impact_area_records_witness :
  NoDup (map triple
           (impact_areas_data
              (extract_impact_areas
                 [MkPage 1 2 (L "Carbon and carbon footprint");
                  MkPage 2 2 (L "Water use, water stress and carbon")]
                 sample_metadata new_extractor))).
Proof.
  apply (C4_impact_area_records sample_metadata
           [MkPage 1 2 (L "Carbon and carbon footprint");
            MkPage 2 2 (L "Water use, water stress and carbon")]).
  repeat constructor; simpl; intuition discriminate.
Defined.

Definition carbon_file (name year : string) : TextFile :=
  MkTextFile (L name)
    (Some (save_extracted_text (extract_with_pymupdf [L "carbon"])
             (L "report.pdf") (L year) (L "Other Report")
             (L "2024-01-01 00:00:00"))).

(** C4 as stated fails for a run over two documents: both have a page 1
    on which the keyword occurs, and the run emits two records for the
    same triple. *)
Lemma C4_counterexample :
  exists r1 r2,
    impact_areas_data
      (fst (process_files
              [carbon_file "2022_a_extracted.txt" "2022";
               carbon_file "2023_b_extracted.txt" "2023"]
              new_extractor))
    = [r1; r2]
    /\ triple r1 = triple r2.
Proof.
  eexists. eexists. split; [vm_compute; reflexivity|reflexivity].
Qed.

(** ** Whitespace collapsing, character by character *)








(** ** Windows and stripping around a known piece of text *)




(** ** C1: the scenario sentence *)








Lemma contains_app_r (w a b : str) :
  contains w b = true -> contains w (a ++ b) = true.
Proof.
  intros H. induction a as [|c a IH]; [exact H|].
  cbn [app contains]. destruct (strip_prefix w (c :: a ++ b)); [reflexivity|exact IH].
Qed.



(** * The round trip of a written file *)


(** ** Decimal numbers *)

Lemma uint_string_digits (d : Decimal.uint) :
  forallb is_digit (L (NilEmpty.string_of_uint d)) = true.
Proof. induction d; simpl; auto. Qed.

Lemma to_uint_not_nil (n : nat) : Nat.to_uint n <> Decimal.Nil.
Proof.
  destruct n as [|n]; [discriminate|].
  intros H. pose proof (DecimalNat.Unsigned.of_to (S n)) as Hn.
  rewrite H in Hn. discriminate.
Qed.

Lemma str_of_nat_nil_empty (n : nat) :
  str_of_nat n = L (NilEmpty.string_of_uint (Nat.to_uint n)).
Proof.
  unfold str_of_nat, NilZero.string_of_uint.
  pose proof (to_uint_not_nil n). destruct (Nat.to_uint n); [contradiction|..];
    reflexivity.
Qed.

Lemma str_of_nat_digits (n : nat) : forallb is_digit (str_of_nat n) = true.
Proof. rewrite str_of_nat_nil_empty. apply uint_string_digits. Qed.

Lemma str_of_nat_not_nil (n : nat) : str_of_nat n <> [].
Proof.
  rewrite str_of_nat_nil_empty. pose proof (to_uint_not_nil n).
  destruct (Nat.to_uint n); [contradiction|..]; discriminate.
Qed.

Lemma length_string_of_uint (d : Decimal.uint) :
  length (L (NilEmpty.string_of_uint d)) = Decimal.nb_digits d.
Proof. induction d; simpl; auto. Qed.

Lemma nb_digits_succ (d : Decimal.uint) :
  Decimal.nb_digits d <= Decimal.nb_digits (Decimal.Little.succ d).
Proof. induction d; simpl; lia. Qed.

Lemma length_str_of_nat (n : nat) :
  length (str_of_nat n) = Decimal.nb_digits (DecimalNat.Unsigned.to_lu n).
Proof.
  rewrite str_of_nat_nil_empty, length_string_of_uint.
  rewrite DecimalNat.Unsigned.to_uint_alt. apply DecimalFacts.nb_digits_rev.
Qed.

(** A greater number has no fewer digits. *)
Lemma length_str_of_nat_mono (k n : nat) :
  k <= n -> length (str_of_nat k) <= length (str_of_nat n).
Proof.
  rewrite !length_str_of_nat. induction 1 as [|n Hle IH]; [lia|].
  rewrite DecimalNat.Unsigned.to_lu_succ.
  pose proof (nb_digits_succ (DecimalNat.Unsigned.to_lu n)). lia.
Qed.

(** A number with no more digits than [int] converts. *)
Definition within_int_limit (n : nat) : Prop :=
  length (str_of_nat n) <= max_str_digits.

(** [int(str(n)) == n] *)
Lemma int_of_str_of_nat (n : nat) :
  within_int_limit n -> int_of_str (str_of_nat n) = Some n.
Proof.
  intros Hlim. unfold int_of_str. pose proof (str_of_nat_not_nil n) as Hn.
  rewrite str_of_nat_digits. apply Nat.leb_le in Hlim. rewrite Hlim. cbn [andb].
  destruct (str_of_nat n) eqn:E; [contradiction|].
  rewrite <- E, str_of_nat_nil_empty. unfold L.
  rewrite string_of_list_ascii_of_string, NilEmpty.usu. simpl.
  now rewrite DecimalNat.Unsigned.of_to.
Qed.

(** ** The page delimiter and the page pattern *)

(** A string of decimal digits that is not empty. *)
Definition digits (d : str) : Prop := d <> [] /\ forallb is_digit d = true.

Lemma rep_exact (R : Type) (cs : cset) (k : cont R) (s : str) (cp : caps) :
  forall w prev i,
    forallb (cset_match false cs) w = true ->
    rep false R true cs (length w) (Some (length w)) k prev i (w ++ s) cp
    = k (last_char prev w) (i + length w) s cp.
Proof.
  induction w as [|c w IH]; intros prev i Hw.
  - simpl. rewrite Nat.add_0_r. destruct s; reflexivity.
  - simpl in Hw. apply andb_true_iff in Hw. destruct Hw as [Hc Hw].
    simpl. rewrite Hc. simpl. rewrite IH by exact Hw. rewrite <- plus_n_Sm.
    change (S i + length w) with (S (i + length w)).
    destruct (k (last_char (Some c) w) (S (i + length w)) s cp); reflexivity.
Qed.

Definition starts_with_digit (s : str) : bool :=
  match s with c :: _ => is_digit c | [] => false end.

(** A greedy run of digits takes all the digits when what follows
    matches after them. *)
Lemma rep_digits (R : Type) (k : cont R) (s : str) (cp : caps) (x : R) :
  starts_with_digit s = false ->
  forall d lo prev i,
    forallb is_digit d = true -> lo <= length d ->
    k (last_char prev d) (i + length d) s cp = Some x ->
    rep false R true CDigit lo None k prev i (d ++ s) cp = Some x.
Proof.
  intros Hs. induction d as [|c d IH]; intros lo prev i Hd Hlo Hk.
  - simpl in *. assert (lo = 0) by lia. subst lo. rewrite Nat.add_0_r in Hk.
    destruct s as [|c s]; simpl; [exact Hk|]. simpl in Hs. rewrite Hs. exact Hk.
  - simpl in Hd. apply andb_true_iff in Hd. destruct Hd as [Hc Hd].
    simpl. rewrite Hc. simpl in Hk. rewrite <- plus_n_Sm in Hk.
    rewrite (IH (pred lo) (Some c) (S i) Hd ltac:(simpl in Hlo; lia) Hk).
    reflexivity.
Qed.

Ltac len_norm :=
  repeat (progress (rewrite ?length_app; cbn [length L list_ascii_of_string]));
  change (length (line80 "="%char)) with 80.

Definition delimiter_caps (i : nat) (d1 d2 : str) : caps :=
  [ (2, (i + 87 + length d1 + 4, i + 87 + length d1 + 4 + length d2));
    (1, (i + 87, i + 87 + length d1)) ].

Lemma line80_matches : forallb (cset_match false (chr "=")) (line80 "="%char) = true.
Proof. reflexivity. Qed.

(** The page pattern matches a page delimiter that stands at the
    offset. *)
Lemma page_pattern_complete (d1 d2 rest : str) (prev : option ascii) (i : nat) :
  digits d1 -> digits d2 ->
  match_here false page_pattern prev i (page_delimiter d1 d2 ++ rest)
  = Some (i + length (page_delimiter d1 d2), delimiter_caps i d1 d2).
Proof.
  intros [Hn1 Hd1] [Hn2 Hd2]. unfold match_here, page_pattern, page_delimiter, times.
  cbn [rmatch]. rewrite <- !app_assoc.
  change 80 with (length (line80 "="%char)) at 1 2.
  rewrite rep_exact by exact line80_matches.
  cbn [app rmatch cset_match]. change (Ascii.eqb newline newline) with true. cbv iota.
  unfold lit. rewrite rmatch_literal. cbn [L list_ascii_of_string app strip_prefix].
  change (Ascii.eqb "[" "[") with true. change (Ascii.eqb "P" "P") with true.
  change (Ascii.eqb "A" "A") with true. change (Ascii.eqb "G" "G") with true.
  change (Ascii.eqb "E" "E") with true. change (Ascii.eqb " " " ") with true.
  cbv iota. cbn [rmatch plus].
  rewrite <- ?app_assoc. cbn [app].
  apply rep_digits; [reflexivity|exact Hd1|destruct d1; [contradiction|simpl; lia]|].
  rewrite rmatch_literal. cbn [L list_ascii_of_string app strip_prefix].
  change (Ascii.eqb " " " ") with true. change (Ascii.eqb "O" "O") with true.
  change (Ascii.eqb "F" "F") with true. cbv iota. cbn [rmatch].
  rewrite <- ?app_assoc. cbn [app].
  apply rep_digits; [reflexivity|exact Hd2|destruct d2; [contradiction|simpl; lia]|].
  rewrite rmatch_literal. cbn [L list_ascii_of_string app strip_prefix].
  change (Ascii.eqb "]" "]") with true. cbv iota.
  cbn [rmatch cset_match]. change (Ascii.eqb newline newline) with true. cbv iota.
  change 80 with (length (line80 "="%char)) at 1 2.
  rewrite rep_exact by exact line80_matches.
  unfold delimiter_caps. f_equal. f_equal.
  - repeat (progress (rewrite ?length_app; cbn [length L list_ascii_of_string])).
    change (length (line80 "="%char)) with 80. lia.
  - repeat (progress (rewrite ?length_app; cbn [length L list_ascii_of_string])).
    change (length (line80 "="%char)) with 80.
    repeat match goal with
           | |- (_, _) = (_, _) => f_equal
           | |- _ :: _ = _ :: _ => f_equal
           end; lia.
Qed.


Lemma sem_literal (s : str) :
  forall prev w rest, sem false (lit_chars s) prev w rest -> w = s.
Proof.
  induction s as [|c s IH]; intros prev w rest H; cbn [lit_chars sem] in H.
  - exact H.
  - destruct H as [w1 [w2 [-> [[c' [-> Hc]] H2]]]]. cbn [cset_match] in Hc.
    apply Ascii.eqb_eq in Hc. subst c'. apply IH in H2. now subst.
Qed.

Lemma forall_eq_repeat (c : ascii) (w : str) :
  Forall (fun x => cset_match false (CChar c) x = true) w ->
  w = repeat c (length w).
Proof.
  induction 1 as [|x w Hx _ IH]; simpl; [reflexivity|].
  cbn [cset_match] in Hx. apply Ascii.eqb_eq in Hx. subst x. now rewrite <- IH.
Qed.

Lemma forall_digits (w : str) :
  Forall (fun x => cset_match false CDigit x = true) w -> 1 <= length w -> digits w.
Proof.
  intros H Hl. split.
  - destruct w; [simpl in Hl; lia|discriminate].
  - apply forallb_forall. rewrite Forall_forall in H. exact H.
Qed.

(** What the page pattern matches is a page delimiter. *)
Lemma page_pattern_shape (prev : option ascii) (w rest : str) :
  sem false page_pattern prev w rest ->
  exists d1 d2, digits d1 /\ digits d2 /\ w = page_delimiter d1 d2.
Proof.
  unfold page_pattern, times, plus, lit. cbn [sem].
  intros [e1 [r1 [-> [[He1 [Hlo1 Hhi1]] H]]]].
  destruct H as [n1 [r2 [-> [[c1 [-> Hc1]] H]]]].
  destruct H as [l1 [r3 [-> [Hl1 H]]]].
  destruct H as [d1 [r4 [-> [[Hd1 [Hn1 _]] H]]]].
  destruct H as [l2 [r5 [-> [Hl2 H]]]].
  destruct H as [d2 [r6 [-> [[Hd2 [Hn2 _]] H]]]].
  destruct H as [l3 [r7 [-> [Hl3 H]]]].
  destruct H as [n2 [e2 [-> [[c2 [-> Hc2]] [He2 [Hlo2 Hhi2]]]]]].
  apply sem_literal in Hl1, Hl2, Hl3. subst l1 l2 l3.
  cbn [cset_match] in Hc1, Hc2. apply Ascii.eqb_eq in Hc1, Hc2. subst c1 c2.
  apply forall_eq_repeat in He1, He2.
  assert (length e1 = 80) by lia. assert (length e2 = 80) by lia.
  exists d1, d2. split; [now apply forall_digits|]. split; [now apply forall_digits|].
  unfold page_delimiter, line80. rewrite He1, He2, H, H0.
  rewrite <- ?app_assoc. reflexivity.
Qed.

(** The text starts with a page delimiter. *)
Definition delimiter_prefix (s : str) : Prop :=
  exists d1 d2 rest, digits d1 /\ digits d2 /\ s = page_delimiter d1 d2 ++ rest.

Lemma match_delimiter_prefix (prev : option ascii) (i : nat) (s : str) (e : nat)
    (cp : caps) :
  match_here false page_pattern prev i s = Some (e, cp) -> delimiter_prefix s.
Proof.
  intros H. apply match_here_sound in H. destruct H as [w [rest [-> [Hs _]]]].
  apply page_pattern_shape in Hs. destruct Hs as [d1 [d2 [H1 [H2 ->]]]].
  exists d1, d2, rest. auto.
Qed.

Lemma delimiter_prefix_match (prev : option ascii) (i : nat) (s : str) :
  delimiter_prefix s -> match_here false page_pattern prev i s <> None.
Proof.
  intros [d1 [d2 [rest [H1 [H2 ->]]]]].
  rewrite page_pattern_complete by assumption. discriminate.
Qed.

(** No page delimiter stands anywhere in [t]. *)
Definition free (t : str) : Prop :=
  forall a b, t = a ++ b -> ~ delimiter_prefix b.

Lemma finditer_nil_free (t : str) :
  finditer false page_pattern t = [] -> free t.
Proof.
  intros H a b Hab Hd. unfold finditer in H.
  apply (delimiter_prefix_match (last_char None a) (0 + length a) b Hd).
  apply (scan_nil false page_pattern t None 0 H a b Hab).
Qed.

Lemma free_app_l (x y : str) : free (x ++ y) -> free x.
Proof.
  intros H a b -> [d1 [d2 [rest [H1 [H2 ->]]]]].
  apply (H a ((page_delimiter d1 d2 ++ rest) ++ y)).
  - now rewrite <- app_assoc.
  - exists d1, d2, (rest ++ y). rewrite <- app_assoc. auto.
Qed.

Lemma delimiter_prefix_head (c : ascii) (s : str) :
  delimiter_prefix (c :: s) -> c = "="%char.
Proof.
  intros [d1 [d2 [rest [_ [_ H]]]]]. unfold page_delimiter, line80 in H.
  simpl in H. now injection H.
Qed.

Lemma free_cons_newline (t : str) : free t -> free (newline :: t).
Proof.
  intros H a b Hab Hd. destruct a as [|c a]; simpl in Hab.
  - subst b. apply delimiter_prefix_head in Hd. discriminate.
  - injection Hab as _ ->. now apply (H a b).
Qed.

(** *** Newlines in a page delimiter *)

Lemma first_newline (x y : str) :
  ~ In newline x ->
  forall u v,
    u ++ newline :: v = x ++ newline :: y ->
    (u = x /\ v = y) \/ (exists u', u = x ++ newline :: u' /\ u' ++ newline :: v = y).
Proof.
  induction x as [|c x IH]; intros Hx u v H.
  - destruct u as [|d u]; simpl in H.
    + injection H as ->. auto.
    + injection H as -> H. right. exists u. auto.
  - destruct u as [|d u]; simpl in H.
    + injection H as <- _. exfalso. apply Hx. now left.
    + injection H as -> H. apply IH in H.
      * destruct H as [[-> ->]|[u' [-> H]]]; [auto|]. right. exists u'. auto.
      * intros Hin. apply Hx. now right.
Qed.

Lemma no_newline_split (z u v : str) :
  ~ In newline z -> u ++ newline :: v <> z.
Proof. intros Hz <-. apply Hz, in_elt. Qed.

Lemma digits_no_newline (d : str) : digits d -> ~ In newline d.
Proof.
  intros [_ H] Hin. rewrite forallb_forall in H. specialize (H newline Hin).
  discriminate.
Qed.

Lemma line80_no_newline : ~ In newline (line80 "="%char).
Proof. intros H. apply repeat_spec in H. discriminate. Qed.

(** In a page delimiter a newline is followed by ['['] or ['=']. *)
Lemma delimiter_after_newline (d1 d2 u v : str) :
  digits d1 -> digits d2 ->
  page_delimiter d1 d2 = u ++ newline :: v ->
  exists c v', v = c :: v' /\ (c = "["%char \/ c = "="%char).
Proof.
  intros H1 H2 H. unfold page_delimiter in H. symmetry in H.
  apply first_newline in H; [|exact line80_no_newline].
  destruct H as [[_ ->]|[u' [_ H]]].
  - exists "["%char,
      (L "PAGE " ++ d1 ++ L " OF " ++ d2 ++ L "]" ++ newline :: line80 "="%char).
    split; [reflexivity|now left].
  - replace (L "[PAGE " ++ d1 ++ L " OF " ++ d2 ++ L "]" ++ newline :: line80 "="%char)
      with ((L "[PAGE " ++ d1 ++ L " OF " ++ d2 ++ L "]") ++ newline :: line80 "="%char)
      in H by (now rewrite <- !app_assoc).
    apply first_newline in H.
    + destruct H as [[_ ->]|[u'' [_ H]]].
      * exists "="%char, (repeat "="%char 79). split; [reflexivity|now right].
      * exfalso. revert H. apply no_newline_split, line80_no_newline.
    + intros Hin. repeat (apply in_app_or in Hin; destruct Hin as [Hin|Hin]).
      * simpl in Hin. intuition discriminate.
      * now apply (digits_no_newline d1).
      * simpl in Hin. intuition discriminate.
      * now apply (digits_no_newline d2).
      * simpl in Hin. intuition discriminate.
Qed.

Lemma app_split_inside {A : Type} (u : list A) (c : A) (v w rest : list A) :
  u ++ c :: v = w ++ rest -> length u < length w ->
  exists v0, w = u ++ c :: v0 /\ v = v0 ++ rest.
Proof.
  revert w. induction u as [|x u IH]; intros w H Hl.
  - destruct w as [|y w]; [simpl in Hl; lia|]. injection H as <- ->.
    exists w. split; reflexivity.
  - destruct w as [|y w]; [simpl in Hl; lia|]. injection H as <- H.
    apply IH in H; [|simpl in Hl; lia]. destruct H as [v0 [-> ->]].
    exists v0. split; reflexivity.
Qed.

Lemma app_prefix_inside {A : Type} (u x w rest : list A) :
  u ++ x = w ++ rest -> length w <= length u ->
  exists u', u = w ++ u'.
Proof.
  revert w. induction u as [|c u IH]; intros w H Hl.
  - destruct w; [exists []; reflexivity|simpl in Hl; lia].
  - destruct w as [|y w]; [exists (c :: u); reflexivity|]. injection H as <- H.
    apply IH in H; [|simpl in Hl; lia]. destruct H as [u' ->].
    exists u'. reflexivity.
Qed.

Lemma app_last_split {A : Type} (t : list A) (c : A) (a b : list A) :
  t ++ [c] = a ++ b -> b <> [] -> exists u, b = u ++ [c] /\ t = a ++ u.
Proof.
  revert t. induction a as [|x a IH]; intros t H Hb.
  - exists t. split; [now rewrite H|reflexivity].
  - destruct t as [|y t]; simpl in H.
    + injection H as _ H. destruct a; [|discriminate]. simpl in H. congruence.
    + injection H as -> H. apply IH in H; auto. destruct H as [u [-> ->]].
      exists u. split; reflexivity.
Qed.

(** *** Text between the page delimiters *)

(** No match of the page pattern starts in [g] when [rest] follows. *)
Definition quiet (g rest : str) : Prop :=
  forall a b prev i,
    g = a ++ b -> b <> [] ->
    match_here false page_pattern prev i (b ++ rest) = None.

Lemma quiet_line (t rest : str) :
  free t ->
  rest = [] \/ (exists r, rest = newline :: r) ->
  quiet (t ++ [newline]) rest.
Proof.
  intros Hfree Hrest a b prev i Hab Hb.
  apply app_last_split in Hab; auto. destruct Hab as [u [-> ->]].
  rewrite <- app_assoc. simpl.
  destruct (match_here false page_pattern prev i (u ++ newline :: rest))
    as [[e cp]|] eqn:E; [|reflexivity].
  exfalso. apply match_delimiter_prefix in E.
  destruct E as [d1 [d2 [rest' [H1 [H2 E]]]]].
  destruct (Nat.le_gt_cases (length (page_delimiter d1 d2)) (length u)) as [Hle|Hgt].
  - apply app_prefix_inside in E; auto. destruct E as [u' ->].
    apply (Hfree a (page_delimiter d1 d2 ++ u') eq_refl).
    exists d1, d2, u'. auto.
  - apply app_split_inside in E; auto. destruct E as [v0 [Hd ->]].
    apply delimiter_after_newline in Hd; auto.
    destruct Hd as [c [v' [-> Hc]]].
    destruct Hrest as [Hr|[r Hr]].
    + destruct v'; discriminate.
    + simpl in Hr. injection Hr as Hnl _. subst c. destruct Hc; discriminate.
Qed.

Lemma quiet_snoc (g : str) (c : ascii) (rest : str) :
  quiet g (c :: rest) ->
  (forall prev i, match_here false page_pattern prev i (c :: rest) = None) ->
  quiet (g ++ [c]) rest.
Proof.
  intros Hq Hc a b prev i Hab Hb.
  apply app_last_split in Hab; auto. destruct Hab as [u [-> ->]].
  rewrite <- app_assoc. simpl. destruct u as [|x u].
  - apply Hc.
  - apply (Hq a (x :: u) prev i eq_refl). discriminate.
Qed.

Lemma no_match_at_newline (prev : option ascii) (i : nat) (rest : str) :
  match_here false page_pattern prev i (newline :: rest) = None.
Proof. reflexivity. Qed.

Lemma no_match_at_end (prev : option ascii) (i : nat) :
  match_here false page_pattern prev i [] = None.
Proof. reflexivity. Qed.


(** *** The scan between and over matches *)

Lemma scan_skip (icase : bool) (r : regex) (rest : str) :
  forall a prev i,
    scan icase r (length a) prev i (a ++ rest)
    = scan icase r 0 (last_char prev a) (i + length a) rest.
Proof.
  induction a as [|c a IH]; intros prev i; simpl.
  - now rewrite Nat.add_0_r.
  - rewrite IH. now rewrite <- plus_n_Sm.
Qed.

Lemma scan_gap (icase : bool) (r : regex) (rest : str) :
  forall g prev i,
    (forall a b, g = a ++ b -> b <> [] ->
       match_here icase r (last_char prev a) (i + length a) (b ++ rest) = None) ->
    scan icase r 0 prev i (g ++ rest)
    = scan icase r 0 (last_char prev g) (i + length g) rest.
Proof.
  induction g as [|c g IH]; intros prev i H; simpl.
  - now rewrite Nat.add_0_r.
  - pose proof (H [] (c :: g) eq_refl ltac:(discriminate)) as H0. simpl in H0.
    rewrite Nat.add_0_r in H0. rewrite H0. rewrite IH.
    + now rewrite <- plus_n_Sm.
    + intros a b -> Hb. specialize (H (c :: a) b eq_refl Hb). simpl in H.
      now rewrite <- plus_n_Sm in H.
Qed.

Lemma scan_match (icase : bool) (r : regex) (w rest : str) (prev : option ascii)
    (i : nat) (cp : caps) :
  w <> [] ->
  match_here icase r prev i (w ++ rest) = Some (i + length w, cp) ->
  scan icase r 0 prev i (w ++ rest)
  = MkMatch i (i + length w) cp
    :: scan icase r 0 (last_char prev w) (i + length w) rest.
Proof.
  intros Hw H. destruct w as [|c w]; [contradiction|]. simpl app in *.
  cbn [scan]. rewrite H. f_equal. simpl length.
  replace (i + S (length w) - i - 1) with (length w) by lia.
  rewrite scan_skip. simpl. now rewrite <- plus_n_Sm.
Qed.

(** *** A text made of page delimiters and the text between them *)

(** The two numbers of a page delimiter and the text after it. *)
Definition segment : Type := str * str * str.

Fixpoint body (segs : list segment) : str :=
  match segs with
  | [] => []
  | (d1, d2, g) :: segs' => page_delimiter d1 d2 ++ g ++ body segs'
  end.

Fixpoint pieces_of (segs : list segment) : list str :=
  match segs with
  | [] => []
  | (d1, d2, g) :: segs' => d1 :: d2 :: g :: pieces_of segs'
  end.

Fixpoint well_formed (segs : list segment) : Prop :=
  match segs with
  | [] => True
  | (d1, d2, g) :: segs' =>
      digits d1 /\ digits d2 /\ quiet g (body segs') /\ well_formed segs'
  end.

Lemma slice_to_end (pre g : str) :
  slice (pre ++ g) (length pre) (length (pre ++ g)) = g.
Proof.
  rewrite <- (app_nil_r g) at 1. rewrite length_app.
  apply (slice_app_middle pre g []).
Qed.

Lemma length_page_delimiter (d1 d2 : str) :
  length (page_delimiter d1 d2) = 87 + length d1 + 4 + length d2 + 82.
Proof. unfold page_delimiter. len_norm. lia. Qed.

Ltac app_norm := repeat (rewrite <- app_assoc || rewrite <- app_comm_cons).

Lemma split_segments (segs : list segment) :
  forall done g prev,
    quiet g (body segs) -> well_formed segs ->
    split_pieces 2 (done ++ g ++ body segs) (length done)
      (scan false page_pattern 0 prev (length done) (g ++ body segs))
    = g :: pieces_of segs.
Proof.
  induction segs as [|[[d1 d2] g'] segs IH]; intros done g prev Hq Hw.
  - cbn [body]. rewrite scan_gap by (intros a b Hab Hb; exact (Hq a b _ _ Hab Hb)).
    cbn [scan]. rewrite no_match_at_end. cbn [split_pieces]. rewrite app_nil_r.
    now rewrite slice_to_end.
  - destruct Hw as [H1 [H2 [Hq' Hw]]]. cbn [body] in *.
    rewrite scan_gap by (intros a b Hab Hb; exact (Hq a b _ _ Hab Hb)).
    rewrite scan_match
      with (cp := delimiter_caps (length done + length g) d1 d2).
    + cbn [split_pieces m_start m_end map seq app pieces_of]. f_equal; [|f_equal; [|f_equal]].
      * apply (slice_app_middle done g).
      * unfold group, delimiter_caps. cbn [m_caps cap_lookup Nat.eqb].
        replace (done ++ g ++ page_delimiter d1 d2 ++ g' ++ body segs)
          with ((done ++ g ++ line80 "="%char ++ newline :: L "[PAGE ")
                ++ d1
                ++ (L " OF " ++ d2 ++ L "]" ++ newline :: line80 "="%char)
                   ++ g' ++ body segs)
          by (unfold page_delimiter; app_norm; reflexivity).
        replace (length done + length g + 87)
          with (length (done ++ g ++ line80 "="%char ++ newline :: L "[PAGE "))
          by (len_norm; lia).
        apply slice_app_middle.
      * unfold group, delimiter_caps. cbn [m_caps cap_lookup Nat.eqb].
        replace (done ++ g ++ page_delimiter d1 d2 ++ g' ++ body segs)
          with ((done ++ g ++ line80 "="%char ++ newline :: L "[PAGE " ++ d1
                 ++ L " OF ")
                ++ d2
                ++ (L "]" ++ newline :: line80 "="%char) ++ g' ++ body segs)
          by (unfold page_delimiter; app_norm; reflexivity).
        replace (length done + length g + 87 + length d1 + 4)
          with (length (done ++ g ++ line80 "="%char ++ newline :: L "[PAGE " ++ d1
                        ++ L " OF "))
          by (len_norm; lia).
        apply slice_app_middle.
      * specialize (IH (done ++ g ++ page_delimiter d1 d2) g'
                      (last_char (last_char prev g) (page_delimiter d1 d2)) Hq' Hw).
        rewrite !length_app in IH. rewrite Nat.add_assoc in IH.
        rewrite <- !app_assoc in IH. exact IH.
    + intros H. apply (f_equal (@length ascii)) in H.
      rewrite length_page_delimiter in H. discriminate.
    + now apply page_pattern_complete.
Qed.

Lemma re_split_segments (g0 : str) (segs : list segment) :
  quiet g0 (body segs) -> well_formed segs ->
  re_split page_pattern 2 (g0 ++ body segs) = g0 :: pieces_of segs.
Proof.
  intros Hq Hw. unfold re_split, finditer.
  apply (split_segments segs [] g0 None Hq Hw).
Qed.

(** *** The loop over the pieces *)

Fixpoint steps (start m : nat) : list nat :=
  match m with
  | O => []
  | S m' => start :: steps (start + 3) m'
  end.

Lemma range3_aux_steps (m : nat) :
  forall fuel start stop,
    stop = start + 3 * m -> m <= fuel -> range3_aux fuel start stop = steps start m.
Proof.
  induction m as [|m IH]; intros fuel start stop Hs Hf.
  - destruct fuel; cbn [range3_aux steps]; [reflexivity|].
    destruct (Nat.ltb_spec start stop); [lia|reflexivity].
  - destruct fuel as [|fuel]; [lia|]. cbn [range3_aux steps].
    destruct (Nat.ltb_spec start stop); [|lia].
    f_equal. apply IH; lia.
Qed.

Definition item : Type := nat * nat * str.

Definition segs_of (items : list item) : list segment :=
  map (fun it => (str_of_nat (fst (fst it)), str_of_nat (snd (fst it)), snd it)) items.

Definition pages_of (items : list item) : list Page :=
  map (fun it => MkPage (fst (fst it)) (snd (fst it)) (snd it)) items.

Lemma length_pieces_of (segs : list segment) :
  length (pieces_of segs) = 3 * length segs.
Proof. induction segs as [|[[d1 d2] g] segs IH]; simpl; [reflexivity|]. lia. Qed.

(** The numbers of the items are within the limit of [int]. *)
Definition items_within_limit (items : list item) : Prop :=
  Forall (fun it => within_int_limit (fst (fst it))
                    /\ within_int_limit (snd (fst it))) items.

Lemma structure_pages_items (items : list item) :
  items_within_limit items ->
  forall front,
    structure_pages (front ++ pieces_of (segs_of items))
      (steps (length front) (length items))
    = Ok (pages_of items).
Proof.
  induction items as [|[[k n] g] items IH]; intros Hlim front; [reflexivity|].
  inversion Hlim as [|? ? [Hk Hn] Hlim']; subst. cbn [fst snd] in Hk, Hn.
  specialize (IH Hlim').
  cbn [length steps segs_of map pieces_of fst snd structure_pages].
  fold (segs_of items).
  assert (Hlen : (length front + 2 <=? length
            (front ++ str_of_nat k :: str_of_nat n :: g :: pieces_of (segs_of items)))
          = true).
  { apply Nat.leb_le. rewrite length_app. simpl. lia. }
  rewrite Hlen.
  rewrite nth_error_app2 by lia. rewrite Nat.sub_diag. cbn [nth_error of_option rbind].
  rewrite (int_of_str_of_nat k Hk). cbn [of_option rbind].
  rewrite nth_error_app2 by lia.
  replace (length front + 1 - length front) with 1 by lia.
  cbn [nth_error of_option rbind].
  rewrite (int_of_str_of_nat n Hn). cbn [of_option rbind].
  rewrite nth_error_app2 by lia.
  replace (length front + 2 - length front) with 2 by lia.
  cbn [nth_error of_option rbind].
  specialize (IH (front ++ [str_of_nat k; str_of_nat n; g])).
  rewrite <- app_assoc in IH. simpl app in IH.
  rewrite length_app in IH. simpl length in IH. rewrite IH. reflexivity.
Qed.


(** *** The file that stage 1 writes *)

(** The pages that [parse_text_file] reads back: the text of every page
    between the newline that ends the marker line and the newline
    written after the text, with the newline that starts the next
    marker where there is one. *)
Fixpoint parsed_pages (k n : nat) (texts : list str) : list Page :=
  match texts with
  | [] => []
  | t :: ts =>
      MkPage k n
        (newline :: t ++ newline :: match ts with [] => [] | _ => [newline] end)
      :: parsed_pages (S k) n ts
  end.

Fixpoint items_from (k n : nat) (texts : list str) : list item :=
  match texts with
  | [] => []
  | t :: ts =>
      (k, n, newline :: t ++ newline :: match ts with [] => [] | _ => [newline] end)
      :: items_from (S k) n ts
  end.

Lemma pages_of_items (n : nat) (texts : list str) :
  forall k, pages_of (items_from k n texts) = parsed_pages k n texts.
Proof.
  induction texts as [|t ts IH]; intros k; simpl; [reflexivity|].
  f_equal. apply IH.
Qed.

Lemma length_items_from (n : nat) (texts : list str) :
  forall k, length (items_from k n texts) = length texts.
Proof. induction texts as [|t ts IH]; intros k; simpl; auto. Qed.

Lemma page_marker_delimiter (k n : nat) :
  page_marker k n
  = newline :: page_delimiter (str_of_nat k) (str_of_nat n) ++ [newline].
Proof. unfold page_marker, page_delimiter. app_norm. reflexivity. Qed.

Lemma body_of_markers (n : nat) (texts : list str) :
  forall k,
    flat_map (fun page_data => pt_marker page_data ++ pt_text page_data ++ [newline])
      (map (fun p => MkPageText (fst p) (snd p) (page_marker (fst p) n))
         (combine (seq k (length texts)) texts))
    = match texts with
      | [] => []
      | _ => newline :: body (segs_of (items_from k n texts))
      end.
Proof.
  induction texts as [|t ts IH]; intros k; [reflexivity|].
  cbn [length seq combine map flat_map fst snd pt_marker pt_text items_from
       segs_of body].
  fold (segs_of (items_from (S k) n ts)).
  rewrite IH, page_marker_delimiter. destruct ts as [|t' ts].
  - cbn [items_from segs_of map body]. app_norm. reflexivity.
  - app_norm. reflexivity.
Qed.

Lemma str_of_nat_is_digits (n : nat) : digits (str_of_nat n).
Proof. split; [apply str_of_nat_not_nil|apply str_of_nat_digits]. Qed.

Lemma items_well_formed (n : nat) (texts : list str) :
  (forall t, In t texts -> free t) ->
  forall k, well_formed (segs_of (items_from k n texts)).
Proof.
  induction texts as [|t ts IH]; intros Hfree k; [exact I|].
  cbn [items_from segs_of map well_formed fst snd].
  fold (segs_of (items_from (S k) n ts)).
  split; [apply str_of_nat_is_digits|]. split; [apply str_of_nat_is_digits|].
  split; [|apply IH; intros t' Ht'; apply Hfree; now right].
  assert (Ht : free (newline :: t))
    by (apply free_cons_newline, Hfree; now left).
  destruct ts as [|t' ts].
  - change (newline :: t ++ [newline]) with ((newline :: t) ++ [newline]).
    apply quiet_line; auto.
  - replace (newline :: t ++ [newline; newline])
      with (((newline :: t) ++ [newline]) ++ [newline])
      by (app_norm; reflexivity).
    apply quiet_snoc; [|intros; apply no_match_at_newline].
    apply quiet_line; eauto.
Qed.

Lemma items_from_within_limit (n : nat) (texts : list str) :
  within_int_limit n ->
  forall k, k + length texts <= S n -> items_within_limit (items_from k n texts).
Proof.
  intros Hn. induction texts as [|t ts IH]; intros k Hk; [constructor|].
  cbn [items_from]. constructor.
  - cbn [fst snd]. split; [|exact Hn]. unfold within_int_limit in *.
    simpl in Hk. pose proof (length_str_of_nat_mono k n ltac:(lia)). lia.
  - apply IH. simpl in Hk. lia.
Qed.

(** *** Reading the written file in text mode *)

(** A text without a carriage return. *)
Definition no_carriage_return (s : str) : bool :=
  negb (existsb (Ascii.eqb carriage_return) s).

(** Such a text is read as it was written. *)
Lemma read_text_plain (s : str) : no_carriage_return s = true -> read_text s = s.
Proof.
  unfold no_carriage_return. rewrite negb_true_iff.
  induction s as [|c s IH]; intros H; [reflexivity|].
  cbn [existsb] in H. apply orb_false_iff in H. destruct H as [Hc Hs].
  cbn [read_text]. rewrite Ascii.eqb_sym, Hc. f_equal. now apply IH.
Qed.

Lemma no_carriage_return_app (a b : str) :
  no_carriage_return (a ++ b) = (no_carriage_return a && no_carriage_return b)%bool.
Proof.
  unfold no_carriage_return. rewrite existsb_app. apply negb_orb.
Qed.

Lemma digits_no_carriage_return (d : str) :
  forallb is_digit d = true -> no_carriage_return d = true.
Proof.
  unfold no_carriage_return. rewrite negb_true_iff.
  induction d as [|c d IH]; intros H; [reflexivity|].
  cbn [forallb] in H. apply andb_true_iff in H. destruct H as [Hc Hd].
  cbn [existsb]. rewrite (IH Hd), orb_false_r.
  destruct (Ascii.eqb_spec carriage_return c) as [<-|]; [discriminate|reflexivity].
Qed.

Lemma page_marker_no_carriage_return (k n : nat) :
  no_carriage_return (page_marker k n) = true.
Proof.
  unfold page_marker.
  change (newline :: line80 "="%char
          ++ newline :: L "[PAGE " ++ str_of_nat k ++ L " OF " ++ str_of_nat n
          ++ L "]" ++ newline :: line80 "="%char ++ [newline])
    with ((newline :: line80 "="%char ++ newline :: L "[PAGE ")
          ++ str_of_nat k ++ L " OF " ++ str_of_nat n
          ++ (L "]" ++ newline :: line80 "="%char ++ [newline])).
  rewrite !no_carriage_return_app.
  rewrite !(digits_no_carriage_return _ (str_of_nat_digits _)). reflexivity.
Qed.

Lemma file_body_no_carriage_return (n : nat) (texts : list str) :
  forallb no_carriage_return texts = true ->
  forall k,
    no_carriage_return
      (file_body
         (map (fun p => MkPageText (fst p) (snd p) (page_marker (fst p) n))
            (combine (seq k (length texts)) texts))) = true.
Proof.
  unfold file_body. induction texts as [|t ts IH]; intros H k; [reflexivity|].
  cbn [forallb] in H. apply andb_true_iff in H. destruct H as [Ht Hts].
  cbn [length seq combine map flat_map fst snd pt_marker pt_text].
  rewrite !no_carriage_return_app, page_marker_no_carriage_return, Ht.
  rewrite (IH Hts (S k)). reflexivity.
Qed.

Lemma written_no_carriage_return (texts : list str)
    (pdf_name year doc_type now : str) :
  forallb no_carriage_return texts = true ->
  no_carriage_return (file_header pdf_name year doc_type (length texts) now) = true ->
  no_carriage_return
    (save_extracted_text (extract_with_pymupdf texts) pdf_name year doc_type now)
  = true.
Proof.
  intros Ht Hh. unfold save_extracted_text, extract_with_pymupdf.
  rewrite length_map, length_combine, length_seq, Nat.min_id.
  rewrite no_carriage_return_app, Hh.
  now rewrite (file_body_no_carriage_return (length texts) texts Ht 1).
Qed.

Lemma header_quiet (pdf_name year doc_type : str) (n : nat) (now rest : str) :
  free (file_header pdf_name year doc_type n now) ->
  quiet (file_header pdf_name year doc_type n now ++ [newline]) rest.
Proof.
  intros Hfree.
  set (h0 := line80 "#"%char ++ newline
             :: L "RALPH LAUREN ESG ANALYSIS - EXTRACTED TEXT" ++ newline
             :: line80 "#"%char ++ newline
             :: L "Source File: " ++ pdf_name ++ newline
             :: L "Year: " ++ year ++ newline
             :: L "Document Type: " ++ doc_type ++ newline
             :: L "Total Pages: " ++ str_of_nat n ++ newline
             :: L "Extraction Date: " ++ now ++ newline
             :: line80 "#"%char).
  assert (Hh : file_header pdf_name year doc_type n now
               = (h0 ++ [newline]) ++ [newline]).
  { unfold file_header, h0. app_norm. reflexivity. }
  rewrite Hh in *.
  apply quiet_snoc; [|intros; apply no_match_at_newline].
  apply quiet_snoc; [|intros; apply no_match_at_newline].
  apply quiet_line; eauto. now apply free_app_l, free_app_l in Hfree.
Qed.

Lemma forallb_no_finds_free (texts : list str) :
  forallb (no_finds false page_pattern) texts = true ->
  forall t, In t texts -> free t.
Proof.
  intros H t Ht. rewrite forallb_forall in H.
  apply finditer_nil_free, no_finds_nil, H, Ht.
Qed.

(** C10.  Let stage 1 write the pages of a document that is not empty,
    where no page text and not the header block (which holds the name of
    the source file) contains a match of the page-delimiter pattern or a
    carriage return, and let the number of pages have no more digits
    than [int] converts.  Stage 2 reads the written file in text mode as
    it was written, and parsing it gives one page for every page text,
    in order, numbered from 1 with the number of pages as total; the
    text of a page is the page text after the newline of the marker
    line, followed by the newline written after it and, before a next
    marker, by the newline that starts that marker.  The header block is
    the first piece of the split and is part of no page. *)
Theorem C10_write_then_parse (texts : list str)
    (pdf_name year doc_type now name : str) :
  texts <> [] ->
  forallb (no_finds false page_pattern) texts = true ->
  no_finds false page_pattern
    (file_header pdf_name year doc_type (length texts) now) = true ->
  forallb no_carriage_return texts = true ->
  no_carriage_return (file_header pdf_name year doc_type (length texts) now) = true ->
  length (str_of_nat (length texts)) <= max_str_digits ->
  let written :=
    save_extracted_text (extract_with_pymupdf texts) pdf_name year doc_type now in
  let content := read_text written in
  content = written
  /\ parse_text_file (MkTextFile name (Some content))
     = Ok (extract_metadata_from_header content,
           parsed_pages 1 (length texts) texts)
  /\ hd_error (re_split page_pattern 2 content)
     = Some (file_header pdf_name year doc_type (length texts) now ++ [newline]).
Proof.
  intros Hne Htexts Hheader Hcr Hcrh Hlim written content.
  assert (Hread : content = written).
  { apply read_text_plain. now apply written_no_carriage_return. }
  split; [exact Hread|]. rewrite Hread. clear Hread content.
  set (content := written).
  set (n := length texts).
  set (header := file_header pdf_name year doc_type n now).
  set (segs := segs_of (items_from 1 n texts)).
  assert (Hcontent : content = (header ++ [newline]) ++ body segs).
  { unfold content, written, save_extracted_text, file_body, extract_with_pymupdf.
    rewrite length_map, length_combine, length_seq, Nat.min_id.
    rewrite (body_of_markers (length texts) texts 1).
    destruct texts; [contradiction|]. fold n. fold segs. fold header.
    app_norm. reflexivity. }
  assert (Hsplit : re_split page_pattern 2 content
                   = (header ++ [newline]) :: pieces_of segs).
  { rewrite Hcontent. apply re_split_segments.
    - apply header_quiet, finditer_nil_free, no_finds_nil, Hheader.
    - apply items_well_formed. now apply forallb_no_finds_free. }
  split; [|now rewrite Hsplit].
  unfold parse_text_file. cbn [file_content of_option rbind].
  fold content. rewrite Hsplit.
  match goal with
  | |- context [range3 1 ?len] =>
      assert (Hidx : range3 1 len = steps 1 (length (items_from 1 n texts)))
  end.
  { unfold range3. apply range3_aux_steps.
    - cbn [length]. rewrite length_pieces_of. unfold segs, segs_of.
      rewrite length_map. reflexivity.
    - cbn [length]. rewrite length_pieces_of. unfold segs, segs_of.
      rewrite length_map, !length_items_from. lia. }
  rewrite Hidx.
  assert (Hitems : items_within_limit (items_from 1 n texts)).
  { apply items_from_within_limit; [exact Hlim|]. unfold n. lia. }
  pose proof (structure_pages_items (items_from 1 n texts) Hitems
                [header ++ [newline]]) as Hloop.
  match goal with
  | |- context [structure_pages ?pieces ?idx] =>
      replace (structure_pages pieces idx)
        with (Ok (pages_of (items_from 1 n texts)))
        by (symmetry; exact Hloop)
  end.
  cbn [rbind]. now rewrite pages_of_items.
Qed.

Lemma C10_write_then_parse_witness :
  parse_text_file
    (MkTextFile (L "2023_report_extracted.txt")
       (Some (read_text
                (save_extracted_text (extract_with_pymupdf sample_texts)
                   (L "report.pdf") (L "2023") (L "Other Report")
                   (L "2024-01-01 00:00:00")))))
  = Ok (extract_metadata_from_header
          (read_text
             (save_extracted_text (extract_with_pymupdf sample_texts)
                (L "report.pdf") (L "2023") (L "Other Report")
                (L "2024-01-01 00:00:00"))),
        parsed_pages 1 (length sample_texts) sample_texts).
Proof.
  refine (proj1 (proj2 (C10_write_then_parse sample_texts (L "report.pdf") (L "2023")
                          (L "Other Report") (L "2024-01-01 00:00:00")
                          (L "2023_report_extracted.txt") _ _ _ _ _ _))).
  - discriminate.
  - vm_compute. reflexivity.
  - vm_compute. reflexivity.
  - vm_compute. reflexivity.
  - vm_compute. reflexivity.
  - apply Nat.leb_le. vm_compute. reflexivity.
Defined.

(** A source file whose name holds a page delimiter. *)
Definition delimiter_name : str :=
  L "x" ++ page_delimiter (L "7") (L "9") ++ L ".pdf".

(** C10 as stated fails: the page text holds no delimiter, but the name
    of the source file does, and the written file, read back, parses
    into two pages, the first of which is numbered 7 and holds the rest
    of the header block. *)
Lemma C10_counterexample :
  forallb (no_finds false page_pattern) [L "hello"] = true
  /\ exists md first second,
       parse_text_file
         (MkTextFile (L "2023_x_extracted.txt")
            (Some (read_text
                     (save_extracted_text (extract_with_pymupdf [L "hello"])
                        delimiter_name (L "2023") (L "Other Report")
                        (L "2024-01-01 00:00:00")))))
       = Ok (md, [first; second])
       /\ page_number first = 7
       /\ contains (L "Total Pages: 1") (text first) = true
       /\ parsed_pages 1 1 [L "hello"] = [second].
Proof.
  split; [vm_compute; reflexivity|].
  eexists. eexists. eexists. split; [vm_compute; reflexivity|].
  split; [reflexivity|]. split; [vm_compute; reflexivity|reflexivity].
Qed.

(** * More of the pipeline *)

(** ** Substrings and letter case *)

Lemma contains_unfold (w s : str) :
  contains w s
  = match strip_prefix w s with
    | Some _ => true
    | None => match s with [] => false | _ :: s' => contains w s' end
    end.
Proof. destruct s; reflexivity. Qed.

Lemma contains_occurs (w s : str) : contains w s = true <-> occurs_in w s.
Proof.
  split.
  - induction s as [|c s IH]; rewrite contains_unfold.
    + destruct (strip_prefix w []) as [rest|] eqn:E; [|discriminate].
      intros _. apply strip_prefix_some in E. exists [], rest. exact E.
    + destruct (strip_prefix w (c :: s)) as [rest|] eqn:E.
      * intros _. apply strip_prefix_some in E. exists [], rest. exact E.
      * intros H. destruct (IH H) as [pre [post ->]].
        exists (c :: pre), post. reflexivity.
  - intros [pre [post ->]]. apply contains_app_r. rewrite contains_unfold.
    now rewrite (proj2 (strip_prefix_some w (w ++ post) post) eq_refl).
Qed.

Lemma contains_false (w s : str) :
  contains w s = false <-> ~ occurs_in w s.
Proof.
  rewrite <- contains_occurs. destruct (contains w s); split; congruence.
Qed.

Lemma contains_inside (w s t : str) :
  occurs_in s t -> contains w s = true -> contains w t = true.
Proof.
  intros [pre [post ->]] H. apply contains_occurs in H.
  destruct H as [a [b ->]]. apply contains_occurs.
  exists (pre ++ a), (b ++ post). now rewrite <- !app_assoc.
Qed.

Lemma lower_char_idem (c : ascii) : lower_char (lower_char c) = lower_char c.
Proof. destruct c as [[] [] [] [] [] [] [] []]; reflexivity. Qed.

Lemma lower_idem (s : str) : lower (lower s) = lower s.
Proof.
  unfold lower. rewrite map_map. apply map_ext. intros c. apply lower_char_idem.
Qed.

Lemma lower_app (a b : str) : lower (a ++ b) = lower a ++ lower b.
Proof. apply map_app. Qed.

Lemma length_lower (s : str) : length (lower s) = length s.
Proof. apply length_map. Qed.

(** ** Stage 1: document types *)

(** The seven document types. *)
Definition document_types : list str :=
  [ L "Global Citizenship & Sustainability Report";
    L "10-K Annual Report";
    L "CDP Climate Change Disclosure";
    L "CDP Water Security Disclosure";
    L "CDP Forest Disclosure";
    L "Carbon Footprint Verification/Assurance";
    L "Other Report" ].

Lemma categorize_document_types (filename : str) :
  In (categorize_document filename) document_types.
Proof.
  unfold categorize_document, document_types.
  repeat match goal with
         | |- context [if ?b then _ else _] => destruct b
         end; simpl; tauto.
Qed.

(** X1.  The document type does not depend on the letter case of the
    file name, and it is always one of the seven types. *)
Theorem categorize_document_case (filename : str) :
  categorize_document (lower filename) = categorize_document filename
  /\ In (categorize_document filename) document_types.
Proof.
  split; [|apply categorize_document_types].
  unfold categorize_document. now rewrite lower_idem.
Qed.

(** ** Stage 1: the year of a document *)

(** The years [extract_year_from_path] looks for. *)
Definition known_years : list nat := [2020; 2021; 2022; 2023; 2024; 2025].

Lemma known_year_text :
  map str_of_nat known_years
  = [L "2020"; L "2021"; L "2022"; L "2023"; L "2024"; L "2025"].
Proof. reflexivity. Qed.

(** X2.  When the file name is a part of the path string, as
    [pdf_path.name] is of [str(pdf_path)], the year is the smallest of
    2020 to 2025 whose digits stand anywhere in the path string, and it
    is unknown only when none of them does: the search in the file name
    finds nothing that the search in the path did not. *)
Theorem extract_year_from_path_smallest (path_str filename : str) :
  occurs_in filename path_str ->
  match extract_year_from_path path_str filename with
  | Some y =>
      In y known_years
      /\ contains (str_of_nat y) path_str = true
      /\ forall y', In y' known_years -> y' < y ->
                    contains (str_of_nat y') path_str = false
  | None =>
      forall y, In y known_years -> contains (str_of_nat y) path_str = false
  end.
Proof.
  intros Hname.
  assert (Hfile : forall w, contains w path_str = false -> contains w filename = false).
  { intros w Hw. destruct (contains w filename) eqn:E; [|reflexivity].
    rewrite (contains_inside w filename path_str Hname E) in Hw. discriminate. }
  unfold extract_year_from_path.
  destruct (contains (L "2020") path_str) eqn:H0;
    [|destruct (contains (L "2021") path_str) eqn:H1;
      [|destruct (contains (L "2022") path_str) eqn:H2;
        [|destruct (contains (L "2023") path_str) eqn:H3;
          [|destruct (contains (L "2024") path_str) eqn:H4;
            [|destruct (contains (L "2025") path_str) eqn:H5]]]]].
  all: try (split; [unfold known_years, In; repeat first [left; reflexivity | right]|];
            split; [assumption|];
            intros y' Hy' Hlt; unfold known_years, In in Hy';
            repeat (destruct Hy' as [<-|Hy'];
                    [first [assumption
                           | exfalso; apply Nat.ltb_lt in Hlt; vm_compute in Hlt;
                             discriminate]|]);
            contradiction).
  cbn [find].
  change (str_of_nat 2020) with (L "2020"). change (str_of_nat 2021) with (L "2021").
  change (str_of_nat 2022) with (L "2022"). change (str_of_nat 2023) with (L "2023").
  change (str_of_nat 2024) with (L "2024"). change (str_of_nat 2025) with (L "2025").
  rewrite (Hfile _ H0), (Hfile _ H1), (Hfile _ H2), (Hfile _ H3), (Hfile _ H4),
    (Hfile _ H5).
  intros y Hy. unfold known_years, In in Hy.
  repeat (destruct Hy as [<-|Hy]; [assumption|]). contradiction.
Qed.

Lemma extract_year_from_path_smallest_witness :
  extract_year_from_path (L "extracted_reports/2021/RL_2020_GCS_Report.pdf")
    (L "RL_2020_GCS_Report.pdf")
  = Some 2020
  /\ contains (str_of_nat 2020) (L "extracted_reports/2021/RL_2020_GCS_Report.pdf")
     = true.
Proof.
  pose proof (extract_year_from_path_smallest
                (L "extracted_reports/2021/RL_2020_GCS_Report.pdf")
                (L "RL_2020_GCS_Report.pdf")
                (ex_intro _ (L "extracted_reports/2021/")
                   (ex_intro _ [] eq_refl))) as H.
  change (extract_year_from_path
            (L "extracted_reports/2021/RL_2020_GCS_Report.pdf")
            (L "RL_2020_GCS_Report.pdf")) with (Some 2020) in H.
  split; [reflexivity|exact (proj1 (proj2 H))].
Defined.

(** ** Stage 1: the name of the text file *)

Lemma replace_char_app (old : ascii) (new a b : str) :
  replace_char old new (a ++ b) = replace_char old new a ++ replace_char old new b.
Proof. apply flat_map_app. Qed.

Lemma replace_char_in (old : ascii) (new s : str) (c : ascii) :
  In c (replace_char old new s) -> In c new \/ (In c s /\ c <> old).
Proof.
  unfold replace_char. rewrite in_flat_map. intros [x [Hx Hc]].
  destruct (Ascii.eqb_spec x old) as [->|Hne]; [now left|].
  destruct Hc as [<-|[]]. right. auto.
Qed.

Lemma replace_char_absent (old : ascii) (new s : str) :
  ~ In old s -> replace_char old new s = s.
Proof.
  induction s as [|c s IH]; intros H; [reflexivity|].
  cbn [replace_char flat_map].
  destruct (Ascii.eqb_spec c old) as [->|Hne]; [exfalso; apply H; now left|].
  fold (replace_char old new s). rewrite IH; [reflexivity|].
  intros Hin. apply H. now right.
Qed.

Lemma safe_name_no_space (stem : str) : ~ In " "%char (safe_name stem).
Proof.
  unfold safe_name. intros H. apply replace_char_in in H.
  destruct H as [H|[H _]].
  - simpl in H. repeat (destruct H as [H|H]; [discriminate|]). contradiction.
  - apply replace_char_in in H. destruct H as [H|[_ H]]; [|congruence].
    simpl in H. destruct H as [H|[]]. discriminate.
Qed.

Lemma safe_name_no_ampersand (stem : str) : ~ In "&"%char (safe_name stem).
Proof.
  unfold safe_name. intros H. apply replace_char_in in H.
  destruct H as [H|[_ H]]; [|congruence].
  simpl in H. repeat (destruct H as [H|H]; [discriminate|]). contradiction.
Qed.

(** X3.  The safe name holds no space and no ampersand, and it is its
    own safe name.  Stems that differ in a space against an underscore,
    or in an ampersand against the word "and", have the same safe name,
    so their text files have the same name. *)
Theorem safe_name_characters (stem : str) :
  ~ In " "%char (safe_name stem)
  /\ ~ In "&"%char (safe_name stem)
  /\ safe_name (safe_name stem) = safe_name stem
  /\ (forall a b year,
        extracted_file_name year (a ++ L " " ++ b)
        = extracted_file_name year (a ++ L "_" ++ b))
  /\ (forall a b year,
        extracted_file_name year (a ++ L "&" ++ b)
        = extracted_file_name year (a ++ L "and" ++ b)).
Proof.
  split; [apply safe_name_no_space|]. split; [apply safe_name_no_ampersand|].
  split; [|split].
  - unfold safe_name at 1.
    rewrite (replace_char_absent " "%char) by apply safe_name_no_space.
    apply replace_char_absent, safe_name_no_ampersand.
  - intros a b year. unfold extracted_file_name, safe_name.
    now rewrite !replace_char_app.
  - intros a b year. unfold extracted_file_name, safe_name.
    now rewrite !replace_char_app.
Qed.

(** ** Stage 1: the run over the PDF files *)



(** The name of the text file that stage 1 writes for a PDF file. *)
Definition text_file_name (pdf : Pdf) : str :=
  extracted_file_name
    (year_text (extract_year_from_path (pdf_path_str pdf) (pdf_file_name pdf)))
    (pdf_file_stem pdf).




Lemma str_eqb_eq (a b : str) : str_eqb a b = true <-> a = b.
Proof.
  unfold str_eqb. destruct (list_eq_dec ascii_dec a b); split; congruence.
Qed.





(** *** Writing into the directory *)









(** *** One PDF file *)



(** *** The loop *)



(** ** Stage 1: the summary of the extraction log *)

Lemma year_eqb_eq (a b : option nat) : year_eqb a b = true <-> a = b.
Proof.
  destruct a as [x|], b as [y|]; simpl; try (split; [discriminate|congruence]).
  - rewrite Nat.eqb_eq. split; congruence.
  - tauto.
Qed.

Lemma group_append_keys (item : LogEntry) (by_year : list (option nat * list LogEntry))
    (y : option nat) :
  In y (map fst (group_append item by_year))
  <-> y = entry_year item \/ In y (map fst by_year).
Proof.
  induction by_year as [|[year items] rest IH]; simpl.
  - intuition.
  - destruct (year_eqb year (entry_year item)) eqn:E; simpl.
    + apply year_eqb_eq in E. subst year. intuition.
    + rewrite IH. intuition.
Qed.

Lemma group_by_year_keys (log : list LogEntry) (y : option nat) :
  In y (map fst (group_by_year log)) <-> exists e, In e log /\ entry_year e = y.
Proof.
  unfold group_by_year.
  assert (H : forall acc,
            In y (map fst (fold_left (fun by_year item => group_append item by_year)
                             log acc))
            <-> In y (map fst acc) \/ exists e, In e log /\ entry_year e = y).
  { induction log as [|e log IH]; intros acc; simpl.
    - split; [auto|]. intros [H|[e [[] _]]]. exact H.
    - rewrite IH, group_append_keys. split.
      + intros [[->|H]|[e' [He' Hy]]]; eauto.
      + intros [H|[e' [[<-|He'] Hy]]]; eauto. }
  rewrite H. simpl. split; [intros [[]|H']; exact H'|auto].
Qed.

Lemma numbered_none (by_year : list (option nat * list LogEntry)) :
  numbered by_year = None <-> In None (map fst by_year).
Proof.
  induction by_year as [|[[y|] items] rest IH]; simpl.
  - split; [discriminate|contradiction].
  - destruct (numbered rest); simpl.
    + split; [discriminate|]. intros [H|H]; [discriminate|].
      apply IH in H. discriminate.
    + split; [right; now apply IH|reflexivity].
  - split; auto.
Qed.

Lemma all_unknown_false (by_year : list (option nat * list LogEntry)) :
  all_unknown by_year = false <-> exists y, In (Some y) (map fst by_year).
Proof.
  unfold all_unknown. induction by_year as [|[[y|] items] rest IH]; simpl.
  - split; [discriminate|]. intros [y []].
  - split; eauto.
  - rewrite IH. split; intros [y H]; exists y; [now right|].
    destruct H as [H|H]; [discriminate|exact H].
Qed.

Lemma sorted_groups_none (by_year : list (option nat * list LogEntry)) :
  sorted_groups by_year = None
  <-> In None (map fst by_year) /\ exists y, In (Some y) (map fst by_year).
Proof.
  unfold sorted_groups. destruct (numbered by_year) as [groups|] eqn:E.
  - split; [discriminate|]. intros [H _]. apply numbered_none in H. congruence.
  - apply numbered_none in E. destruct (all_unknown by_year) eqn:Ha.
    + split; [discriminate|]. intros [_ H]. apply all_unknown_false in H. congruence.
    + apply all_unknown_false in Ha. tauto.
Qed.

(** X5.  Writing the extraction log raises [TypeError] exactly when the
    log holds an entry whose year is unknown and an entry whose year is a
    number; [extraction_log.json] is written in either case. *)
Theorem save_extraction_log_type_error (log : list LogEntry) :
  (snd (save_extraction_log log) = RaisedTypeError
   <-> (exists e, In e log /\ entry_year e = None)
       /\ (exists e y, In e log /\ entry_year e = Some y))
  /\ In (ExtractionLogJson (length log) log) (fst (save_extraction_log log)).
Proof.
  unfold save_extraction_log.
  pose proof (sorted_groups_none (group_by_year log)) as H.
  rewrite group_by_year_keys in H.
  assert (Hy : (exists y, In (Some y) (map fst (group_by_year log)))
               <-> exists e y, In e log /\ entry_year e = Some y).
  { split.
    - intros [y Hy]. apply group_by_year_keys in Hy. destruct Hy as [e He].
      exists e, y. exact He.
    - intros [e [y He]]. exists y. apply group_by_year_keys. exists e. exact He. }
  rewrite Hy in H.
  destruct (sorted_groups (group_by_year log)) as [groups|]; cbn [fst snd].
  - split; [|now left]. split; [discriminate|].
    intros H'. apply H in H'. discriminate.
  - split; [|now left]. split; [intros _; now apply H|reflexivity].
Qed.

(** The entries of the groups, group after group. *)
Definition entries_of {K : Type} (groups : list (K * list LogEntry)) : list LogEntry :=
  concat (map snd groups).

(** Every group has entries, all of the year of the group. *)
Definition keyed (groups : list (option nat * list LogEntry)) : Prop :=
  forall y items, In (y, items) groups ->
    items <> [] /\ forall e, In e items -> entry_year e = y.

(** The year [a] is a number smaller than the number [b]. *)
Definition year_before (a b : option nat) : Prop :=
  match a, b with
  | Some x, Some y => x < y
  | _, _ => False
  end.

Lemma entries_of_perm {K : Type} (l l' : list (K * list LogEntry)) :
  Permutation l l' -> Permutation (entries_of l) (entries_of l').
Proof.
  unfold entries_of. induction 1; simpl.
  - constructor.
  - now apply Permutation_app_head.
  - rewrite !app_assoc. apply Permutation_app_tail, Permutation_app_comm.
  - eapply Permutation_trans; eauto.
Qed.

Lemma group_append_entries (item : LogEntry) (by_year : list (option nat * list LogEntry)) :
  Permutation (entries_of (group_append item by_year)) (entries_of by_year ++ [item]).
Proof.
  unfold entries_of. induction by_year as [|[year items] rest IH]; simpl.
  - constructor. constructor.
  - destruct (year_eqb year (entry_year item)); simpl.
    + rewrite <- !app_assoc. apply Permutation_app_head, Permutation_app_comm.
    + rewrite <- app_assoc. now apply Permutation_app_head.
Qed.

Lemma group_append_keyed (item : LogEntry) (by_year : list (option nat * list LogEntry)) :
  keyed by_year -> keyed (group_append item by_year).
Proof.
  unfold keyed. induction by_year as [|[year items] rest IH]; intros H y its Hin.
  - simpl in Hin. destruct Hin as [Hin|[]]. injection Hin as <- <-.
    split; [discriminate|]. intros e [<-|[]]. reflexivity.
  - simpl in Hin. destruct (year_eqb year (entry_year item)) eqn:E.
    + apply year_eqb_eq in E. destruct Hin as [Hin|Hin].
      * injection Hin as <- <-. split; [destruct items; discriminate|].
        intros e He. apply in_app_or in He. destruct He as [He|[<-|[]]]; auto.
        now apply (H year items (or_introl eq_refl)).
      * apply H. now right.
    + destruct Hin as [Hin|Hin].
      * injection Hin as <- <-. apply H. now left.
      * apply IH; auto. intros y' its' Hin'. apply H. now right.
Qed.

Lemma group_append_nodup (item : LogEntry) (by_year : list (option nat * list LogEntry)) :
  NoDup (map fst by_year) -> NoDup (map fst (group_append item by_year)).
Proof.
  induction by_year as [|[year items] rest IH]; intros H; simpl.
  - constructor; [intros []|constructor].
  - inversion H as [|? ? Hnot Hrest]; subst.
    destruct (year_eqb year (entry_year item)) eqn:E; simpl.
    + constructor; assumption.
    + constructor; [|now apply IH].
      rewrite group_append_keys. intros [->|Hin]; [|contradiction].
      assert (Ht : year_eqb (entry_year item) (entry_year item) = true)
        by now apply year_eqb_eq.
      congruence.
Qed.

Lemma group_by_year_spec (log : list LogEntry) :
  Permutation (entries_of (group_by_year log)) log
  /\ keyed (group_by_year log)
  /\ NoDup (map fst (group_by_year log)).
Proof.
  unfold group_by_year.
  assert (H : forall acc,
            keyed acc -> NoDup (map fst acc) ->
            let r := fold_left (fun by_year item => group_append item by_year) log acc in
            Permutation (entries_of r) (entries_of acc ++ log)
            /\ keyed r /\ NoDup (map fst r)).
  { induction log as [|e log IH]; intros acc Hk Hn; simpl.
    - rewrite app_nil_r. auto.
    - destruct (IH (group_append e acc) (group_append_keyed e acc Hk)
                  (group_append_nodup e acc Hn)) as [Hp [Hk' Hn']].
      split; [|auto]. eapply Permutation_trans; [exact Hp|].
      change (e :: log) with ([e] ++ log). rewrite app_assoc.
      apply Permutation_app_tail, group_append_entries. }
  apply (H []); [intros y items []|constructor].
Qed.

Lemma insert_group_perm (g : nat * list LogEntry) (l : list (nat * list LogEntry)) :
  Permutation (insert_group g l) (g :: l).
Proof.
  induction l as [|h l IH]; simpl; [reflexivity|].
  destruct (fst g <=? fst h); [reflexivity|].
  eapply Permutation_trans; [apply perm_skip, IH|apply perm_swap].
Qed.

Lemma sort_groups_perm (l : list (nat * list LogEntry)) :
  Permutation (fold_right insert_group [] l) l.
Proof.
  induction l as [|g l IH]; simpl; [constructor|].
  eapply Permutation_trans; [apply insert_group_perm|now apply perm_skip].
Qed.

Lemma insert_group_sorted (g : nat * list LogEntry) (l : list (nat * list LogEntry)) :
  StronglySorted lt (map fst l) -> ~ In (fst g) (map fst l) ->
  StronglySorted lt (map fst (insert_group g l)).
Proof.
  induction l as [|h l IH]; intros Hs Hn; simpl.
  - repeat constructor.
  - simpl in Hs. inversion Hs as [|? ? Hs' Hall]; subst.
    destruct (Nat.leb_spec (fst g) (fst h)) as [Hle|Hgt]; simpl.
    + assert (Hlt : fst g < fst h).
      { simpl in Hn. destruct (Nat.eq_dec (fst h) (fst g)); [tauto|lia]. }
      constructor; [constructor; auto|].
      constructor; auto.
      eapply Forall_impl; [|exact Hall]. simpl. intros; lia.
    + constructor.
      * apply IH; auto. simpl in Hn. tauto.
      * apply Forall_forall. intros k Hk.
        apply (Permutation_in k (Permutation_map fst (insert_group_perm g l))) in Hk.
        destruct Hk as [<-|Hk]; [lia|].
        rewrite Forall_forall in Hall. now apply Hall.
Qed.

Lemma sort_groups_sorted (l : list (nat * list LogEntry)) :
  NoDup (map fst l) -> StronglySorted lt (map fst (fold_right insert_group [] l)).
Proof.
  induction l as [|g l IH]; intros Hn; simpl; [constructor|].
  inversion Hn as [|? ? Hnot Hn']; subst. apply insert_group_sorted; auto.
  intros Hin. apply Hnot.
  exact (Permutation_in _ (Permutation_map fst (sort_groups_perm l)) Hin).
Qed.

Lemma numbered_some (by_year : list (option nat * list LogEntry))
    (groups : list (nat * list LogEntry)) :
  numbered by_year = Some groups ->
  by_year = map (fun g => (Some (fst g), snd g)) groups.
Proof.
  revert groups. induction by_year as [|[[y|] items] rest IH]; intros groups H;
    simpl in H.
  - now injection H as <-.
  - destruct (numbered rest) as [l|]; [|discriminate]. injection H as <-.
    simpl. now rewrite <- (IH l eq_refl).
  - discriminate.
Qed.

Lemma sorted_some (l : list nat) :
  StronglySorted lt l -> StronglySorted year_before (map Some l).
Proof.
  induction 1 as [|a l Hs IH Hall]; simpl; constructor; auto.
  rewrite Forall_map. exact Hall.
Qed.

Lemma unknown_sorted (keys : list (option nat)) :
  NoDup keys -> (forall k, In k keys -> k = None) -> StronglySorted year_before keys.
Proof.
  intros Hn Hk. destruct keys as [|a [|b keys]].
  - constructor.
  - repeat constructor.
  - exfalso. inversion Hn as [|? ? Hnot _]; subst. apply Hnot.
    rewrite (Hk a (or_introl eq_refl)), (Hk b (or_intror (or_introl eq_refl))).
    now left.
Qed.

Lemma all_unknown_true (by_year : list (option nat * list LogEntry)) :
  all_unknown by_year = true -> forall k, In k (map fst by_year) -> k = None.
Proof.
  unfold all_unknown. rewrite forallb_forall. intros H k Hk.
  apply in_map_iff in Hk. destruct Hk as [g [<- Hg]]. specialize (H g Hg).
  destruct (fst g); [discriminate|reflexivity].
Qed.

Lemma sorted_groups_spec (by_year groups : list (option nat * list LogEntry)) :
  NoDup (map fst by_year) ->
  sorted_groups by_year = Some groups ->
  Permutation groups by_year /\ StronglySorted year_before (map fst groups).
Proof.
  intros Hn. unfold sorted_groups.
  destruct (numbered by_year) as [l|] eqn:E.
  - intros H. injection H as <-. apply numbered_some in E. subst by_year.
    split; [apply Permutation_map, sort_groups_perm|].
    rewrite map_map. cbn [fst]. rewrite <- (map_map fst Some).
    apply sorted_some, sort_groups_sorted.
    rewrite map_map in Hn. cbn [fst] in Hn. rewrite <- (map_map fst Some) in Hn.
    apply NoDup_map_inv in Hn. exact Hn.
  - destruct (all_unknown by_year) eqn:Ha; [|discriminate].
    intros H. injection H as <-. split; [reflexivity|].
    apply unknown_sorted; [exact Hn|now apply all_unknown_true].
Qed.

(** X6.  When writing the extraction log does not raise, the summary
    lists every entry of the log exactly once, in the group of its year;
    every group has an entry, and the groups stand in ascending order of
    the year. *)
Theorem save_extraction_log_summary (log : list LogEntry) :
  snd (save_extraction_log log) = Returned ->
  exists groups,
    In (ExtractionSummary (length log) groups) (fst (save_extraction_log log))
    /\ Permutation (entries_of groups) log
    /\ keyed groups
    /\ StronglySorted year_before (map fst groups).
Proof.
  unfold save_extraction_log.
  destruct (group_by_year_spec log) as [Hp [Hk Hn]].
  destruct (sorted_groups (group_by_year log)) as [groups|] eqn:E; [|discriminate].
  intros _. destruct (sorted_groups_spec _ _ Hn E) as [Hperm Hs].
  exists groups. split; [right; now left|]. split; [|split; [|exact Hs]].
  - eapply Permutation_trans; [apply entries_of_perm, Hperm|exact Hp].
  - intros y items Hin. apply (Hk y items).
    exact (Permutation_in _ Hperm Hin).
Qed.

(** A log of three documents of two years. *)
Definition sample_log : list LogEntry :=
  [ MkLogEntry (L "b.pdf") (Some 2023) (L "Other Report") 2 (L "2024-01-01T00:00:00")
      (L "2023_b_extracted.txt") (L "pymupdf");
    MkLogEntry (L "a.pdf") (Some 2021) (L "Other Report") 1 (L "2024-01-01T00:00:00")
      (L "2021_a_extracted.txt") (L "pymupdf");
    MkLogEntry (L "c.pdf") (Some 2023) (L "10-K Annual Report") 5
      (L "2024-01-01T00:00:00") (L "2023_c_extracted.txt") (L "pymupdf") ].

Lemma save_extraction_log_summary_witness :
  exists groups,
    In (ExtractionSummary (length sample_log) groups)
       (fst (save_extraction_log sample_log))
    /\ Permutation (entries_of groups) sample_log
    /\ keyed groups
    /\ StronglySorted year_before (map fst groups).
Proof.
  apply (save_extraction_log_summary sample_log). reflexivity.
Defined.

(** ** Stage 2: parsing any text file *)

Lemma uint_of_digits (s : str) :
  forallb is_digit s = true ->
  exists d, NilEmpty.uint_of_string (string_of_list_ascii s) = Some d.
Proof.
  induction s as [|c s IH]; intros H; simpl in *.
  - eauto.
  - apply andb_true_iff in H. destruct H as [Hc Hs].
    destruct (IH Hs) as [d ->]. revert Hc.
    destruct c as [[] [] [] [] [] [] [] []]; try discriminate; intros _;
      eexists; reflexivity.
Qed.

(** A string of more digits than [int] converts. *)
Definition too_long (d : str) : bool := max_str_digits <? length d.

(** [int] succeeds on a string of digits within the limit, and on no
    longer one. *)
Lemma int_of_str_digits (d : str) :
  digits d -> too_long d = false -> exists n, int_of_str d = Some n.
Proof.
  intros [Hne Hd] Hl. unfold int_of_str. destruct d as [|c d]; [contradiction|].
  rewrite Hd. unfold too_long in Hl. apply Nat.ltb_ge in Hl.
  apply Nat.leb_le in Hl. rewrite Hl. cbn [andb].
  destruct (uint_of_digits (c :: d) Hd) as [u ->]. simpl. eauto.
Qed.

Lemma int_of_str_too_long (d : str) : too_long d = true -> int_of_str d = None.
Proof.
  intros Hl. unfold int_of_str. destruct d as [|c d]; [reflexivity|].
  unfold too_long in Hl. apply Nat.ltb_lt in Hl.
  assert (H : (length (c :: d) <=? max_str_digits) = false)
    by (apply Nat.leb_gt; exact Hl).
  rewrite H, andb_false_r. reflexivity.
Qed.

(** The pieces of a text made of page delimiters are read as pages. *)
Definition page_of_segment (seg : segment) (p : Page) : Prop :=
  int_of_str (fst (fst seg)) = Some (page_number p)
  /\ int_of_str (snd (fst seg)) = Some (total_pages p)
  /\ text p = snd seg.

(** A page delimiter with a number that [int] does not convert. *)
Definition segment_too_long (seg : segment) : bool :=
  (too_long (fst (fst seg)) || too_long (snd (fst seg)))%bool.

Lemma well_formed_digits (segs : list segment) :
  well_formed segs ->
  Forall (fun seg => digits (fst (fst seg)) /\ digits (snd (fst seg))) segs.
Proof.
  induction segs as [|[[d1 d2] g] segs IH]; intros H; constructor.
  - simpl in *. tauto.
  - apply IH. simpl in H. tauto.
Qed.

Lemma structure_pages_segments (segs : list segment) :
  Forall (fun seg => digits (fst (fst seg)) /\ digits (snd (fst seg))) segs ->
  forall front,
    if existsb segment_too_long segs
    then structure_pages (front ++ pieces_of segs) (steps (length front) (length segs))
         = Raise ValueError
    else exists pages,
           structure_pages (front ++ pieces_of segs)
             (steps (length front) (length segs))
           = Ok pages
           /\ Forall2 page_of_segment segs pages.
Proof.
  induction 1 as [|[[d1 d2] g] segs [H1 H2] _ IH]; intros front.
  - exists []. split; [reflexivity|constructor].
  - cbn [fst snd] in H1, H2.
    specialize (IH (front ++ [d1; d2; g])).
    rewrite <- app_assoc in IH. simpl app in IH.
    rewrite length_app in IH. simpl length in IH.
    assert (Hlen : (length front + 2 <=? length
              (front ++ d1 :: d2 :: g :: pieces_of segs)) = true).
    { apply Nat.leb_le. rewrite length_app. simpl. lia. }
    cbn [existsb]. unfold segment_too_long at 1. cbn [fst snd].
    cbn [length steps pieces_of structure_pages]. rewrite Hlen.
    rewrite nth_error_app2 by lia. rewrite Nat.sub_diag.
    cbn [nth_error of_option rbind].
    destruct (too_long d1) eqn:L1; cbn [orb].
    { rewrite (int_of_str_too_long d1 L1). reflexivity. }
    destruct (int_of_str_digits d1 H1 L1) as [n Hn]. rewrite Hn.
    cbn [of_option rbind].
    rewrite nth_error_app2 by lia.
    replace (length front + 1 - length front) with 1 by lia.
    cbn [nth_error of_option rbind].
    destruct (too_long d2) eqn:L2; cbn [orb].
    { rewrite (int_of_str_too_long d2 L2). reflexivity. }
    destruct (int_of_str_digits d2 H2 L2) as [t Ht]. rewrite Ht.
    cbn [of_option rbind].
    rewrite nth_error_app2 by lia.
    replace (length front + 2 - length front) with 2 by lia.
    cbn [nth_error of_option rbind].
    destruct (existsb segment_too_long segs).
    + rewrite IH. reflexivity.
    + destruct IH as [pages [Hp Hf]]. rewrite Hp. cbn [rbind].
      exists (MkPage n t g :: pages). split; [reflexivity|].
      constructor; [|exact Hf]. unfold page_of_segment. cbn [fst snd].
      repeat split; auto.
Qed.

(** Every text is a text without a match of the page pattern, followed
    by page delimiters with the text after each of them. *)
Lemma delimiter_prefix_dec (s : str) : delimiter_prefix s \/ ~ delimiter_prefix s.
Proof.
  destruct (match_here false page_pattern None 0 s) as [[e cp]|] eqn:E.
  - left. eapply match_delimiter_prefix; eauto.
  - right. intros H. now apply (delimiter_prefix_match None 0 s H).
Qed.

Lemma no_prefix_no_match (s : str) (prev : option ascii) (i : nat) :
  ~ delimiter_prefix s -> match_here false page_pattern prev i s = None.
Proof.
  intros H. destruct (match_here false page_pattern prev i s) as [[e cp]|] eqn:E;
    [|reflexivity].
  exfalso. apply H. eapply match_delimiter_prefix; eauto.
Qed.

Lemma quiet_nil (rest : str) : quiet [] rest.
Proof.
  intros a b prev i Hab Hb. destruct a; [|discriminate]. simpl in Hab.
  subst b. contradiction.
Qed.

Lemma quiet_cons (c : ascii) (g rest : str) :
  ~ delimiter_prefix (c :: g ++ rest) -> quiet g rest -> quiet (c :: g) rest.
Proof.
  intros Hc Hq a b prev i Hab Hb. destruct a as [|x a]; simpl in Hab.
  - subst b. now apply no_prefix_no_match.
  - injection Hab as _ ->. now apply (Hq a b).
Qed.

Lemma text_segments (n : nat) :
  forall content, length content <= n ->
    exists g segs,
      content = g ++ body segs /\ quiet g (body segs) /\ well_formed segs.
Proof.
  induction n as [|n IH]; intros content Hlen.
  - destruct content; [|simpl in Hlen; lia].
    exists [], []. split; [reflexivity|]. split; [apply quiet_nil|exact I].
  - destruct content as [|c s].
    + exists [], []. split; [reflexivity|]. split; [apply quiet_nil|exact I].
    + destruct (delimiter_prefix_dec (c :: s)) as [[d1 [d2 [rest [H1 [H2 Heq]]]]]|Hno].
      * assert (Hrest : length rest <= n).
        { apply (f_equal (@length ascii)) in Heq.
          rewrite length_app, length_page_delimiter in Heq. simpl in Heq, Hlen. lia. }
        destruct (IH rest Hrest) as [g [segs [-> [Hq Hw]]]].
        exists [], ((d1, d2, g) :: segs). split; [exact Heq|].
        split; [apply quiet_nil|]. simpl. auto.
      * destruct (IH s ltac:(simpl in Hlen; lia)) as [g [segs [-> [Hq Hw]]]].
        exists (c :: g), segs. split; [reflexivity|].
        split; [now apply quiet_cons|exact Hw].
Qed.

(** The matches behind the pieces of a split. *)
Lemma split_pieces_segments (content : str) (ms : list rmatch_obj) :
  forall last g segs,
    split_pieces 2 content last ms = g :: pieces_of segs ->
    Forall2 (fun mo seg => group content mo 1 = fst (fst seg)
                           /\ group content mo 2 = snd (fst seg)) ms segs.
Proof.
  induction ms as [|mo ms IH]; intros last g segs H; cbn [split_pieces map seq app] in H.
  - destruct segs as [|[[d1 d2] g'] segs]; [constructor|discriminate].
  - destruct segs as [|[[d1 d2] g'] segs].
    + simpl in H. discriminate.
    + cbn [pieces_of] in H. injection H as _ H1 H2 H.
      constructor; [auto|]. exact (IH _ _ _ H).
Qed.

(** A match of the page pattern with a number that [int] does not
    convert. *)
Definition marker_too_long (content : str) (mo : rmatch_obj) : bool :=
  (too_long (group content mo 1) || too_long (group content mo 2))%bool.

Lemma existsb_too_long (content : str) (ms : list rmatch_obj) (segs : list segment) :
  Forall2 (fun mo seg => group content mo 1 = fst (fst seg)
                         /\ group content mo 2 = snd (fst seg)) ms segs ->
  existsb (marker_too_long content) ms = existsb segment_too_long segs.
Proof.
  induction 1 as [|mo seg ms segs [H1 H2] _ IH]; [reflexivity|].
  cbn [existsb]. unfold marker_too_long at 1, segment_too_long at 1.
  now rewrite H1, H2, IH.
Qed.

Lemma parse_segments (name g : str) (segs : list segment) :
  quiet g (body segs) -> well_formed segs ->
  Forall2 (fun mo seg => group (g ++ body segs) mo 1 = fst (fst seg)
                         /\ group (g ++ body segs) mo 2 = snd (fst seg))
    (finditer false page_pattern (g ++ body segs)) segs
  /\ if existsb segment_too_long segs
     then parse_text_file (MkTextFile name (Some (g ++ body segs))) = Raise ValueError
     else exists pages,
            parse_text_file (MkTextFile name (Some (g ++ body segs)))
            = Ok (extract_metadata_from_header (g ++ body segs), pages)
            /\ Forall2 page_of_segment segs pages.
Proof.
  intros Hq Hw.
  pose proof (re_split_segments g segs Hq Hw) as Hsplit.
  split.
  { unfold re_split in Hsplit. exact (split_pieces_segments _ _ _ _ _ Hsplit). }
  pose proof (structure_pages_segments segs (well_formed_digits segs Hw) [g]) as Hloop.
  assert (Hidx : range3 1 (length (g :: pieces_of segs)) = steps 1 (length segs)).
  { unfold range3. apply range3_aux_steps.
    - cbn [length]. rewrite length_pieces_of. reflexivity.
    - cbn [length]. rewrite length_pieces_of. lia. }
  unfold parse_text_file. cbn [file_content of_option rbind]. rewrite Hsplit, Hidx.
  cbn [app length] in Hloop.
  destruct (existsb segment_too_long segs).
  - rewrite Hloop. reflexivity.
  - destruct Hloop as [pages [-> Hf]]. exists pages. split; [reflexivity|exact Hf].
Qed.

Lemma pages_of_matches (content : str) (segs : list segment) :
  forall ms pages,
    Forall2 page_of_segment segs pages ->
    Forall2 (fun mo seg => group content mo 1 = fst (fst seg)
                           /\ group content mo 2 = snd (fst seg)) ms segs ->
    Forall2 (fun mo p =>
               int_of_str (group content mo 1) = Some (page_number p)
               /\ int_of_str (group content mo 2) = Some (total_pages p))
      ms pages.
Proof.
  induction segs as [|seg segs IH]; intros ms pages Hf Hm.
  - inversion Hf; subst. inversion Hm; subst. constructor.
  - inversion Hf as [|? p ? pages' [Hn [Ht _]] Hf']; subst.
    inversion Hm as [|mo ? ms' ? [H1 H2] Hm']; subst.
    constructor; [|now apply IH]. rewrite H1, H2. auto.
Qed.

(** What parsing a readable text file gives, whatever the file holds. *)
Lemma parse_text_file_cases (name content : str) :
  if existsb (marker_too_long content) (finditer false page_pattern content)
  then parse_text_file (MkTextFile name (Some content)) = Raise ValueError
  else exists pages,
         parse_text_file (MkTextFile name (Some content))
         = Ok (extract_metadata_from_header content, pages)
         /\ Forall2 (fun mo p =>
                       int_of_str (group content mo 1) = Some (page_number p)
                       /\ int_of_str (group content mo 2) = Some (total_pages p))
              (finditer false page_pattern content) pages.
Proof.
  destruct (text_segments (length content) content (le_n _))
    as [g [segs [-> [Hq Hw]]]].
  destruct (parse_segments name g segs Hq Hw) as [Hm Hp].
  rewrite (existsb_too_long _ _ _ Hm).
  destruct (existsb segment_too_long segs); [exact Hp|].
  destruct Hp as [pages [Hp Hf]]. exists pages. split; [exact Hp|].
  now apply (pages_of_matches _ segs).
Qed.

(** X7.  Parsing a text file that can be read raises in one case only:
    when the file holds a match of the page-delimiter pattern whose page
    number or total has more digits than [int] converts (4300), and
    then it raises [ValueError].  In every other case, whatever the
    file holds, it returns the metadata of the header and one page for
    every match of the page-delimiter pattern, in order, whose page
    number and total are the numbers that the two groups of the match
    hold. *)
Theorem parse_text_file_readable (name content : str) :
  if existsb (marker_too_long content) (finditer false page_pattern content)
  then parse_text_file (MkTextFile name (Some content)) = Raise ValueError
  else exists pages,
         parse_text_file (MkTextFile name (Some content))
         = Ok (extract_metadata_from_header content, pages)
         /\ Forall2 (fun mo p =>
                       int_of_str (group content mo 1) = Some (page_number p)
                       /\ int_of_str (group content mo 2) = Some (total_pages p))
              (finditer false page_pattern content) pages.
Proof. apply parse_text_file_cases. Qed.


(** ** The header of a text file, written by stage 1 and read by stage 2 *)

(** The word [w] starts at no offset of [pre] in the text [pre ++ tail]. *)
Definition clear_before (w pre tail : str) : Prop :=
  forall a b, pre = a ++ b -> b <> [] -> strip_prefix w (b ++ tail) = None.

Fixpoint starts_nowhere (w pre tail : str) : bool :=
  match pre with
  | [] => true
  | _ :: pre' =>
      match strip_prefix w (pre ++ tail) with
      | Some _ => false
      | None => starts_nowhere w pre' tail
      end
  end.

Lemma starts_nowhere_clear (w pre tail : str) :
  starts_nowhere w pre tail = true -> clear_before w pre tail.
Proof.
  induction pre as [|c pre IH]; intros H a b Hab Hb.
  - destruct a; [|discriminate]. simpl in Hab. subst b. contradiction.
  - cbn [starts_nowhere] in H.
    destruct (strip_prefix w ((c :: pre) ++ tail)) eqn:E; [discriminate|].
    destruct a as [|x a]; simpl in Hab.
    + subst b. exact E.
    + injection Hab as _ ->. now apply (IH H a b).
Qed.

Lemma clear_before_app (w p1 p2 tail : str) :
  clear_before w p1 (p2 ++ tail) -> clear_before w p2 tail ->
  clear_before w (p1 ++ p2) tail.
Proof.
  intros H1 H2 a b Hab Hb. apply app_eq_app in Hab.
  destruct Hab as [l [[-> ->]|[-> ->]]].
  - destruct l as [|x l].
    + rewrite app_nil_r in *. simpl. apply (H2 [] p2 eq_refl).
      intros ->. specialize (H1 a [] ltac:(now rewrite app_nil_r)).
      simpl in Hb. contradiction.
    + rewrite <- app_assoc. apply (H1 a (x :: l) eq_refl). discriminate.
  - apply (H2 l b eq_refl Hb).
Qed.

Lemma prefix_or_member (c : ascii) (rest : str) :
  forall b w r, b ++ c :: rest = w ++ r -> (exists b', b = w ++ b') \/ In c w.
Proof.
  induction b as [|x b IH]; intros w r H.
  - destruct w as [|y w]; [left; now exists []|].
    injection H as -> _. right. now left.
  - destruct w as [|y w]; [left; now exists (x :: b)|].
    injection H as <- H. destruct (IH w r H) as [[b' ->]|Hin].
    + left. now exists b'.
    + right. now right.
Qed.

(** A text in which [w] does not occur, before a character that is not
    in [w]. *)
Lemma clear_before_text (w t : str) (c : ascii) (rest : str) :
  contains w t = false -> ~ In c w -> clear_before w t (c :: rest).
Proof.
  intros Hw Hc a b -> Hb.
  destruct (strip_prefix w (b ++ c :: rest)) as [r|] eqn:E; [|reflexivity].
  exfalso. apply strip_prefix_some in E.
  destruct (prefix_or_member c rest b w r E) as [[b' ->]|Hin]; [|contradiction].
  apply contains_false in Hw. apply Hw. exists a, b'. reflexivity.
Qed.

Lemma contains_char (c : ascii) (s : str) :
  contains [c] s = false -> ~ In c s.
Proof.
  intros H Hin. apply contains_false in H. apply H.
  apply in_split in Hin. destruct Hin as [pre [post ->]]. exists pre, post.
  reflexivity.
Qed.

(** A lazy run of [.] stops before the first newline when what follows
    the run matches nothing but a newline. *)
Lemma rep_lazy_stop (R : Type) (k : cont R) (rest : str) (cp : caps) :
  (forall prev j c s, c <> newline -> k prev j (c :: s) cp = None) ->
  forall value lo prev i,
    ~ In newline value -> lo <= length value ->
    rep false R false CAny lo None k prev i (value ++ newline :: rest) cp
    = k (last_char prev value) (i + length value) (newline :: rest) cp.
Proof.
  intros Hk. induction value as [|c v IH]; intros lo prev i Hnl Hlo.
  - simpl in Hlo. assert (lo = 0) by lia. subst lo.
    cbn [app rep Nat.eqb last_char length more_allowed cset_match andb].
    rewrite Nat.add_0_r.
    change (Ascii.eqb newline newline) with true. cbn [negb].
    destruct (k prev i (newline :: rest) cp); reflexivity.
  - assert (Hc : c <> newline) by (intros ->; apply Hnl; now left).
    cbn [app rep more_allowed cset_match andb].
    assert (Hstop : (if Nat.eqb lo 0 then k prev i (c :: v ++ newline :: rest) cp
                     else None) = None).
    { destruct (Nat.eqb lo 0); [now apply Hk|reflexivity]. }
    rewrite Hstop.
    assert (Hne : Ascii.eqb c newline = false) by now apply Ascii.eqb_neq.
    rewrite Hne. cbn [negb dec_hi option_map].
    rewrite IH.
    + cbn [last_char length]. now rewrite <- plus_n_Sm.
    + intros Hin. apply Hnl. now right.
    + simpl in Hlo. lia.
Qed.

(** The pattern of a header field, [label(.+?)\n]. *)
Definition field_re (label : string) : regex :=
  lit label >> Grp 1 (lazy_plus CAny) >> One (CChar newline).

Lemma field_re_needs_label (label : string) (prev : option ascii) (i : nat) (s : str) :
  strip_prefix (L label) s = None -> match_here false (field_re label) prev i s = None.
Proof.
  intros H. unfold match_here, field_re, lit. cbn [rmatch].
  now rewrite rmatch_literal, H.
Qed.

Lemma field_re_match (label : string) (value rest : str) (prev : option ascii)
    (i : nat) :
  value <> [] -> ~ In newline value ->
  match_here false (field_re label) prev i (L label ++ value ++ newline :: rest)
  = Some (S (i + length (L label) + length value),
          [(1, (i + length (L label), i + length (L label) + length value))]).
Proof.
  intros Hne Hnl. unfold match_here, field_re, lit. cbn [rmatch].
  rewrite rmatch_literal.
  rewrite (proj2 (strip_prefix_some (L label) _ (value ++ newline :: rest)) eq_refl).
  cbn [rmatch lazy_plus]. rewrite rep_lazy_stop.
  - cbn [rmatch cset_match]. change (Ascii.eqb newline newline) with true.
    reflexivity.
  - intros p j c s Hc. cbn [rmatch cset_match].
    assert (Hn : Ascii.eqb newline c = false) by (apply Ascii.eqb_neq; congruence).
    now rewrite Hn.
  - exact Hnl.
  - destruct value; [contradiction|simpl; lia].
Qed.

Lemma scan_first (icase : bool) (r : regex) (pre s : str) (e : nat) (cp : caps) :
  (forall a b, pre = a ++ b -> b <> [] ->
     match_here icase r (last_char None a) (length a) (b ++ s) = None) ->
  match_here icase r (last_char None pre) (length pre) s = Some (e, cp) ->
  search icase r (pre ++ s) = Some (MkMatch (length pre) e cp).
Proof.
  intros Hpre Hm. unfold search, finditer.
  rewrite scan_gap by (intros a b Hab Hb; exact (Hpre a b Hab Hb)).
  cbn [Nat.add]. destruct s as [|c s]; cbn [scan]; rewrite Hm; reflexivity.
Qed.

(** A header field is read from the first line that starts with its
    label, wherever the label stands first in the text. *)
Lemma header_field_here (label : string) (pre value rest : str) :
  clear_before (L label) pre (L label ++ value ++ newline :: rest) ->
  value <> [] -> ~ In newline value ->
  header_field label (pre ++ L label ++ value ++ newline :: rest)
  = Some (strip value).
Proof.
  intros Hclear Hne Hnl. unfold header_field. fold (field_re label).
  rewrite (scan_first false (field_re label) pre _
             (S (length pre + length (L label) + length value))
             [(1, (length pre + length (L label),
                   length pre + length (L label) + length value))]).
  - unfold group. cbn [m_caps cap_lookup Nat.eqb]. f_equal. f_equal.
    replace (pre ++ L label ++ value ++ newline :: rest)
      with ((pre ++ L label) ++ value ++ newline :: rest)
      by now rewrite <- app_assoc.
    replace (length pre + length (L label)) with (length (pre ++ L label))
      by apply length_app.
    apply (slice_app_middle (pre ++ L label) value (newline :: rest)).
  - intros a b Hab Hb. apply field_re_needs_label. now apply (Hclear a b).
  - now apply field_re_match.
Qed.

(** The three lines before the fields of the header. *)
Definition header_lines : str :=
  line80 "#"%char ++ newline
  :: L "RALPH LAUREN ESG ANALYSIS - EXTRACTED TEXT" ++ newline
  :: line80 "#"%char ++ [newline].

Lemma save_extracted_text_layout (text_by_page : list PageText)
    (pdf_name year doc_type now : str) :
  exists rest,
    save_extracted_text text_by_page pdf_name year doc_type now
    = header_lines ++ L "Source File: " ++ pdf_name ++ newline
      :: L "Year: " ++ year ++ newline
      :: L "Document Type: " ++ doc_type ++ newline :: rest.
Proof.
  exists (L "Total Pages: " ++ str_of_nat (length text_by_page) ++ newline
          :: L "Extraction Date: " ++ now ++ newline
          :: line80 "#"%char ++ [newline; newline] ++ file_body text_by_page).
  unfold save_extracted_text, file_header, header_lines. app_norm. reflexivity.
Qed.

Ltac clear_here := apply starts_nowhere_clear; reflexivity.

(** What stage 2 reads from a text that starts with the header lines
    and the three fields. *)
Lemma header_fields_read (pdf_name year doc_type rest : str) :
  pdf_name <> [] -> contains [newline] pdf_name = false ->
  contains (L "Year: ") pdf_name = false ->
  contains (L "Document Type: ") pdf_name = false ->
  year <> [] -> contains [newline] year = false ->
  contains (L "Document Type: ") year = false ->
  doc_type <> [] -> contains [newline] doc_type = false ->
  extract_metadata_from_header
    (header_lines ++ L "Source File: " ++ pdf_name ++ newline
     :: L "Year: " ++ year ++ newline
     :: L "Document Type: " ++ doc_type ++ newline :: rest)
  = {| md_source_file := Some (strip pdf_name);
       md_year := Some (strip year);
       md_document_type := Some (strip doc_type) |}.
Proof.
  intros Hn1 Hn2 Hn3 Hn4 Hy1 Hy2 Hy3 Hd1 Hd2.
  apply contains_char in Hn2, Hy2, Hd2.
  unfold extract_metadata_from_header. f_equal.
  - apply header_field_here; auto. clear_here.
  - replace (header_lines ++ L "Source File: " ++ pdf_name ++ newline
             :: L "Year: " ++ year ++ newline
             :: L "Document Type: " ++ doc_type ++ newline :: rest)
      with ((header_lines ++ L "Source File: " ++ pdf_name ++ [newline])
            ++ L "Year: " ++ year ++ newline
               :: L "Document Type: " ++ doc_type ++ newline :: rest)
      by (app_norm; reflexivity).
    apply header_field_here; auto.
    apply clear_before_app; [clear_here|].
    apply clear_before_app; [clear_here|].
    apply clear_before_app; [|clear_here].
    apply clear_before_text; [exact Hn3|].
    simpl. intros H. repeat (destruct H as [H|H]; [discriminate|]). contradiction.
  - replace (header_lines ++ L "Source File: " ++ pdf_name ++ newline
             :: L "Year: " ++ year ++ newline
             :: L "Document Type: " ++ doc_type ++ newline :: rest)
      with ((header_lines ++ L "Source File: " ++ pdf_name ++ [newline]
             ++ L "Year: " ++ year ++ [newline])
            ++ L "Document Type: " ++ doc_type ++ newline :: rest)
      by (app_norm; reflexivity).
    apply header_field_here; auto.
    apply clear_before_app; [clear_here|].
    apply clear_before_app; [clear_here|].
    apply clear_before_app.
    { apply clear_before_text; [exact Hn4|].
      simpl. intros H. repeat (destruct H as [H|H]; [discriminate|]). contradiction. }
    apply clear_before_app; [clear_here|].
    apply clear_before_app; [clear_here|].
    apply clear_before_app; [|clear_here].
    apply clear_before_text; [exact Hy3|].
    simpl. intros H. repeat (destruct H as [H|H]; [discriminate|]). contradiction.
Qed.

(** A part of a file that holds no carriage return is read as it was
    written, whatever follows it. *)
Lemma read_text_app_plain (a b : str) :
  no_carriage_return a = true -> read_text (a ++ b) = a ++ read_text b.
Proof.
  unfold no_carriage_return. rewrite negb_true_iff.
  induction a as [|c a IH]; intros H; [reflexivity|].
  cbn [existsb] in H. apply orb_false_iff in H. destruct H as [Hc Ha].
  cbn [app read_text]. rewrite Ascii.eqb_sym, Hc. f_equal. now apply IH.
Qed.

(** What stage 2 reads from the header of the file that stage 1 writes,
    read in text mode. *)
Lemma header_read_back (text_by_page : list PageText)
    (pdf_name year doc_type now : str) :
  pdf_name <> [] -> contains [newline] pdf_name = false ->
  no_carriage_return pdf_name = true ->
  contains (L "Year: ") pdf_name = false ->
  contains (L "Document Type: ") pdf_name = false ->
  year <> [] -> contains [newline] year = false ->
  no_carriage_return year = true ->
  contains (L "Document Type: ") year = false ->
  doc_type <> [] -> contains [newline] doc_type = false ->
  no_carriage_return doc_type = true ->
  extract_metadata_from_header
    (read_text (save_extracted_text text_by_page pdf_name year doc_type now))
  = {| md_source_file := Some (strip pdf_name);
       md_year := Some (strip year);
       md_document_type := Some (strip doc_type) |}.
Proof.
  intros Hn1 Hn2 Hnc Hn3 Hn4 Hy1 Hy2 Hyc Hy3 Hd1 Hd2 Hdc.
  destruct (save_extracted_text_layout text_by_page pdf_name year doc_type now)
    as [rest ->].
  replace (header_lines ++ L "Source File: " ++ pdf_name ++ newline
           :: L "Year: " ++ year ++ newline
           :: L "Document Type: " ++ doc_type ++ newline :: rest)
    with ((header_lines ++ L "Source File: " ++ pdf_name ++ newline
           :: L "Year: " ++ year ++ newline
           :: L "Document Type: " ++ doc_type ++ [newline]) ++ rest)
    by (app_norm; reflexivity).
  rewrite read_text_app_plain.
  - replace ((header_lines ++ L "Source File: " ++ pdf_name ++ newline
              :: L "Year: " ++ year ++ newline
              :: L "Document Type: " ++ doc_type ++ [newline]) ++ read_text rest)
      with (header_lines ++ L "Source File: " ++ pdf_name ++ newline
            :: L "Year: " ++ year ++ newline
            :: L "Document Type: " ++ doc_type ++ newline :: read_text rest)
      by (app_norm; reflexivity).
    now apply header_fields_read.
  - replace (header_lines ++ L "Source File: " ++ pdf_name ++ newline
             :: L "Year: " ++ year ++ newline
             :: L "Document Type: " ++ doc_type ++ [newline])
      with ((header_lines ++ L "Source File: ") ++ pdf_name
            ++ (newline :: L "Year: ") ++ year
            ++ (newline :: L "Document Type: ") ++ doc_type ++ [newline])
      by (app_norm; reflexivity).
    rewrite !no_carriage_return_app, Hnc, Hyc, Hdc. reflexivity.
Qed.

(** X9.  Stage 2 reads back from the header of a text file what stage 1
    wrote there, with the whitespace around it stripped: the name of the
    source file, the year and the document type, whatever the pages hold.
    This needs the three values to be non-empty and free of newlines and
    carriage returns (a carriage return is read as a newline), the name
    to hold neither "Year: " nor "Document Type: ", and the year not to
    hold "Document Type: ". *)
Theorem header_round_trip (text_by_page : list PageText)
    (pdf_name year doc_type now : str) :
  pdf_name <> [] -> contains [newline] pdf_name = false ->
  no_carriage_return pdf_name = true ->
  contains (L "Year: ") pdf_name = false ->
  contains (L "Document Type: ") pdf_name = false ->
  year <> [] -> contains [newline] year = false ->
  no_carriage_return year = true ->
  contains (L "Document Type: ") year = false ->
  doc_type <> [] -> contains [newline] doc_type = false ->
  no_carriage_return doc_type = true ->
  extract_metadata_from_header
    (read_text (save_extracted_text text_by_page pdf_name year doc_type now))
  = {| md_source_file := Some (strip pdf_name);
       md_year := Some (strip year);
       md_document_type := Some (strip doc_type) |}.
Proof. apply header_read_back. Qed.

Lemma header_round_trip_witness :
  extract_metadata_from_header
    (read_text
       (save_extracted_text (extract_with_pymupdf sample_texts)
          (L " report 1.pdf") (L "2023") (L "Other Report")
          (L "2024-01-01 00:00:00")))
  = {| md_source_file := Some (L "report 1.pdf");
       md_year := Some (L "2023");
       md_document_type := Some (L "Other Report") |}.
Proof.
  apply (header_round_trip (extract_with_pymupdf sample_texts)
           (L " report 1.pdf") (L "2023") (L "Other Report")
           (L "2024-01-01 00:00:00"));
    first [discriminate | reflexivity].
Defined.

(** The values [extract_year_from_path] can return. *)
Lemma extract_year_values (path_str filename : str) :
  In (extract_year_from_path path_str filename)
     [Some 2020; Some 2021; Some 2022; Some 2023; Some 2024; Some 2025; None].
Proof.
  unfold extract_year_from_path.
  destruct (contains (L "2020") path_str); [now left|].
  destruct (contains (L "2021") path_str); [right; now left|].
  destruct (contains (L "2022") path_str); [do 2 right; now left|].
  destruct (contains (L "2023") path_str); [do 3 right; now left|].
  destruct (contains (L "2024") path_str); [do 4 right; now left|].
  destruct (contains (L "2025") path_str); [do 5 right; now left|].
  destruct (find _ _) as [y|] eqn:E; [|do 6 right; now left].
  apply find_some in E. destruct E as [Hin _]. unfold In in Hin.
  repeat (destruct Hin as [<-|Hin];
          [unfold In; repeat first [left; reflexivity | right]|]).
  contradiction.
Qed.

Lemma year_text_plain (y : option nat) :
  In y [Some 2020; Some 2021; Some 2022; Some 2023; Some 2024; Some 2025; None] ->
  year_text y <> []
  /\ contains [newline] (year_text y) = false
  /\ no_carriage_return (year_text y) = true
  /\ contains (L "Document Type: ") (year_text y) = false
  /\ strip (year_text y) = year_text y.
Proof.
  intros H. unfold In in H.
  repeat (destruct H as [<-|H];
          [split; [discriminate|]; split; [reflexivity|]; split; [reflexivity|];
           split; reflexivity|]).
  contradiction.
Qed.

Lemma document_type_plain (d : str) :
  In d document_types ->
  d <> [] /\ contains [newline] d = false /\ no_carriage_return d = true
  /\ strip d = d.
Proof.
  intros H. unfold document_types in H. simpl in H.
  repeat (destruct H as [<-|H];
          [split; [discriminate|]; split; [reflexivity|]; split; reflexivity|]).
  contradiction.
Qed.

(** X10.  For a PDF file whose name is free of newlines and carriage
    returns and holds neither "Year: " nor "Document Type: ", stage 2
    reads from the text file that stage 1 writes for it, read in text
    mode, the name of the PDF file (stripped), the year that stage 1
    took from the path, or "Unknown", and the document type that stage 1
    gave the file. *)
Theorem stage1_metadata_read_by_stage2 (now now_iso : str)
    (output_path : str -> str) (pdf : Pdf) (name content : str) :
  pdf_file_name pdf <> [] ->
  contains [newline] (pdf_file_name pdf) = false ->
  no_carriage_return (pdf_file_name pdf) = true ->
  contains (L "Year: ") (pdf_file_name pdf) = false ->
  contains (L "Document Type: ") (pdf_file_name pdf) = false ->
  In (ExtractedText name content)
     (fst (fst (process_pdf now now_iso output_path pdf))) ->
  name = text_file_name pdf
  /\ extract_metadata_from_header (read_text content)
     = {| md_source_file := Some (strip (pdf_file_name pdf));
          md_year :=
            Some (year_text
                    (extract_year_from_path (pdf_path_str pdf) (pdf_file_name pdf)));
          md_document_type := Some (categorize_document (pdf_file_name pdf)) |}.
Proof.
  intros H1 H2 Hc H3 H4 Hin.
  destruct (year_text_plain _ (extract_year_values (pdf_path_str pdf)
                                 (pdf_file_name pdf)))
    as [Hy1 [Hy2 [Hyc [Hy3 Hy4]]]].
  destruct (document_type_plain _ (categorize_document_types (pdf_file_name pdf)))
    as [Hd1 [Hd2 [Hdc Hd3]]].
  unfold process_pdf, extract_text_from_pdf in Hin.
  destruct (pdf_document pdf) as [doc|]; [|contradiction].
  destruct (extract_with_pymupdf doc) as [|p ps]; [contradiction|].
  unfold save_pdf_text in Hin. cbn [fst] in Hin.
  destruct Hin as [Hin|[Hin|[]]]; [|discriminate].
  injection Hin as <- <-. split; [reflexivity|].
  rewrite header_read_back by assumption. now rewrite Hy4, Hd3.
Qed.

(** A PDF file of two pages in the directory of the year 2023. *)
Definition sample_pdf : Pdf :=
  {| pdf_path_str := L "extracted_reports/2023/RL Sustainability & Citizenship.pdf";
     pdf_file_name := L "RL Sustainability & Citizenship.pdf";
     pdf_file_stem := L "RL Sustainability & Citizenship";
     pdf_document := Some sample_texts |}.

Lemma stage1_metadata_read_by_stage2_witness :
  L "2023_RL_Sustainability_and_Citizenship_extracted.txt" = text_file_name sample_pdf
  /\ extract_metadata_from_header
       (read_text
          (save_extracted_text (extract_with_pymupdf sample_texts)
             (L "RL Sustainability & Citizenship.pdf") (L "2023")
             (L "Global Citizenship & Sustainability Report")
             (L "2024-01-01 00:00:00")))
     = {| md_source_file := Some (L "RL Sustainability & Citizenship.pdf");
          md_year := Some (L "2023");
          md_document_type := Some (L "Global Citizenship & Sustainability Report") |}.
Proof.
  apply (stage1_metadata_read_by_stage2 (L "2024-01-01 00:00:00")
           (L "2024-01-01T00:00:00") (fun name => L "text_extraction_output/" ++ name)
           sample_pdf
           (L "2023_RL_Sustainability_and_Citizenship_extracted.txt"));
    first [discriminate | reflexivity | left; reflexivity].
Defined.

(** ** Stage 2: a text file without a header *)

Lemma scan_none (icase : bool) (r : regex) (s : str) (prev : option ascii) (i : nat) :
  (forall a b, s = a ++ b ->
     match_here icase r (last_char prev a) (i + length a) b = None) ->
  scan icase r 0 prev i s = [].
Proof.
  intros H. rewrite <- (app_nil_r s).
  rewrite scan_gap.
  - cbn [scan]. rewrite (H s [] (eq_sym (app_nil_r s))). reflexivity.
  - intros a b Hab Hb. rewrite app_nil_r. now apply H.
Qed.

Lemma header_field_missing (label : string) (content : str) :
  contains (L label) content = false -> header_field label content = None.
Proof.
  intros H. unfold header_field, search, finditer. fold (field_re label).
  rewrite scan_none; [reflexivity|].
  intros a b ->. apply field_re_needs_label.
  destruct (strip_prefix (L label) b) as [r|] eqn:E; [|reflexivity].
  apply strip_prefix_some in E. subst b. apply contains_false in H.
  exfalso. apply H. now exists a, r.
Qed.

(** X11.  A key whose label does not stand in the text file is left out
    of the metadata, and the records of the file show "Unknown" for
    it. *)
Theorem metadata_without_header (content : str) :
  let md := extract_metadata_from_header content in
  (contains (L "Source File: ") content = false ->
     md_source_file md = None /\ md_get (md_source_file md) = L "Unknown")
  /\ (contains (L "Year: ") content = false ->
        md_year md = None /\ md_get (md_year md) = L "Unknown")
  /\ (contains (L "Document Type: ") content = false ->
        md_document_type md = None /\ md_get (md_document_type md) = L "Unknown").
Proof.
  unfold extract_metadata_from_header. cbn [md_source_file md_year md_document_type].
  repeat split; rewrite header_field_missing by assumption; reflexivity.
Qed.

Lemma metadata_without_header_witness :
  md_year (extract_metadata_from_header
             (L "Source File: notes.pdf" ++ newline :: L "Our target for 2030"))
  = None.
Proof.
  apply (proj1 (proj2 (metadata_without_header
                         (L "Source File: notes.pdf" ++ newline
                          :: L "Our target for 2030")))).
  reflexivity.
Defined.

(** ** Stage 2: commitment phrases *)

Lemma strip_prefix_length (w s rest : str) :
  strip_prefix w s = Some rest -> s = firstn (length w) s ++ rest
                                  /\ rest = skipn (length w) s.
Proof.
  intros H. apply strip_prefix_some in H. subst s.
  rewrite firstn_app, firstn_all, Nat.sub_diag, skipn_app, skipn_all, Nat.sub_diag.
  simpl. rewrite app_nil_r. auto.
Qed.

(** With [re.IGNORECASE], a literal is matched where the text in lower
    case starts with the literal in lower case. *)
Lemma match_here_literal_icase (w : str) :
  forall prev i s,
    match_here true (lit_chars w) prev i s
    = match strip_prefix (lower w) (lower s) with
      | Some _ => Some (i + length w, [])
      | None => None
      end.
Proof.
  unfold match_here.
  assert (H : forall (k : cont (nat * caps)) prev i s,
            (forall p j t t', k p j t [] = k p j t' []) ->
            rmatch true (nat * caps) (lit_chars w) k prev i s []
            = match strip_prefix (lower w) (lower s) with
              | Some _ => k (last_char prev (firstn (length w) s)) (i + length w)
                            (skipn (length w) s) []
              | None => None
              end).
  { induction w as [|c w IH]; intros k prev i s Hk.
    - simpl. now rewrite Nat.add_0_r.
    - destruct s as [|d s]; [reflexivity|].
      unfold lower in *. cbn [lit_chars rmatch cset_match map strip_prefix].
      destruct (Ascii.eqb (lower_char c) (lower_char d)); [|reflexivity].
      rewrite IH by exact Hk. cbn [length firstn skipn last_char].
      now rewrite <- plus_n_Sm. }
  intros prev i s. now rewrite H.
Qed.

Lemma scan_literal_icase (w : str) :
  forall s skip prev i,
    scan true (lit_chars w) skip prev i s
    = map (fun p => MkMatch p (p + length w) [])
        (occurrences_from (lower w) skip i (lower s)).
Proof.
  induction s as [|c s IH]; intros skip prev i.
  - destruct skip; simpl; [|reflexivity].
    rewrite match_here_literal_icase. simpl.
    destruct (strip_prefix (lower w) []); reflexivity.
  - change (lower (c :: s)) with (lower_char c :: lower s).
    destruct skip as [|n]; cbn [scan occurrences_from].
    + rewrite match_here_literal_icase.
      change (lower (c :: s)) with (lower_char c :: lower s).
      destruct (strip_prefix (lower w) (lower_char c :: lower s));
        cbn [map]; rewrite IH; [|reflexivity].
      replace (i + length w - i - 1) with (length (lower w) - 1)
        by (rewrite length_lower; lia).
      reflexivity.
    + apply IH.
Qed.

Lemma occurrences_none (w : str) :
  forall s skip i, contains w s = false -> occurrences_from w skip i s = [].
Proof.
  induction s as [|c s IH]; intros skip i H; rewrite contains_unfold in H.
  - destruct (strip_prefix w []) eqn:E; [discriminate|].
    destruct skip; simpl; [rewrite E|]; reflexivity.
  - destruct (strip_prefix w (c :: s)) eqn:E; [discriminate|].
    destruct skip; cbn [occurrences_from]; [rewrite E|]; now apply IH.
Qed.

(** The phrases of the three lists are written in lower case. *)
Definition commitment_phrases : list (strength * list string) :=
  [ (Strong, commitment_strong); (Moderate, commitment_moderate);
    (WeakHedging, commitment_weak) ].

Lemma commitment_phrases_lower :
  forall s phrases phrase,
    In (s, phrases) commitment_phrases -> In phrase phrases ->
    lower (L phrase) = L phrase.
Proof.
  assert (H : forallb (fun sp => forallb (fun phrase =>
                         str_eqb (lower (L phrase)) (L phrase)) (snd sp))
                commitment_phrases = true) by reflexivity.
  intros s phrases phrase Hs Hp. rewrite forallb_forall in H.
  specialize (H _ Hs). cbn [snd] in H. rewrite forallb_forall in H.
  specialize (H _ Hp). unfold str_eqb in H.
  destruct (list_eq_dec ascii_dec (lower (L phrase)) (L phrase)); [assumption|discriminate].
Qed.

(** The records of one phrase: one for every occurrence of the phrase in
    the text in lower case, found from left to right without overlap;
    the test [phrase in text.lower()] changes nothing. *)
Lemma language_of_phrase (md : Metadata) (page : Page) (s : strength)
    (phrase : string) :
  lower (L phrase) = L phrase ->
  (if contains (L phrase) (lower (text page))
   then map (language_entry md page s) (finditer true (lit phrase) (text page))
   else [])
  = map (fun p => language_entry md page s (MkMatch p (p + length (L phrase)) []))
      (occurrences (L phrase) (lower (text page))).
Proof.
  intros Hl. unfold finditer, lit, occurrences.
  rewrite scan_literal_icase, Hl, map_map.
  destruct (contains (L phrase) (lower (text page))) eqn:E; [reflexivity|].
  now rewrite occurrences_none.
Qed.

Lemma lower_slice (s : str) (a b : nat) : lower (slice s a b) = slice (lower s) a b.
Proof. unfold slice, lower. now rewrite <- firstn_map, <- skipn_map. Qed.

Lemma occurrence_text (w s : str) (p : nat) :
  In p (occurrences w s) -> slice s p (p + length w) = w.
Proof.
  unfold occurrences. intros H. apply occurrences_occur in H.
  destruct H as [q [-> [pre [post [-> <-]]]]]. apply slice_app_middle.
Qed.

Fixpoint total (l : list nat) : nat :=
  match l with
  | [] => 0
  | n :: l' => n + total l'
  end.

Lemma length_flat_map {A B : Type} (f : A -> list B) (l : list A) :
  length (flat_map f l) = total (map (fun x => length (f x)) l).
Proof.
  induction l as [|a l IH]; simpl; [reflexivity|].
  now rewrite length_app, IH.
Qed.

Lemma language_of_phrases_count (md : Metadata) (page : Page) (s : strength)
    (phrases : list string) :
  In (s, phrases) commitment_phrases ->
  length (language_of_phrases md page s phrases)
  = total (map (fun phrase => count_occurrences (L phrase) (lower (text page)))
             phrases).
Proof.
  intros Hs. unfold language_of_phrases. rewrite length_flat_map. f_equal.
  apply map_ext_in. intros phrase Hp.
  rewrite language_of_phrase by exact (commitment_phrases_lower s phrases phrase Hs Hp).
  now rewrite length_map.
Qed.

(** X12.  On every page whose text has only characters with code
    points below 256 (Latin-1, the texts of this model), the number of
    language records is the number of occurrences of the 25 commitment
    phrases in the text of the page in lower case, each phrase counted
    from left to right without overlap, as [str.count] counts; every
    record holds the phrase as the page writes it, which in lower case
    is a phrase of the list of the strength of the record.  (Beyond
    Latin-1 the property fails: [re.IGNORECASE] lets ["s"] match the
    long s, U+017F, which [str.lower] leaves as it is.) *)
Theorem language_records_of_page (md : Metadata) (page : Page) :
  length (language_of_page md page)
  = total (map (fun phrase => count_occurrences (L phrase) (lower (text page)))
             (commitment_strong ++ commitment_moderate ++ commitment_weak))
  /\ forall r, In r (language_of_page md page) ->
       exists phrases phrase,
         In (l_commitment_strength r, phrases) commitment_phrases
         /\ In phrase phrases
         /\ lower (l_phrase r) = L phrase.
Proof.
  split.
  - unfold language_of_page. rewrite !length_app, !map_app.
    rewrite !language_of_phrases_count by (simpl; tauto).
    assert (Ht : forall a b, total (a ++ b) = total a + total b).
    { induction a as [|x a IH]; intros b; simpl; [reflexivity|].
      rewrite IH. lia. }
    now rewrite !Ht.
  - intros r Hr.
    assert (H : forall s phrases,
              In (s, phrases) commitment_phrases ->
              In r (language_of_phrases md page s phrases) ->
              exists phrase,
                l_commitment_strength r = s /\ In phrase phrases
                /\ lower (l_phrase r) = L phrase).
    { intros s phrases Hs Hin. unfold language_of_phrases in Hin.
      apply in_flat_map in Hin. destruct Hin as [phrase [Hp Hin]].
      pose proof (commitment_phrases_lower s phrases phrase Hs Hp) as Hl.
      rewrite (language_of_phrase md page s phrase Hl) in Hin.
      apply in_map_iff in Hin. destruct Hin as [p [<- Hocc]].
      exists phrase. split; [reflexivity|]. split; [exact Hp|].
      cbn [l_phrase language_entry]. unfold group0. cbn [m_start m_end].
      rewrite lower_slice.
      rewrite <- (length_lower (L phrase)), Hl.
      now apply occurrence_text. }
    unfold language_of_page in Hr.
    apply in_app_or in Hr. destruct Hr as [Hr|Hr];
      [|apply in_app_or in Hr; destruct Hr as [Hr|Hr]].
    + destruct (H Strong commitment_strong ltac:(simpl; tauto) Hr)
        as [phrase [Hs [Hp Hl]]].
      exists commitment_strong, phrase. rewrite Hs. simpl. tauto.
    + destruct (H Moderate commitment_moderate ltac:(simpl; tauto) Hr)
        as [phrase [Hs [Hp Hl]]].
      exists commitment_moderate, phrase. rewrite Hs. simpl. tauto.
    + destruct (H WeakHedging commitment_weak ltac:(simpl; tauto) Hr)
        as [phrase [Hs [Hp Hl]]].
      exists commitment_weak, phrase. rewrite Hs. simpl. tauto.
Qed.

(** ** Stage 2: the containers over a run *)

(** The containers of [a] followed by those of [b]. *)
Definition merge (a b : Extractor) : Extractor :=
  {| targets_data := targets_data a ++ targets_data b;
     language_data := language_data a ++ language_data b;
     initiatives_data := initiatives_data a ++ initiatives_data b;
     impact_areas_data := impact_areas_data a ++ impact_areas_data b |}.

Lemma merge_new_r (a : Extractor) : merge a new_extractor = a.
Proof. destruct a. unfold merge. simpl. now rewrite !app_nil_r. Qed.

Lemma merge_assoc (a b c : Extractor) : merge (merge a b) c = merge a (merge b c).
Proof. unfold merge. simpl. now rewrite <- !app_assoc. Qed.

Lemma extract_all_merge (pages : list Page) (md : Metadata) (ex : Extractor) :
  extract_all pages md ex = merge ex (extract_all pages md new_extractor).
Proof. reflexivity. Qed.

Lemma process_file_merge (f : TextFile) (ex : Extractor) :
  process_file f ex
  = (merge ex (fst (process_file f new_extractor)), snd (process_file f new_extractor)).
Proof.
  unfold process_file.
  destruct (parse_text_file f) as [[md pages]|e] eqn:Hp.
  - rewrite !(process_body_ok f md pages _ Hp). cbn [fst snd].
    now rewrite extract_all_merge.
  - rewrite !(process_body_raise f e _ Hp). cbn [fst snd].
    now rewrite merge_new_r.
Qed.

Lemma process_files_merge (fs : list TextFile) :
  forall ex,
    process_files fs ex
    = (merge ex (fst (process_files fs new_extractor)),
       snd (process_files fs new_extractor)).
Proof.
  induction fs as [|f fs IH]; intros ex.
  - simpl. now rewrite merge_new_r.
  - cbn [process_files]. rewrite (process_file_merge f ex).
    destruct (process_file f new_extractor) as [ex1 out1]. cbn [fst snd].
    rewrite (IH (merge ex ex1)), (IH ex1).
    destruct (process_files fs new_extractor) as [ex2 out2]. cbn [fst snd].
    now rewrite merge_assoc.
Qed.

(** X13.  The containers only grow: a run over text files leaves what
    the containers held before in front, unchanged, and appends what a
    run over the same files with empty containers gives; the records of
    a run over several files are those of the runs over the parts, in
    the order of the files, and so is the output. *)
Theorem process_files_appends (fs1 fs2 : list TextFile) (ex : Extractor) :
  process_files fs1 ex
  = (merge ex (fst (process_files fs1 new_extractor)),
     snd (process_files fs1 new_extractor))
  /\ process_files (fs1 ++ fs2) new_extractor
     = (merge (fst (process_files fs1 new_extractor))
              (fst (process_files fs2 new_extractor)),
        snd (process_files fs1 new_extractor)
        ++ snd (process_files fs2 new_extractor)).
Proof.
  split; [apply process_files_merge|].
  rewrite process_files_app.
  now rewrite (process_files_merge fs2 (fst (process_files fs1 new_extractor))).
Qed.

(** ** Stage 2: the statistics file *)

Lemma add_count_total (key : str) (n : nat) (acc : list (str * nat)) :
  total (map snd (add_count key n acc)) = total (map snd acc) + n.
Proof.
  induction acc as [|[k c] acc IH]; simpl; [lia|].
  destruct (str_eqb k key); simpl; [lia|]. rewrite IH. lia.
Qed.

Lemma add_count_keys (key : str) (n : nat) (acc : list (str * nat)) (k : str) :
  In k (map fst (add_count key n acc)) <-> k = key \/ In k (map fst acc).
Proof.
  induction acc as [|[k' c] acc IH]; simpl.
  - intuition.
  - destruct (str_eqb k' key) eqn:E; simpl.
    + apply str_eqb_eq in E. subst k'. intuition.
    + rewrite IH. intuition.
Qed.

Lemma add_count_nodup (key : str) (n : nat) (acc : list (str * nat)) :
  NoDup (map fst acc) -> NoDup (map fst (add_count key n acc)).
Proof.
  induction acc as [|[k c] acc IH]; intros H; simpl.
  - constructor; [intros []|constructor].
  - inversion H as [|? ? Hnot Hrest]; subst.
    destruct (str_eqb k key) eqn:E; simpl.
    + constructor; assumption.
    + constructor; [|now apply IH].
      rewrite add_count_keys. intros [->|Hin]; [|contradiction].
      assert (Ht : str_eqb key key = true) by now apply str_eqb_eq.
      congruence.
Qed.

Lemma sum_by_key_spec (kv : list (str * nat)) :
  total (map snd (sum_by_key kv)) = total (map snd kv)
  /\ NoDup (map fst (sum_by_key kv))
  /\ forall k, In k (map fst (sum_by_key kv)) <-> In k (map fst kv).
Proof.
  unfold sum_by_key.
  assert (H : forall acc,
            NoDup (map fst acc) ->
            let r := fold_left (fun acc p => add_count (fst p) (snd p) acc) kv acc in
            total (map snd r) = total (map snd acc) + total (map snd kv)
            /\ NoDup (map fst r)
            /\ forall k, In k (map fst r) <-> In k (map fst acc) \/ In k (map fst kv)).
  { induction kv as [|[key n] kv IH]; intros acc Hn; simpl.
    - split; [lia|]. split; [exact Hn|]. intuition.
    - destruct (IH (add_count key n acc) (add_count_nodup key n acc Hn))
        as [Ht [Hn' Hk]].
      split; [rewrite Ht, add_count_total; lia|]. split; [exact Hn'|].
      intros k. rewrite Hk, add_count_keys. intuition. }
  destruct (H [] ltac:(constructor)) as [Ht [Hn Hk]].
  split; [exact Ht|]. split; [exact Hn|]. intros k. rewrite Hk. simpl. tauto.
Qed.

Lemma insert_by_key_perm (p : str * nat) (l : list (str * nat)) :
  Permutation (insert_by_key p l) (p :: l).
Proof.
  induction l as [|q l IH]; simpl; [reflexivity|].
  destruct (str_leb (fst p) (fst q)); [reflexivity|].
  eapply Permutation_trans; [apply perm_skip, IH|apply perm_swap].
Qed.

Lemma sort_index_perm (l : list (str * nat)) : Permutation (sort_index l) l.
Proof.
  unfold sort_index. induction l as [|p l IH]; simpl; [constructor|].
  eapply Permutation_trans; [apply insert_by_key_perm|now apply perm_skip].
Qed.

Lemma total_perm (l l' : list nat) : Permutation l l' -> total l = total l'.
Proof. induction 1; simpl; lia. Qed.

(** The order of strings by code points. *)
Lemma str_leb_total (a b : str) : str_leb a b = false -> str_leb b a = true.
Proof.
  revert b. induction a as [|c a IH]; intros [|d b]; simpl; try discriminate; auto.
  destruct (N.ltb_spec (code c) (code d)); [discriminate|].
  destruct (N.ltb_spec (code d) (code c)); [reflexivity|]. apply IH.
Qed.

Lemma str_leb_trans (a b c : str) :
  str_leb a b = true -> str_leb b c = true -> str_leb a c = true.
Proof.
  revert b c. induction a as [|x a IH]; intros [|y b] [|z c]; simpl;
    try discriminate; auto.
  destruct (N.ltb_spec (code x) (code y)), (N.ltb_spec (code y) (code z)),
    (N.ltb_spec (code x) (code z)); try reflexivity; try lia;
    destruct (N.ltb_spec (code y) (code x)), (N.ltb_spec (code z) (code y)),
      (N.ltb_spec (code z) (code x)); try discriminate; try lia; try reflexivity.
  apply IH.
Qed.

Definition keys_ascending (rows : list (str * nat)) : Prop :=
  StronglySorted (fun a b => str_leb a b = true) (map fst rows).

Lemma insert_by_key_sorted (p : str * nat) (l : list (str * nat)) :
  keys_ascending l -> keys_ascending (insert_by_key p l).
Proof.
  unfold keys_ascending. induction l as [|q l IH]; intros Hs; simpl.
  - repeat constructor.
  - simpl in Hs. inversion Hs as [|? ? Hs' Hall]; subst.
    destruct (str_leb (fst p) (fst q)) eqn:E; simpl.
    + constructor; [constructor; auto|]. constructor; [exact E|].
      eapply Forall_impl; [|exact Hall]. simpl. intros k Hk.
      now apply (str_leb_trans _ (fst q)).
    + constructor; [now apply IH|].
      apply Forall_forall. intros k Hk.
      apply (Permutation_in k (Permutation_map fst (insert_by_key_perm p l))) in Hk.
      destruct Hk as [<-|Hk]; [now apply str_leb_total|].
      rewrite Forall_forall in Hall. now apply Hall.
Qed.

Lemma sort_index_sorted (l : list (str * nat)) : keys_ascending (sort_index l).
Proof.
  unfold sort_index. induction l as [|p l IH]; simpl.
  - constructor.
  - now apply insert_by_key_sorted.
Qed.

(** The years of the targets with the number of targets of each. *)
Definition targets_by_year (ts : list TargetRecord) : list (str * nat) :=
  sort_index (sum_by_key (map (fun t => (t_year t, 1)) ts)).

Lemma targets_by_year_spec (ts : list TargetRecord) :
  total (map snd (targets_by_year ts)) = length ts
  /\ NoDup (map fst (targets_by_year ts))
  /\ keys_ascending (targets_by_year ts)
  /\ forall y, In y (map fst (targets_by_year ts))
               <-> exists t, In t ts /\ t_year t = y.
Proof.
  unfold targets_by_year.
  destruct (sum_by_key_spec (map (fun t => (t_year t, 1)) ts)) as [Ht [Hn Hk]].
  pose proof (sort_index_perm (sum_by_key (map (fun t => (t_year t, 1)) ts))) as Hp.
  split; [|split; [|split; [apply sort_index_sorted|]]].
  - rewrite (total_perm _ _ (Permutation_map snd Hp)), Ht, map_map. simpl.
    clear. induction ts as [|t ts IH]; simpl; [reflexivity|]. now rewrite IH.
  - exact (Permutation_NoDup (Permutation_sym (Permutation_map fst Hp)) Hn).
  - intros y. split.
    + intros H. apply (Permutation_in y (Permutation_map fst Hp)) in H.
      apply Hk in H. rewrite map_map in H. simpl in H. apply in_map_iff in H.
      destruct H as [t [<- Hin]]. eauto.
    + intros [t [Hin <-]].
      apply (Permutation_in _ (Permutation_sym (Permutation_map fst Hp))).
      apply Hk. rewrite map_map. simpl.
      now apply (in_map (fun t => t_year t)).
Qed.

(** X14.  When targets were extracted, the statistics file has the
    section "Targets by Year:" with one line for every year that a target
    record carries, the years in ascending order of their text, and the
    numbers of these lines add up to the number of target records. *)
Theorem statistics_targets_by_year (now : str)
    (sort_desc : list (str * nat) -> list (str * nat)) (ex : Extractor) :
  targets_data ex <> [] ->
  exists rows before after,
    create_summary_statistics now sort_desc ex
    = before ++ section_lines "Targets by Year:" [] rows ++ after
    /\ total (map snd rows) = length (targets_data ex)
    /\ NoDup (map fst rows)
    /\ keys_ascending rows
    /\ forall y, In y (map fst rows)
                 <-> exists t, In t (targets_data ex) /\ t_year t = y.
Proof.
  intros Hne. exists (targets_by_year (targets_data ex)).
  unfold create_summary_statistics.
  destruct (targets_data ex) as [|t ts] eqn:E; [contradiction|].
  fold (targets_by_year (t :: ts)).
  eexists. eexists. split; [reflexivity|]. apply targets_by_year_spec.
Qed.

Lemma statistics_targets_by_year_witness :
  exists rows before after,
    create_summary_statistics (L "2024-01-02 10:00:00") (fun l => l)
      (fst (process_files [sample_file] new_extractor))
    = before ++ section_lines "Targets by Year:" [] rows ++ after
    /\ total (map snd rows)
       = length (targets_data (fst (process_files [sample_file] new_extractor)))
    /\ NoDup (map fst rows)
    /\ keys_ascending rows
    /\ forall y, In y (map fst rows)
                 <-> exists t,
                       In t (targets_data
                               (fst (process_files [sample_file] new_extractor)))
                       /\ t_year t = y.
Proof.
  apply (statistics_targets_by_year (L "2024-01-02 10:00:00") (fun l => l)
           (fst (process_files [sample_file] new_extractor))).
  vm_compute. discriminate.
Defined.

(** ** The master script *)

Definition is_running (e : master_event) : bool :=
  match e with Running _ => true | _ => false end.

(** The script of the step exists and its process ends with return
    code 0. *)
Definition step_succeeds (run : string -> script_run) (step : string * string) : bool :=
  match run (fst step) with
  | ScriptExited _ _ returncode => Z.eqb returncode 0
  | _ => false
  end.

Definition step_fails (run : string -> script_run) (step : string * string) : bool :=
  negb (step_succeeds run step).

Lemma run_script_result (run : string -> script_run) (script_name description : string) :
  fst (run_script run script_name description)
  = step_succeeds run (script_name, description)
  /\ filter is_running (snd (run_script run script_name description))
     = [Running script_name].
Proof.
  unfold run_script, step_succeeds. cbn [fst].
  destruct (run script_name) as [|stdout stderr returncode|]; [auto| |auto].
  destruct (Z.eqb returncode 0), stdout, stderr; auto.
Qed.

Lemma run_steps_result (run : string -> script_run) (steps : list (string * string)) :
  forall success_steps failed_steps,
    exists out,
      run_steps run steps success_steps failed_steps
      = (success_steps ++ map snd (filter (step_succeeds run) steps),
         failed_steps ++ map snd (filter (step_fails run) steps),
         out)
      /\ filter is_running out = map (fun step => Running (fst step)) steps.
Proof.
  induction steps as [|[script_name description] steps IH];
    intros success_steps failed_steps.
  - exists []. simpl. now rewrite !app_nil_r.
  - cbn [run_steps filter]. unfold step_fails.
    destruct (run_script_result run script_name description) as [Hok Hout].
    destruct (run_script run script_name description) as [success out1].
    cbn [fst snd] in Hok, Hout. rewrite <- Hok.
    destruct success; cbn [negb map].
    + destruct (IH (success_steps ++ [description]) failed_steps) as [out' [-> Hrun]].
      exists (out1 ++ out'). split.
      * now rewrite <- app_assoc.
      * rewrite filter_app, Hout, Hrun. reflexivity.
    + destruct (IH success_steps (failed_steps ++ [description])) as [out' [-> Hrun]].
      exists (out1 ++ ContinuingAfter description :: out'). split.
      * now rewrite <- app_assoc.
      * rewrite filter_app. cbn [filter is_running]. rewrite Hout, Hrun. reflexivity.
Qed.

(** X16.  When the directory of the reports holds a PDF file, the
    master script runs the three scripts in the order of the pipeline,
    whichever of them fail, and writes the log: a step is listed as
    completed when its script exists and its process ends with return
    code 0, and as failed otherwise; the section of the failed steps is
    there only when a step failed.  When the directory is missing or
    holds no PDF file, no script is run and no log is written. *)
Theorem run_complete_analysis_steps (run : string -> script_run) :
  (forall n,
     filter is_running (fst (run_complete_analysis run (Some (S n))))
     = map (fun step => Running (fst step)) scripts
     /\ snd (run_complete_analysis run (Some (S n)))
        = Some {| completed_steps := map snd (filter (step_succeeds run) scripts);
                  failed_section :=
                    match filter (step_fails run) scripts with
                    | [] => None
                    | failed => Some (map snd failed)
                    end |})
  /\ filter is_running (fst (run_complete_analysis run None)) = []
  /\ snd (run_complete_analysis run None) = None
  /\ filter is_running (fst (run_complete_analysis run (Some 0))) = []
  /\ snd (run_complete_analysis run (Some 0)) = None.
Proof.
  split.
  - intros n. unfold run_complete_analysis, check_prerequisites. cbn [Nat.eqb].
    destruct (run_steps_result run scripts [] []) as [out [-> Hout]].
    cbn [fst snd app]. split.
    + cbn [filter is_running]. rewrite filter_app, Hout. cbn [filter is_running].
      destruct (map snd (filter (step_fails run) scripts));
        cbn [is_running]; now rewrite app_nil_r.
    + unfold create_analysis_log. f_equal. f_equal.
      destruct (filter (step_fails run) scripts); reflexivity.
  - repeat split; reflexivity.
Qed.


(** ** Stage 2: the text a keyword matched *)

(** A lower bound of the length of what an expression matches. *)
Fixpoint min_length (r : regex) : nat :=
  match r with
  | Eps | WordB | Opt _ => 0
  | One _ => 1
  | Seq r1 r2 => min_length r1 + min_length r2
  | Alt r1 r2 => Nat.min (min_length r1) (min_length r2)
  | Rep _ lo _ _ => lo
  | Grp _ r1 => min_length r1
  end.

Lemma sem_min_length (icase : bool) (r : regex) :
  forall prev w rest, sem icase r prev w rest -> min_length r <= length w.
Proof.
  induction r as [|cs| |r1 IH1 r2 IH2|r1 IH1 r2 IH2|r1 IH1|greedy lo hi cs|n r1 IH1];
    intros prev w rest H; simpl in *.
  - lia.
  - destruct H as [c [-> _]]. simpl. lia.
  - lia.
  - destruct H as [w1 [w2 [-> [H1 H2]]]]. rewrite length_app.
    apply IH1 in H1. apply IH2 in H2. lia.
  - destruct H as [H|H]; [apply IH1 in H|apply IH2 in H]; lia.
  - lia.
  - tauto.
  - eapply IH1; eauto.
Qed.

(** A piece of one line of the text: not empty, without a newline, and
    standing in the text. *)
Definition piece_of_line (w txt : str) : Prop :=
  w <> [] /\ ~ In newline w /\ occurs_in w txt.

(** An expression that matches at least one character and of which no
    part takes a newline. *)
Definition within_line (icase : bool) (r : regex) : bool :=
  ((1 <=? min_length r) && negb (accepts icase r newline))%bool.

Lemma finditer_piece (icase : bool) (r : regex) (txt : str) (mo : rmatch_obj) :
  within_line icase r = true ->
  In mo (finditer icase r txt) ->
  piece_of_line (group0 txt mo) txt.
Proof.
  unfold within_line. rewrite andb_true_iff, Nat.leb_le, negb_true_iff.
  intros [Hmin Hnl] Hmo. unfold finditer in Hmo. apply scan_sound in Hmo.
  destruct Hmo as [a [b [-> [Hs Hm]]]]. simpl in Hs.
  apply match_here_sound in Hm. destruct Hm as [w [rest [-> [Hsem He]]]].
  unfold group0. rewrite Hs, He. simpl. rewrite (slice_app_middle a w rest).
  split; [|split].
  - apply sem_min_length in Hsem. destruct w; [simpl in Hsem; lia|discriminate].
  - intros Hin. apply sem_accepts in Hsem. rewrite Forall_forall in Hsem.
    rewrite (Hsem newline Hin) in Hnl. discriminate.
  - exists a, rest. reflexivity.
Qed.

(** X17.  In every target record and in every initiative record the
    keyword that matched, and in every language record the phrase, is a
    piece of one line of the text of the page: it is not empty, holds no
    newline, and stands in the text of the page as the page writes
    it. *)
Theorem keyword_matched_piece_of_line (md : Metadata) (page : Page) :
  (forall r, In r (targets_of_page md page) ->
     piece_of_line (t_keyword_matched r) (text page))
  /\ (forall r, In r (initiatives_of_page md page) ->
        piece_of_line (i_keyword_matched r) (text page))
  /\ (forall r, In r (language_of_page md page) ->
        piece_of_line (l_phrase r) (text page)).
Proof.
  split; [|split].
  - intros r Hr. apply targets_of_page_inv in Hr.
    destruct Hr as [pattern [mo [Hp [Hmo ->]]]]. cbn [t_keyword_matched target_entry].
    apply (finditer_piece true pattern); [|exact Hmo].
    assert (H : forallb (within_line true) target_keywords = true) by reflexivity.
    rewrite forallb_forall in H. now apply H.
  - intros r Hr. apply initiatives_of_page_inv in Hr.
    destruct Hr as [pattern [mo [Hp [Hmo ->]]]].
    cbn [i_keyword_matched initiative_entry].
    apply (finditer_piece true pattern); [|exact Hmo].
    assert (H : forallb (within_line true) initiative_keywords = true) by reflexivity.
    rewrite forallb_forall in H. now apply H.
  - intros r Hr. apply language_of_page_inv in Hr.
    destruct Hr as [s [phrases [phrase [mo [Hs [Hp [_ [Hmo ->]]]]]]]].
    cbn [l_phrase language_entry].
    apply (finditer_piece true (lit phrase)); [|exact Hmo].
    assert (H : forallb (fun sp => forallb (fun p => within_line true (lit p)) (snd sp))
                  commitment_phrases = true) by reflexivity.
    rewrite forallb_forall in H. specialize (H _ Hs). cbn [snd] in H.
    rewrite forallb_forall in H. now apply H.
Qed.

(** ** The matcher finds every match *)

Section Completeness.

Variable icase : bool.
Variable R : Type.

Lemma rep_complete (greedy : bool) (cs : cset) (k : cont R) (rest : str) (cp : caps) :
  forall w lo hi prev i,
    Forall (fun c => cset_match icase cs c = true) w ->
    lo <= length w ->
    match hi with Some h => length w <= h | None => True end ->
    k (last_char prev w) (i + length w) rest cp <> None ->
    rep icase R greedy cs lo hi k prev i (w ++ rest) cp <> None.
Proof.
  induction w as [|c w IH]; intros lo hi prev i Hw Hlo Hhi Hk.
  - simpl in Hlo, Hk. assert (lo = 0) by lia. subst lo.
    rewrite Nat.add_0_r in Hk. simpl app.
    destruct rest as [|c rest]; [exact Hk|]. cbn [rep Nat.eqb].
    destruct greedy.
    + destruct (if (more_allowed hi && cset_match icase cs c)%bool
                then rep icase R true cs (pred 0) (dec_hi hi) k (Some c) (S i) rest cp
                else None); [discriminate|exact Hk].
    + destruct (k prev i (c :: rest) cp); [discriminate|contradiction].
  - inversion Hw as [|? ? Hc Hw']; subst. simpl in Hlo, Hk.
    assert (Hmore : more_allowed hi = true).
    { destruct hi as [h|]; [|reflexivity]. simpl in Hhi. unfold more_allowed.
      destruct h; [lia|reflexivity]. }
    assert (Hin : rep icase R greedy cs (pred lo) (dec_hi hi) k (Some c) (S i)
                    (w ++ rest) cp <> None).
    { apply IH; auto; [lia| |].
      - destruct hi as [h|]; simpl in *; [lia|exact I].
      - rewrite <- plus_n_Sm in Hk. exact Hk. }
    simpl app. cbn [rep]. rewrite Hmore, Hc. cbn [andb].
    destruct greedy.
    + destruct (rep icase R true cs (pred lo) (dec_hi hi) k (Some c) (S i)
                  (w ++ rest) cp); [discriminate|contradiction].
    + destruct (if Nat.eqb lo 0 then k prev i (c :: w ++ rest) cp else None);
        [discriminate|exact Hin].
Qed.

(** Where the expression can match and what follows succeeds after
    that match, the matcher succeeds (with this or with a match it
    prefers). *)
Lemma rmatch_complete (r : regex) :
  forall (k : cont R) prev i w rest,
    sem icase r prev w rest ->
    (forall cp, k (last_char prev w) (i + length w) rest cp <> None) ->
    forall cp, rmatch icase R r k prev i (w ++ rest) cp <> None.
Proof.
  induction r as [|cs| |r1 IH1 r2 IH2|r1 IH1 r2 IH2|r1 IH1|greedy lo hi cs|n r1 IH1];
    intros k prev i w rest Hs Hk cp; cbn [sem] in Hs; cbn [rmatch].
  - subst w. specialize (Hk cp). simpl in Hk. now rewrite Nat.add_0_r in Hk.
  - destruct Hs as [c [-> Hc]]. cbn [app]. rewrite Hc.
    specialize (Hk cp). simpl in Hk. now rewrite Nat.add_1_r in Hk.
  - destruct Hs as [-> Hb]. cbn [app]. rewrite Hb.
    specialize (Hk cp). simpl in Hk. now rewrite Nat.add_0_r in Hk.
  - destruct Hs as [w1 [w2 [-> [H1 H2]]]]. rewrite <- app_assoc.
    apply IH1; [exact H1|]. intros cp'. apply IH2; [exact H2|].
    intros cp''. specialize (Hk cp'').
    now rewrite last_char_app, length_app, Nat.add_assoc in Hk.
  - destruct Hs as [Hs|Hs].
    + pose proof (IH1 k prev i w rest Hs Hk cp) as H.
      destruct (rmatch icase R r1 k prev i (w ++ rest) cp); [discriminate|contradiction].
    + pose proof (IH2 k prev i w rest Hs Hk cp) as H.
      destruct (rmatch icase R r1 k prev i (w ++ rest) cp); [discriminate|exact H].
  - destruct Hs as [Hs | ->].
    + pose proof (IH1 k prev i w rest Hs Hk cp) as H.
      destruct (rmatch icase R r1 k prev i (w ++ rest) cp); [discriminate|contradiction].
    + simpl app. specialize (Hk cp). simpl in Hk. rewrite Nat.add_0_r in Hk.
      destruct (rmatch icase R r1 k prev i rest cp); [discriminate|exact Hk].
  - destruct Hs as [Hw [Hlo Hhi]]. apply rep_complete; auto.
  - apply IH1; [exact Hs|]. intros cp'. apply Hk.
Qed.

End Completeness.

Lemma match_here_complete (icase : bool) (r : regex) (prev : option ascii) (i : nat)
    (w rest : str) :
  sem icase r prev w rest -> match_here icase r prev i (w ++ rest) <> None.
Proof.
  intros H. unfold match_here.
  apply (rmatch_complete icase (nat * caps) r _ prev i w rest H). discriminate.
Qed.

(** What a literal matches. *)
Lemma sem_lit_chars (icase : bool) (s : str) :
  forall prev rest, sem icase (lit_chars (if icase then lower s else s)) prev s rest
                    \/ icase = true.
Proof. intros. destruct icase; [now right|left]. revert prev.
  induction s as [|c s IH]; intros prev; cbn [lit_chars sem]; [reflexivity|].
  exists [c], s. split; [reflexivity|]. split; [|apply IH].
  exists c. split; [reflexivity|]. cbn [cset_match]. apply Ascii.eqb_refl.
Qed.

Lemma sem_literal_self (s : str) (prev : option ascii) (rest : str) :
  sem false (lit_chars s) prev s rest.
Proof.
  destruct (sem_lit_chars false s prev rest) as [H|H]; [exact H|discriminate].
Qed.

(** The first match of a scan: either the expression matches at no
    offset of the text, or there is a first offset where it does. *)
Lemma first_match (icase : bool) (r : regex) :
  forall s prev i,
    (forall a b, s = a ++ b ->
       match_here icase r (last_char prev a) (i + length a) b = None)
    \/ exists gap b e cp,
         s = gap ++ b
         /\ (forall a' b', gap = a' ++ b' -> b' <> [] ->
               match_here icase r (last_char prev a') (i + length a') (b' ++ b) = None)
         /\ match_here icase r (last_char prev gap) (i + length gap) b = Some (e, cp).
Proof.
  induction s as [|c s IH]; intros prev i.
  - destruct (match_here icase r prev i []) as [[e cp]|] eqn:E.
    + right. exists [], [], e, cp. simpl. rewrite Nat.add_0_r.
      split; [reflexivity|]. split; [|exact E].
      intros a' b' H Hb. destruct a'; destruct b'; try discriminate. contradiction.
    + left. intros a b H. destruct a; destruct b; try discriminate.
      simpl. now rewrite Nat.add_0_r.
  - destruct (match_here icase r prev i (c :: s)) as [[e cp]|] eqn:E.
    + right. exists [], (c :: s), e, cp. simpl. rewrite Nat.add_0_r.
      split; [reflexivity|]. split; [|exact E].
      intros a' b' H Hb. destruct a'; destruct b'; try discriminate. contradiction.
    + destruct (IH (Some c) (S i)) as [Hnone|[gap [b [e [cp [-> [Hgap Hm]]]]]]].
      * left. intros a b H. destruct a as [|d a]; simpl in H.
        -- subst b. simpl. now rewrite Nat.add_0_r.
        -- injection H as <- ->. simpl. rewrite <- plus_n_Sm.
           now apply Hnone.
      * right. exists (c :: gap), b, e, cp. split; [reflexivity|]. split.
        -- intros a' b' H Hb. destruct a' as [|d a']; simpl in H.
           ++ subst b'. simpl. now rewrite Nat.add_0_r.
           ++ injection H as <- ->. simpl. rewrite <- plus_n_Sm. now apply Hgap.
        -- simpl. now rewrite <- plus_n_Sm.
Qed.

(** ** Stage 2: the percentages of a target *)

Fixpoint no_groups (r : regex) : bool :=
  match r with
  | Grp _ _ => false
  | Seq r1 r2 | Alt r1 r2 => (no_groups r1 && no_groups r2)%bool
  | Opt r1 => no_groups r1
  | Eps | One _ | WordB | Rep _ _ _ _ => true
  end.

(** An expression without groups leaves the captured groups as they
    are. *)
Lemma rmatch_sound_caps (icase : bool) (R : Type) (r : regex) :
  no_groups r = true ->
  forall (k : cont R) prev i s cp x,
    rmatch icase R r k prev i s cp = Some x ->
    exists w rest,
      s = w ++ rest
      /\ sem icase r prev w rest
      /\ k (last_char prev w) (i + length w) rest cp = Some x.
Proof.
  induction r as [|cs| |r1 IH1 r2 IH2|r1 IH1 r2 IH2|r1 IH1|greedy lo hi cs|n r1 IH1];
    intros Hg k prev i s cp x H; simpl in H, Hg.
  - exists [], s. simpl. rewrite Nat.add_0_r. auto.
  - destruct s as [|c s]; [discriminate|].
    destruct (cset_match icase cs c) eqn:Hc; [|discriminate].
    exists [c], s. simpl. rewrite Nat.add_1_r. eauto.
  - destruct (xorb (word_before prev) (word_after s)) eqn:Hb; [|discriminate].
    exists [], s. simpl. rewrite Nat.add_0_r. auto.
  - apply andb_true_iff in Hg. destruct Hg as [Hg1 Hg2].
    apply (IH1 Hg1) in H. destruct H as [w1 [rest1 [-> [H1 H]]]].
    apply (IH2 Hg2) in H. destruct H as [w2 [rest [-> [H2 H]]]].
    exists (w1 ++ w2), rest. rewrite <- app_assoc, last_char_app, length_app.
    rewrite Nat.add_assoc. split; [reflexivity|]. split; [|exact H].
    simpl. eauto.
  - apply andb_true_iff in Hg. destruct Hg as [Hg1 Hg2].
    destruct (rmatch icase R r1 k prev i s cp) as [y|] eqn:E.
    + injection H as ->. apply (IH1 Hg1) in E.
      destruct E as [w [rest [-> [Hs Hk]]]]. exists w, rest. simpl. auto.
    + apply (IH2 Hg2) in H.
      destruct H as [w [rest [-> [Hs Hk]]]]. exists w, rest. simpl. auto.
  - destruct (rmatch icase R r1 k prev i s cp) as [y|] eqn:E.
    + injection H as ->. apply (IH1 Hg) in E.
      destruct E as [w [rest [-> [Hs Hk]]]]. exists w, rest. simpl. auto.
    + exists [], s. simpl. rewrite Nat.add_0_r. auto.
  - apply rep_sound in H. exact H.
  - discriminate.
Qed.

(** A decimal number: digits, or digits, a point and digits. *)
Definition decimal_number (p : str) : Prop :=
  exists d1, digits d1
             /\ (p = d1 \/ exists d2, digits d2 /\ p = d1 ++ "."%char :: d2).


(** A percentage stands at the head of [s]: the number [num], then
    whitespace [ws], then ["%"]. *)
Definition percentage_at (s num ws rest : str) : Prop :=
  s = num ++ ws ++ "%"%char :: rest
  /\ decimal_number num
  /\ Forall (fun c => is_space c = true) ws.

Lemma percentage_match (prev : option ascii) (i : nat) (s : str) (e : nat) (cp : caps) :
  match_here false percentage_re prev i s = Some (e, cp) ->
  exists num ws rest,
    percentage_at s num ws rest
    /\ e = i + length (num ++ ws ++ ["%"%char])
    /\ cap_lookup 1 cp = Some (i, i + length num).
Proof.
  unfold match_here, percentage_re. intros H.
  change (rmatch false (nat * caps)
            (plus CDigit >> Opt (lit "." >> plus CDigit))
            (fun prev' i' s' cp' =>
               rmatch false (nat * caps) (star CSpace >> lit "%")
                 (fun _ i'' _ cp'' => Some (i'', cp''))
                 prev' i' s' ((1, (i, i')) :: cp'))
            prev i s [] = Some (e, cp)) in H.
  apply rmatch_sound_caps in H; [|reflexivity].
  destruct H as [num [rest1 [-> [Hnum H]]]].
  apply rmatch_sound_caps in H; [|reflexivity].
  destruct H as [w2 [rest [-> [Hw2 H]]]]. injection H as <- <-.
  unfold plus, star, lit in Hnum, Hw2. cbn [sem L list_ascii_of_string lit_chars] in Hnum, Hw2.
  destruct Hnum as [d1 [o [-> [[Hd1 [Hl1 _]] Ho]]]].
  destruct Hw2 as [ws [l [-> [[Hws _] [pc [e0 [-> [[c [-> Hc]] ->]]]]]]]].
  cbn [cset_match] in Hc. apply Ascii.eqb_eq in Hc. subst c.
  exists (d1 ++ o), ws, rest. split; [|split; [|reflexivity]].
  - split; [now rewrite <- !app_assoc|]. split; [|exact Hws].
    exists d1. split; [now apply forall_digits|].
    destruct Ho as [[l1 [d2 [-> [[pt [e1 [-> [[c [-> Hc]] ->]]]] [Hd2 [Hl2 _]]]]]]| ->].
    + cbn [cset_match] in Hc. apply Ascii.eqb_eq in Hc. subst c.
      right. exists d2. split; [now apply forall_digits|reflexivity].
    + left. now rewrite app_nil_r.
  - cbn [app]. rewrite ?length_app. cbn [length]. rewrite ?length_app.
    cbn [length]. lia.
Qed.

Lemma digits_forall (d : str) :
  digits d -> Forall (fun c => cset_match false CDigit c = true) d /\ 1 <= length d.
Proof.
  intros [Hn Hd]. split.
  - apply Forall_forall. rewrite forallb_forall in Hd. exact Hd.
  - destruct d; [contradiction|simpl; lia].
Qed.

Lemma percentage_sem (prev : option ascii) (num ws rest : str) :
  decimal_number num -> Forall (fun c => is_space c = true) ws ->
  sem false percentage_re prev (num ++ ws ++ ["%"%char]) rest.
Proof.
  intros [d1 [Hd1 Hnum]] Hws. unfold percentage_re. cbn [sem].
  exists num, (ws ++ ["%"%char]). split; [reflexivity|]. split.
  - apply digits_forall in Hd1. destruct Hd1 as [Hd1 Hl1].
    destruct Hnum as [->|[d2 [Hd2 ->]]].
    + exists d1, []. split; [now rewrite app_nil_r|]. unfold plus. cbn [sem].
      split; [auto|]. now right.
    + apply digits_forall in Hd2. destruct Hd2 as [Hd2 Hl2].
      exists d1, ("."%char :: d2). split; [reflexivity|]. unfold plus. cbn [sem].
      split; [auto|]. left. exists ["."%char], d2. split; [reflexivity|].
      split; [apply (sem_literal_self (L "."))|auto].
  - exists ws, ["%"%char]. split; [reflexivity|]. unfold star. cbn [sem].
    split; [split; [exact Hws|split; [lia|exact I]]|].
    apply (sem_literal_self (L "%")).
Qed.

Lemma percentage_none (prev : option ascii) (i : nat) (s : str) :
  match_here false percentage_re prev i s = None ->
  forall num ws rest, ~ percentage_at s num ws rest.
Proof.
  intros H num ws rest [-> [Hnum Hws]].
  apply (match_here_complete false percentage_re prev i (num ++ ws ++ ["%"%char]) rest).
  - now apply percentage_sem.
  - rewrite <- !app_assoc. exact H.
Qed.

(** The percentages of a text: the numbers of the percentages found
    from left to right, every search starting where the percentage
    found before it ends. *)
Inductive percentages_of : str -> list str -> Prop :=
| percentages_done (s : str) :
    (forall a b num ws rest, s = a ++ b -> ~ percentage_at b num ws rest) ->
    percentages_of s []
| percentages_next (gap num ws rest : str) (ps : list str) :
    (forall a b num' ws' rest',
       gap = a ++ b -> b <> [] ->
       ~ percentage_at (b ++ num ++ ws ++ "%"%char :: rest) num' ws' rest') ->
    decimal_number num ->
    Forall (fun c => is_space c = true) ws ->
    percentages_of rest ps ->
    percentages_of (gap ++ num ++ ws ++ "%"%char :: rest) (num :: ps).

Lemma scan_percentages (ctx : str) :
  forall n s pre,
    length s <= n ->
    ctx = pre ++ s ->
    percentages_of s
      (map (fun mo => group ctx mo 1)
         (scan false percentage_re 0 (last_char None pre) (length pre) s)).
Proof.
  induction n as [|n IH]; intros s pre Hlen Hctx.
  - destruct s; [|simpl in Hlen; lia]. cbn [scan].
    destruct (match_here false percentage_re (last_char None pre) (length pre) [])
      as [[e cp]|] eqn:E.
    + apply percentage_match in E. destruct E as [num [ws [rest [[E _] _]]]].
      destruct num; destruct ws; discriminate.
    + constructor. intros a b num ws rest H.
      destruct a; destruct b; try discriminate.
      now apply (percentage_none _ _ _ E).
  - destruct (first_match false percentage_re s (last_char None pre) (length pre))
      as [Hnone|[gap [b [e [cp [-> [Hgap Hm]]]]]]].
    + rewrite (scan_none false percentage_re s _ _ Hnone). constructor.
      intros a b num ws rest H. exact (percentage_none _ _ _ (Hnone a b H) num ws rest).
    + rewrite (scan_gap false percentage_re b gap _ _ Hgap).
      pose proof Hm as Hm'. apply percentage_match in Hm'.
      destruct Hm' as [num [ws [rest [[-> [Hnum Hws]] [He Hcap]]]]].
      replace (num ++ ws ++ "%"%char :: rest)
        with ((num ++ ws ++ ["%"%char]) ++ rest) in Hm |- *
        by (rewrite <- !app_assoc; reflexivity).
      rewrite He in Hm. rewrite (scan_match false percentage_re _ rest _ _ cp);
        [|destruct num; destruct ws; discriminate|exact Hm].
      cbn [map]. unfold group at 1. cbn [m_caps]. rewrite Hcap.
      assert (Hslice : slice ctx (length pre + length gap)
                         (length pre + length gap + length num) = num).
      { rewrite Hctx, <- length_app.
        replace (pre ++ gap ++ num ++ ws ++ "%"%char :: rest)
          with ((pre ++ gap) ++ num ++ (ws ++ "%"%char :: rest))
          by (now rewrite <- !app_assoc).
        apply slice_app_middle. }
      rewrite Hslice.
      replace ((num ++ ws ++ ["%"%char]) ++ rest)
        with (num ++ ws ++ "%"%char :: rest)
        by (rewrite <- !app_assoc; reflexivity).
      apply percentages_next; auto.
      * intros a b' num' ws' rest' Hab Hb.
        apply (percentage_none (last_char (last_char None pre) a)
                 (length pre + length a)).
        now apply Hgap.
      * rewrite <- !last_char_app.
        replace (length pre + length gap + length (num ++ ws ++ ["%"%char]))
          with (length (pre ++ gap ++ num ++ ws ++ ["%"%char]))
          by (rewrite !length_app; lia).
        apply IH.
        -- rewrite !length_app in Hlen. cbn [length] in Hlen.
           rewrite ?length_app in Hlen. cbn [length] in Hlen. lia.
        -- rewrite Hctx. rewrite <- !app_assoc. reflexivity.
Qed.

Lemma findall_percentages_listed (ctx : str) :
  percentages_of ctx (findall1 false percentage_re ctx).
Proof.
  unfold findall1, finditer.
  exact (scan_percentages ctx (length ctx) ctx [] (le_n _) eq_refl).
Qed.

(** *** At most one list of percentages *)

Definition head_fails (P : ascii -> bool) (x : str) : Prop :=
  match x with
  | c :: _ => P c = false
  | [] => True
  end.

(** A run of characters of a class that ends before a character outside
    the class is the same run in every reading of the text. *)
Lemma run_unique (P : ascii -> bool) (a : str) :
  forall a' x x',
    forallb P a = true -> forallb P a' = true ->
    head_fails P x -> head_fails P x' ->
    a ++ x = a' ++ x' -> a = a' /\ x = x'.
Proof.
  induction a as [|c a IH]; intros a' x x' Ha Ha' Hx Hx' H.
  - destruct a' as [|c' a']; [auto|]. simpl in H. subst x. simpl in Hx, Ha'.
    apply andb_true_iff in Ha'. destruct Ha' as [Hc _]. congruence.
  - destruct a' as [|c' a'].
    + simpl in H. subst x'. simpl in Hx', Ha.
      apply andb_true_iff in Ha. destruct Ha as [Hc _]. congruence.
    + simpl in H. injection H as <- H. simpl in Ha, Ha'.
      apply andb_true_iff in Ha, Ha'. destruct Ha as [_ Ha]. destruct Ha' as [_ Ha'].
      destruct (IH a' x x' Ha Ha' Hx Hx' H) as [-> ->]. auto.
Qed.

Lemma space_not_digit (c : ascii) : is_space c = true -> is_digit c = false.
Proof.
  destruct c as [[] [] [] [] [] [] [] []]; intros H;
    first [reflexivity | vm_compute in H; discriminate H].
Qed.

Lemma head_after_number (P : ascii -> bool) (ws rest : str) :
  (forall c, is_space c = true -> P c = false) -> P "%"%char = false ->
  Forall (fun c => is_space c = true) ws ->
  head_fails P (ws ++ "%"%char :: rest).
Proof.
  intros Hs Hp Hws. destruct ws as [|c ws]; [exact Hp|].
  inversion Hws; subst. simpl. now apply Hs.
Qed.

Lemma spaces_forallb (ws : str) :
  Forall (fun c => is_space c = true) ws -> forallb is_space ws = true.
Proof. intros H. apply forallb_forall. rewrite Forall_forall in H. exact H. Qed.

Lemma after_spaces_unique (ws ws' rest rest' : str) :
  Forall (fun c => is_space c = true) ws ->
  Forall (fun c => is_space c = true) ws' ->
  ws ++ "%"%char :: rest = ws' ++ "%"%char :: rest' ->
  ws = ws' /\ rest = rest'.
Proof.
  intros Hws Hws' H.
  destruct (run_unique is_space ws ws' ("%"%char :: rest) ("%"%char :: rest')
              (spaces_forallb _ Hws) (spaces_forallb _ Hws')
              eq_refl eq_refl H) as [-> Hr].
  injection Hr as ->. auto.
Qed.

(** The percentage that stands at the head of a text is one. *)
Lemma percentage_at_unique (s num ws rest num' ws' rest' : str) :
  percentage_at s num ws rest -> percentage_at s num' ws' rest' ->
  num = num' /\ ws = ws' /\ rest = rest'.
Proof.
  intros [Hs [[d1 [[_ Hd1] Hnum]] Hws]] [Hs' [[d1' [[_ Hd1'] Hnum']] Hws']].
  assert (Hdot : forall d2 t, head_fails is_digit ("."%char :: d2 ++ t))
    by (intros; reflexivity).
  assert (Hafter : forall w t, Forall (fun c => is_space c = true) w ->
            head_fails is_digit (w ++ "%"%char :: t))
    by (intros w t Hw; apply head_after_number;
        [exact space_not_digit|reflexivity|exact Hw]).
  assert (Hnodot : forall w t d t',
            Forall (fun c => is_space c = true) w ->
            w ++ "%"%char :: t = "."%char :: d ++ t' -> False).
  { intros w t d t' Hw H. destruct w as [|c w]; simpl in H; [discriminate|].
    injection H as -> _. inversion Hw; subst. discriminate. }
  subst s.
  destruct Hnum as [->|[d2 [[_ Hd2] ->]]]; destruct Hnum' as [->|[d2' [[_ Hd2'] ->]]].
  - destruct (run_unique is_digit d1 d1' _ _ Hd1 Hd1'
                (Hafter ws rest Hws) (Hafter ws' rest' Hws') Hs') as [-> H].
    destruct (after_spaces_unique _ _ _ _ Hws Hws' H) as [-> ->]. auto.
  - rewrite <- app_assoc in Hs'. simpl in Hs'.
    destruct (run_unique is_digit d1 d1' _ _ Hd1 Hd1'
                (Hafter ws rest Hws) (Hdot d2' (ws' ++ "%"%char :: rest')) Hs')
      as [_ H].
    exfalso. exact (Hnodot _ _ _ _ Hws H).
  - rewrite <- app_assoc in Hs'. simpl in Hs'.
    destruct (run_unique is_digit d1 d1' _ _ Hd1 Hd1'
                (Hdot d2 (ws ++ "%"%char :: rest)) (Hafter ws' rest' Hws') Hs')
      as [_ H].
    exfalso. exact (Hnodot _ _ _ _ Hws' (eq_sym H)).
  - rewrite <- !app_assoc in Hs'. simpl in Hs'.
    destruct (run_unique is_digit d1 d1' _ _ Hd1 Hd1'
                (Hdot d2 (ws ++ "%"%char :: rest))
                (Hdot d2' (ws' ++ "%"%char :: rest')) Hs') as [-> H].
    injection H as H.
    destruct (run_unique is_digit d2 d2' _ _ Hd2 Hd2'
                (Hafter ws rest Hws) (Hafter ws' rest' Hws') H) as [-> H'].
    destruct (after_spaces_unique _ _ _ _ Hws Hws' H') as [-> ->]. auto.
Qed.

Lemma percentages_of_unique (s : str) (ps : list str) :
  percentages_of s ps -> forall ps', percentages_of s ps' -> ps = ps'.
Proof.
  induction 1 as [s Hnone|gap num ws rest ps Hgap Hnum Hws Hrest IH]; intros ps' H'.
  - inversion H' as [|gap' num' ws' rest' ps'' Hgap' Hnum' Hws' Hrest' Hs]; subst;
      [reflexivity|].
    exfalso. apply (Hnone gap' (num' ++ ws' ++ "%"%char :: rest') num' ws' rest' eq_refl).
    repeat split; auto.
  - inversion H' as [s' Hnone|gap' num' ws' rest' ps'' Hgap' Hnum' Hws' Hrest' Hs];
      subst.
    + exfalso.
      apply (Hnone gap (num ++ ws ++ "%"%char :: rest) num ws rest eq_refl).
      repeat split; auto.
    + apply app_eq_app in Hs. destruct Hs as [l [[-> Hl]|[-> Hl]]].
      * destruct l as [|c l].
        -- simpl in Hl. rewrite app_nil_r in *.
           destruct (percentage_at_unique (num ++ ws ++ "%"%char :: rest)
                       num ws rest num' ws' rest') as [-> [_ ->]].
           { repeat split; auto. } { split; [exact Hl|]. split; auto. }
           f_equal. now apply IH.
        -- exfalso.
           apply (Hgap' gap (c :: l) num ws rest eq_refl ltac:(discriminate)).
           split; [|split; auto]. rewrite <- Hl. reflexivity.
      * destruct l as [|c l].
        -- simpl in Hl. rewrite app_nil_r in *.
           destruct (percentage_at_unique (num ++ ws ++ "%"%char :: rest)
                       num ws rest num' ws' rest') as [-> [_ ->]].
           { repeat split; auto. } { split; [exact (eq_sym Hl)|]. split; auto. }
           f_equal. now apply IH.
        -- exfalso.
           apply (Hgap gap' (c :: l) num' ws' rest' eq_refl ltac:(discriminate)).
           split; [|split; auto]. rewrite <- Hl. reflexivity.
Qed.

(** X18.  The target records of a page stand one for one, and in the
    same order, for the matches of the target patterns on the page, and
    every record belongs to its own match: its keyword is the text of
    the match and its text are the first 300 characters of the context
    of the match.  The percentages of the record are the numbers of the
    percentages of that context and no others, joined by [", "]: the
    percentages found from left to right, every search starting where
    the percentage before it ends, where a percentage is a decimal
    number (digits, or digits, a point and digits), whitespace if any,
    and ["%"].  There is one such list. *)
Theorem target_percentages (md : Metadata) (page : Page) :
  Forall2
    (fun r mo =>
       let context := collapse_ws (strip (window 200 (text page) mo)) in
       t_keyword_matched r = group0 (text page) mo
       /\ t_target_text r = firstn 300 context
       /\ exists percentages,
            t_percentages r = join_comma percentages
            /\ percentages_of context percentages
            /\ forall others, percentages_of context others -> others = percentages)
    (targets_of_page md page) (target_matches page).
Proof.
  rewrite targets_of_page_matches. apply Forall2_map_self. intros mo.
  cbn [target_entry t_keyword_matched t_target_text t_percentages].
  unfold target_context.
  split; [reflexivity|]. split; [reflexivity|].
  eexists. split; [reflexivity|].
  split; [apply findall_percentages_listed|].
  intros others H. symmetry.
  exact (percentages_of_unique _ _ (findall_percentages_listed _) _ H).
Qed.

(** ** Stage 2: the investment amount of an initiative *)

(** A dollar amount: ["$"], the number (digits and commas, then at most
    one point with digits after it) and at most one of the units, with
    spaces allowed before the number and before the unit. *)
Definition dollar_amount (w : str) : Prop :=
  exists sp1 num frac sp2 unit,
    w = "$"%char :: sp1 ++ num ++ frac ++ sp2 ++ unit
    /\ Forall (fun c => is_space c = true) sp1
    /\ num <> []
    /\ Forall (fun c => is_digit c = true \/ c = ","%char) num
    /\ (frac = [] \/ exists d, digits d /\ frac = "."%char :: d)
    /\ Forall (fun c => is_space c = true) sp2
    /\ In unit [[]; L "million"; L "billion"; L "M"; L "B"].

Lemma currency_sem (prev : option ascii) (w rest : str) :
  sem false currency_re prev w rest -> dollar_amount w.
Proof.
  unfold currency_re, plus, star. cbn [sem].
  intros [w1 [x1 [-> [H1 H]]]].
  destruct H as [sp1 [x2 [-> [[Hsp1 _] H]]]].
  destruct H as [w3 [x3 [-> [H3 H]]]].
  destruct H as [sp2 [u [-> [[Hsp2 _] Hu]]]].
  apply sem_literal in H1. subst w1.
  destruct H3 as [num [frac [-> [[Hnum [Hl _]] Hfrac]]]].
  exists sp1, num, frac, sp2, u.
  split; [cbn [L list_ascii_of_string app]; now rewrite <- !app_assoc|].
  split; [exact Hsp1|]. split; [destruct num; [simpl in Hl; lia|discriminate]|].
  split.
  { rewrite Forall_forall in *. intros c Hc. apply Hnum in Hc.
    cbn [cset_match chr L list_ascii_of_string] in Hc.
    apply orb_true_iff in Hc. destruct Hc as [Hc|Hc]; [now left|].
    right. apply Ascii.eqb_eq in Hc. now subst. }
  split.
  { destruct Hfrac as [[p [d [-> [Hp [Hd [Hdl _]]]]]]| ->]; [|now left].
    apply sem_literal in Hp. subst p. right. exists d.
    split; [now apply forall_digits|reflexivity]. }
  split; [exact Hsp2|].
  destruct Hu as [[Hu|[Hu|[Hu|Hu]]]| ->]; [apply sem_literal in Hu; subst u ..|];
    unfold In; auto 6.
Qed.

Lemma search_sound (icase : bool) (r : regex) (s : str) (mo : rmatch_obj) :
  search icase r s = Some mo ->
  exists pre w post,
    s = pre ++ w ++ post
    /\ group0 s mo = w
    /\ sem icase r (last_char None pre) w post.
Proof.
  unfold search, finditer. intros H.
  assert (Hin : In mo (scan icase r 0 None 0 s)).
  { destruct (scan icase r 0 None 0 s); [discriminate|].
    injection H as ->. now left. }
  apply scan_sound in Hin. destruct Hin as [a [b [-> [Hs Hm]]]].
  apply match_here_sound in Hm. destruct Hm as [w [rest [-> [Hsem He]]]].
  exists a, w, rest. split; [reflexivity|]. split; [|exact Hsem].
  unfold group0. rewrite Hs, He. simpl. apply slice_app_middle.
Qed.

(** Every dollar amount is a match of the currency pattern. *)
Lemma dollar_amount_sem (w : str) (prev : option ascii) (rest : str) :
  dollar_amount w -> sem false currency_re prev w rest.
Proof.
  intros [sp1 [num [frac [sp2 [u [-> [Hsp1 [Hne [Hnum [Hfrac [Hsp2 Hu]]]]]]]]]]].
  unfold currency_re, plus, star. cbn [sem].
  exists ["$"%char], (sp1 ++ num ++ frac ++ sp2 ++ u).
  split; [reflexivity|]. split; [apply (sem_literal_self (L "$"))|].
  exists sp1, (num ++ frac ++ sp2 ++ u).
  split; [reflexivity|]. split; [split; [exact Hsp1|split; [lia|exact I]]|].
  exists (num ++ frac), (sp2 ++ u).
  split; [now rewrite <- app_assoc|]. split.
  - exists num, frac. split; [reflexivity|]. split.
    + split; [|split; [destruct num; [contradiction|simpl; lia]|exact I]].
      rewrite Forall_forall in *. intros c Hc. apply Hnum in Hc.
      cbn [cset_match chr L list_ascii_of_string].
      apply orb_true_iff. destruct Hc as [Hc| ->]; [now left|right].
      apply Ascii.eqb_refl.
    + destruct Hfrac as [->|[d [Hd ->]]]; [now right|left].
      exists ["."%char], d. split; [reflexivity|].
      split; [apply (sem_literal_self (L "."))|].
      destruct (digits_forall d Hd) as [H1 H2]. split; [exact H1|split; [exact H2|exact I]].
  - exists sp2, u. split; [reflexivity|].
    split; [split; [exact Hsp2|split; [lia|exact I]]|].
    cbn [In] in Hu.
    destruct Hu as [<-|[<-|[<-|[<-|[<-|[]]]]]];
      [now right|left; left|left; right; left|left; right; right; left
      |left; right; right; right];
      apply sem_literal_self.
Qed.

(** [re.search] gives the match at the first offset of the text where
    the expression matches, and nothing where it matches at no offset. *)
Lemma search_first (icase : bool) (r : regex) (s : str) :
  match search icase r s with
  | None =>
      forall a b, s = a ++ b ->
        match_here icase r (last_char None a) (length a) b = None
  | Some mo =>
      exists gap b,
        s = gap ++ b
        /\ m_start mo = length gap
        /\ (forall a' b', gap = a' ++ b' -> b' <> [] ->
              match_here icase r (last_char None a') (length a') (b' ++ b) = None)
        /\ match_here icase r (last_char None gap) (length gap) b
           = Some (m_end mo, m_caps mo)
  end.
Proof.
  unfold search, finditer.
  destruct (first_match icase r s None 0) as [Hnone|[gap [b [e [cp [-> [Hgap Hm]]]]]]].
  - rewrite (scan_none icase r s None 0 Hnone). exact Hnone.
  - rewrite (scan_gap icase r b gap None 0 Hgap).
    simpl in Hm. simpl "+".
    destruct b as [|c b]; cbn [scan]; rewrite Hm; cbn [hd_error];
      exists gap; eexists; (split; [reflexivity|]); (split; [reflexivity|]);
      (split; [exact Hgap|exact Hm]).
Qed.

(** The matches that [extract_initiatives] visits on a page, in the
    order of its two loops: pattern after pattern, and for every
    pattern its matches from left to right. *)
Definition initiative_matches (page : Page) : list rmatch_obj :=
  flat_map (fun pattern => finditer true pattern (text page)) initiative_keywords.

Lemma initiatives_of_page_matches (md : Metadata) (page : Page) :
  initiatives_of_page md page
  = map (initiative_entry md page) (initiative_matches page).
Proof. apply flat_map_map_inner. Qed.

(** What [re.search] with the currency pattern gives on a context. *)
Lemma search_currency (context : str) :
  let amount :=
    match search false currency_re context with
    | Some cm => group0 context cm
    | None => []
    end in
  (amount = []
   /\ forall pre w post, context = pre ++ w ++ post -> ~ dollar_amount w)
  \/ (dollar_amount amount
      /\ exists pre post,
           context = pre ++ amount ++ post
           /\ forall a b w post',
                pre = a ++ b -> b <> [] -> b ++ amount ++ post = w ++ post' ->
                ~ dollar_amount w).
Proof.
  cbv zeta. pose proof (search_first false currency_re context) as H.
  destruct (search false currency_re context) as [cm|].
  - right. destruct H as [gap [b [-> [Hs [Hgap Hm]]]]].
    apply match_here_sound in Hm. destruct Hm as [w [rest [-> [Hsem He]]]].
    assert (Hg : group0 (gap ++ w ++ rest) cm = w).
    { unfold group0. rewrite Hs, He. apply slice_app_middle. }
    rewrite Hg. split; [exact (currency_sem _ _ _ Hsem)|].
    exists gap, rest. split; [reflexivity|].
    intros a b' w' post' Hab Hb Heq Hw'.
    specialize (Hgap a b' Hab Hb). rewrite Heq in Hgap.
    exact (match_here_complete false currency_re _ _ w' post'
             (dollar_amount_sem w' _ post' Hw') Hgap).
  - left. split; [reflexivity|]. intros pre w post -> Hw.
    exact (match_here_complete false currency_re _ _ w post
             (dollar_amount_sem w _ post Hw) (H pre (w ++ post) eq_refl)).
Qed.

(** X19.  The initiative records of a page stand one for one, and in
    the same order, for the matches of the initiative patterns on the
    page, and every record belongs to its own match: its keyword is the
    text of the match and its text are the first 300 characters of the
    context, the whitespace-collapsed window of 200 characters around
    the match.  The investment amount of the record is read from that
    context: it is empty exactly when no dollar amount stands anywhere
    in the context, and otherwise it is a dollar amount that stands in
    the context where the first dollar amount of the context starts.  A
    dollar amount is a dollar sign, a number of digits and commas with
    at most one decimal part, and at most one of the units million,
    billion, M and B, with whitespace allowed before the number and
    before the unit. *)
Theorem initiative_investment_amount (md : Metadata) (page : Page) :
  Forall2
    (fun r mo =>
       let context := collapse_ws (window 200 (text page) mo) in
       i_keyword_matched r = group0 (text page) mo
       /\ i_initiative_text r = firstn 300 context
       /\ ((i_investment_amount r = []
            /\ forall pre w post, context = pre ++ w ++ post -> ~ dollar_amount w)
           \/ (dollar_amount (i_investment_amount r)
               /\ exists pre post,
                    context = pre ++ i_investment_amount r ++ post
                    /\ forall a b w post',
                         pre = a ++ b -> b <> [] ->
                         b ++ i_investment_amount r ++ post = w ++ post' ->
                         ~ dollar_amount w)))
    (initiatives_of_page md page) (initiative_matches page).
Proof.
  rewrite initiatives_of_page_matches. apply Forall2_map_self. intros mo.
  cbn [initiative_entry i_keyword_matched i_initiative_text i_investment_amount].
  split; [reflexivity|]. split; [reflexivity|].
  apply search_currency.
Qed.

(** ** Stage 2: the impact areas of the statistics file *)

(** The ten impact areas of [impact_keywords]. *)
Definition impact_area_names : list str :=
  map (fun entry => L (fst entry)) impact_keywords.

Lemma impact_of_page_area (md : Metadata) (page : Page) (r : ImpactAreaRecord) :
  In r (impact_of_page md page) -> In (a_impact_area r) impact_area_names.
Proof.
  unfold impact_of_page. intros H. apply in_flat_map in H.
  destruct H as [[impact_area keywords] [He H]]. apply in_flat_map in H.
  destruct H as [keyword [Hk H]]. cbn [fst snd] in H.
  apply impact_of_keyword_inv in H. destruct H as [mo [rest [_ ->]]].
  cbn [a_impact_area impact_entry]. unfold impact_area_names.
  apply (in_map (fun entry => L (fst entry)) _ _ He).
Qed.

(** Every impact-area record of a run carries one of the ten areas. *)
Lemma process_files_areas (fs : list TextFile) :
  forall ex,
    (forall r, In r (impact_areas_data ex) -> In (a_impact_area r) impact_area_names) ->
    forall r, In r (impact_areas_data (fst (process_files fs ex))) ->
              In (a_impact_area r) impact_area_names.
Proof.
  induction fs as [|f fs IH]; intros ex Hex r Hr; [now apply Hex|].
  cbn [process_files] in Hr.
  destruct (process_file f ex) as [ex1 out1] eqn:Ef.
  specialize (IH ex1).
  destruct (process_files fs ex1) as [ex2 out2] eqn:Efs. cbn [fst] in *.
  apply IH; [|exact Hr]. clear IH Hr r Efs.
  unfold process_file in Ef.
  destruct (parse_text_file f) as [[md pages]|e] eqn:Hp.
  - rewrite (process_body_ok f md pages ex Hp) in Ef. injection Ef as <- _.
    intros r Hr. cbn in Hr. apply in_app_or in Hr. destruct Hr as [Hr|Hr].
    + now apply Hex.
    + apply in_flat_map in Hr. destruct Hr as [page [_ Hr]].
      now apply (impact_of_page_area md page).
  - rewrite (process_body_raise f e ex Hp) in Ef. injection Ef as <- _. exact Hex.
Qed.

(** The lines of the section on impact areas, before the cut to ten. *)
Definition area_rows (sort_desc : list (str * nat) -> list (str * nat))
    (ims : list ImpactAreaRecord) : list (str * nat) :=
  sort_desc
    (sort_index
       (sum_by_key (map (fun a => (a_impact_area a, a_occurrence_count a)) ims))).

Lemma area_rows_spec (sort_desc : list (str * nat) -> list (str * nat))
    (ims : list ImpactAreaRecord) :
  (forall l, Permutation (sort_desc l) l) ->
  total (map snd (area_rows sort_desc ims)) = total (map a_occurrence_count ims)
  /\ NoDup (map fst (area_rows sort_desc ims))
  /\ forall area,
       In area (map fst (area_rows sort_desc ims))
       <-> exists r, In r ims /\ a_impact_area r = area.
Proof.
  intros Hperm.
  set (kv := map (fun a => (a_impact_area a, a_occurrence_count a)) ims).
  assert (Hp : Permutation (area_rows sort_desc ims) (sum_by_key kv)).
  { unfold area_rows. eapply Permutation_trans; [apply Hperm|apply sort_index_perm]. }
  destruct (sum_by_key_spec kv) as [Ht [Hn Hk]].
  split; [|split].
  - rewrite (total_perm _ _ (Permutation_map snd Hp)), Ht.
    unfold kv. rewrite map_map. reflexivity.
  - apply (Permutation_NoDup (Permutation_sym (Permutation_map fst Hp)) Hn).
  - intros area. split.
    + intros Hin. apply (Permutation_in _ (Permutation_map fst Hp)) in Hin.
      apply Hk in Hin. unfold kv in Hin. rewrite map_map in Hin. cbn [fst] in Hin.
      apply in_map_iff in Hin. destruct Hin as [r [<- Hr]]. eauto.
    + intros [r [Hr <-]].
      apply (Permutation_in _ (Permutation_sym (Permutation_map fst Hp))).
      apply Hk. unfold kv. rewrite map_map. cbn [fst].
      now apply (in_map (fun a => a_impact_area a)).
Qed.

(** With the ten areas of the extractor the cut to ten lines drops
    nothing. *)
Lemma area_rows_all (sort_desc : list (str * nat) -> list (str * nat))
    (ims : list ImpactAreaRecord) :
  (forall l, Permutation (sort_desc l) l) ->
  (forall r, In r ims -> In (a_impact_area r) impact_area_names) ->
  firstn 10 (area_rows sort_desc ims) = area_rows sort_desc ims.
Proof.
  intros Hperm Hareas.
  destruct (area_rows_spec sort_desc ims Hperm) as [_ [Hnd Hkeys]].
  apply firstn_all2. rewrite <- (length_map fst).
  change 10 with (length impact_area_names).
  apply NoDup_incl_length; [exact Hnd|].
  intros area Hin. apply Hkeys in Hin. destruct Hin as [r [Hr <-]].
  now apply Hareas.
Qed.

(** X20.  After a run that found impact areas, the statistics file ends
    with the section "Top Impact Areas Mentioned:", and the cut to ten
    lines drops nothing: the section has one line for every impact area
    that a record carries, and the numbers of mentions of these lines add
    up to the sum of the occurrence counts of all impact-area records.
    (The order that pandas gives the lines is assumed only to be a
    rearrangement.) *)
Theorem statistics_top_impact_areas (now : str)
    (sort_desc : list (str * nat) -> list (str * nat)) (fs : list TextFile) :
  (forall l, Permutation (sort_desc l) l) ->
  impact_areas_data (fst (process_files fs new_extractor)) <> [] ->
  exists rows before,
    create_summary_statistics now sort_desc (fst (process_files fs new_extractor))
    = before ++ section_lines "Top Impact Areas Mentioned:" (L " mentions") rows
    /\ total (map snd rows)
       = total (map a_occurrence_count
                  (impact_areas_data (fst (process_files fs new_extractor))))
    /\ NoDup (map fst rows)
    /\ forall area,
         In area (map fst rows)
         <-> exists r, In r (impact_areas_data (fst (process_files fs new_extractor)))
                       /\ a_impact_area r = area.
Proof.
  intros Hperm Hne.
  pose proof (process_files_areas fs new_extractor
                (fun r (H : In r []) => match H with end)) as Hareas.
  set (ex := fst (process_files fs new_extractor)) in *.
  exists (area_rows sort_desc (impact_areas_data ex)).
  unfold create_summary_statistics.
  destruct (impact_areas_data ex) as [|a ims] eqn:E; [contradiction|].
  fold (area_rows sort_desc (a :: ims)).
  rewrite (area_rows_all sort_desc (a :: ims) Hperm Hareas).
  eexists. split; [rewrite !app_assoc; reflexivity|].
  now apply area_rows_spec.
Qed.

Lemma statistics_top_impact_areas_witness :
  exists rows before,
    create_summary_statistics (L "2024-01-02 10:00:00") (fun l => l)
      (fst (process_files [sample_file] new_extractor))
    = before ++ section_lines "Top Impact Areas Mentioned:" (L " mentions") rows
    /\ total (map snd rows)
       = total (map a_occurrence_count
                  (impact_areas_data (fst (process_files [sample_file] new_extractor))))
    /\ NoDup (map fst rows)
    /\ forall area,
         In area (map fst rows)
         <-> exists r, In r (impact_areas_data
                               (fst (process_files [sample_file] new_extractor)))
                       /\ a_impact_area r = area.
Proof.
  apply (statistics_top_impact_areas (L "2024-01-02 10:00:00") (fun l => l)
           [sample_file]).
  - intros l. reflexivity.
  - vm_compute. discriminate.
Defined.

(** ** Stage 3: the summary table of the targets *)

(** The order of the numeric years: any two of them are comparable, and
    the order is transitive. *)
Definition total_preorder {A : Type} (leb : A -> A -> bool) : Prop :=
  (forall a b, leb a b = true \/ leb b a = true)
  /\ (forall a b c, leb a b = true -> leb b c = true -> leb a c = true).

Definition keys {number : Type} (l : list (number * nat)) : list number :=
  map fst l.

Definition positive_counts {number : Type} (l : list (number * nat)) : Prop :=
  Forall (fun p => 1 <= snd p) l.

(** The rows after a year with [prev] mentions. *)
Definition rows_from {number : Type} (prev : nat) (l : list (number * nat))
    : list (SummaryRow number) :=
  table_rows (map fst l) (map snd l)
    (diff_from prev (map snd l))
    (map (option_map (fun x => x * 100)%float) (pct_from prev (map snd l))).

(** Two rows that follow each other come from two entries that follow
    each other, and the later row holds the change between them. *)
Definition adjacent_entries {number : Type} (l : list (number * nat))
    (r0 r1 : SummaryRow number) : Prop :=
  exists lpre y0 c0 y1 c1 lpost,
    l = lpre ++ (y0, c0) :: (y1, c1) :: lpost
    /\ Year r0 = y0 /\ Target_Mentions r0 = c0
    /\ r1 = MkSummaryRow y1 c1 (Some (Z.of_nat c1 - Z.of_nat c0)%Z)
              (Some ((count_float c1 / count_float c0 - 1) * 100)%float).

Lemma rows_from_cons {number : Type} (prev : nat) (y : number) (c : nat)
    (l : list (number * nat)) :
  rows_from prev ((y, c) :: l)
  = MkSummaryRow y c (Some (Z.of_nat c - Z.of_nat prev)%Z)
      (Some ((count_float c / count_float prev - 1) * 100)%float)
    :: rows_from c l.
Proof. reflexivity. Qed.

Lemma summary_table_cons {number : Type} (y : number) (c : nat)
    (l : list (number * nat)) :
  summary_table ((y, c) :: l) = MkSummaryRow y c None None :: rows_from c l.
Proof. reflexivity. Qed.

Lemma rows_from_adjacent {number : Type} (l : list (number * nat)) :
  forall prev pre r0 r1 post,
    rows_from prev l = pre ++ r0 :: r1 :: post -> adjacent_entries l r0 r1.
Proof.
  induction l as [|[y c] l IH]; intros prev pre r0 r1 post H.
  - destruct pre; discriminate.
  - rewrite rows_from_cons in H. destruct pre as [|x pre].
    + simpl in H. injection H as <- H.
      destruct l as [|[y1 c1] l]; [discriminate|].
      rewrite rows_from_cons in H. injection H as <- _.
      exists [], y, c, y1, c1, l. simpl. auto.
    + simpl in H. injection H as _ H. apply IH in H.
      destruct H as [lpre [y0 [c0 [y1 [c1 [lpost [-> H]]]]]]].
      exists ((y, c) :: lpre), y0, c0, y1, c1, lpost. auto.
Qed.

Lemma summary_table_adjacent {number : Type} (l : list (number * nat))
    (pre : list (SummaryRow number)) (r0 r1 : SummaryRow number)
    (post : list (SummaryRow number)) :
  summary_table l = pre ++ r0 :: r1 :: post -> adjacent_entries l r0 r1.
Proof.
  destruct l as [|[y c] l]; intros H.
  - destruct pre; discriminate.
  - rewrite summary_table_cons in H. destruct pre as [|x pre].
    + simpl in H. injection H as <- H.
      destruct l as [|[y1 c1] l]; [discriminate|].
      rewrite rows_from_cons in H. injection H as <- _.
      exists [], y, c, y1, c1, l. simpl. auto.
    + simpl in H. injection H as _ H. apply rows_from_adjacent in H.
      destruct H as [lpre [y0 [c0 [y1 [c1 [lpost [-> H]]]]]]].
      exists ((y, c) :: lpre), y0, c0, y1, c1, lpost. auto.
Qed.

Lemma rows_from_entries {number : Type} (l : list (number * nat)) :
  forall prev,
    map (fun r => (Year r, Target_Mentions r)) (rows_from prev l) = l.
Proof.
  induction l as [|[y c] l IH]; intros prev; [reflexivity|].
  rewrite rows_from_cons. simpl. now rewrite IH.
Qed.

Lemma summary_table_entries {number : Type} (l : list (number * nat)) :
  map (fun r => (Year r, Target_Mentions r)) (summary_table l) = l.
Proof.
  destruct l as [|[y c] l]; [reflexivity|].
  rewrite summary_table_cons. simpl. now rewrite rows_from_entries.
Qed.

Lemma length_filter_map {A B : Type} (f : B -> bool) (g : A -> B) (l : list A) :
  length (filter f (map g l)) = length (filter (fun x => f (g x)) l).
Proof.
  induction l as [|a l IH]; simpl; [reflexivity|].
  destruct (f (g a)); simpl; now rewrite IH.
Qed.

Lemma sorted_adjacent {A : Type} (R : A -> A -> Prop) (pre post : list A) (a b : A) :
  StronglySorted R (pre ++ a :: b :: post) -> R a b.
Proof.
  induction pre as [|x pre IH]; simpl; intros H; inversion H as [|? ? Hs Hall]; subst.
  - inversion Hall; auto.
  - auto.
Qed.

Lemma sorted_snoc {A : Type} (R : A -> A -> Prop) (l : list A) (y : A) :
  StronglySorted R l -> Forall (fun a => R a y) l -> StronglySorted R (l ++ [y]).
Proof.
  induction l as [|a l IH]; intros Hs Hall; simpl.
  - repeat constructor.
  - inversion Hs as [|? ? Hs' Ha]; subst. inversion Hall as [|? ? Hy Hall']; subst.
    constructor; [now apply IH|].
    apply Forall_app. split; [exact Ha|]. repeat constructor. exact Hy.
Qed.

Section SummaryTable.

Variable number : Type.
Variable number_leb : number -> number -> bool.
Hypothesis number_order : total_preorder number_leb.

(** One year is before the other. *)
Definition year_lt (a b : number) : Prop := number_leb b a = false.

(** The years of two entries differ. *)
Definition year_differs (a b : number) : Prop := number_eqb number_leb a b = false.

(** The series has an entry for the year [y]. *)
Definition has_key (y : number) (l : list (number * nat)) : bool :=
  existsb (fun p => number_eqb number_leb (fst p) y) l.

(** The count that a series of counts holds for the year [y]. *)
Definition count_of (y : number) (l : list (number * nat)) : nat :=
  match find (fun p => number_eqb number_leb (fst p) y) l with
  | Some p => snd p
  | None => 0
  end.

Definition value_is (y : number) (v : option number) : bool :=
  match v with
  | Some z => number_eqb number_leb z y
  | None => false
  end.

Lemma number_eqb_refl (a : number) : number_eqb number_leb a a = true.
Proof.
  unfold number_eqb. destruct number_order as [Htot _].
  destruct (Htot a a) as [H|H]; now rewrite H.
Qed.

Lemma number_eqb_sym (a b : number) :
  number_eqb number_leb a b = number_eqb number_leb b a.
Proof. unfold number_eqb. apply andb_comm. Qed.

Lemma number_eqb_trans (a b c : number) :
  number_eqb number_leb a b = true -> number_eqb number_leb b c = true ->
  number_eqb number_leb a c = true.
Proof.
  unfold number_eqb. destruct number_order as [_ Htr].
  rewrite !andb_true_iff. intros [H1 H2] [H3 H4].
  split; eapply Htr; eauto.
Qed.

Lemma year_lt_differs (a b : number) : year_lt a b -> year_differs a b.
Proof.
  unfold year_lt, year_differs, number_eqb. intros ->. apply andb_false_r.
Qed.

Lemma year_lt_leb (a b : number) : year_lt a b -> number_leb a b = true.
Proof.
  unfold year_lt. destruct number_order as [Htot _].
  intros H. destruct (Htot a b) as [H'|H']; [exact H'|congruence].
Qed.

Lemma bump_keys (y : number) (acc : list (number * nat)) :
  keys (bump number_leb y acc)
  = if has_key y acc then keys acc else keys acc ++ [y].
Proof.
  induction acc as [|[k c] acc IH]; simpl; [reflexivity|].
  destruct (number_eqb number_leb k y); simpl; [reflexivity|].
  rewrite IH. destruct (has_key y acc); reflexivity.
Qed.

Lemma has_key_false (y : number) (acc : list (number * nat)) :
  has_key y acc = false -> Forall (fun k => year_differs k y) (keys acc).
Proof.
  induction acc as [|[k c] acc IH]; simpl; intros H; constructor.
  - apply orb_false_iff in H. exact (proj1 H).
  - apply IH. apply orb_false_iff in H. exact (proj2 H).
Qed.

Lemma bump_distinct (y : number) (acc : list (number * nat)) :
  StronglySorted year_differs (keys acc) ->
  StronglySorted year_differs (keys (bump number_leb y acc)).
Proof.
  intros H. rewrite bump_keys. destruct (has_key y acc) eqn:E; [exact H|].
  apply sorted_snoc; [exact H|now apply has_key_false].
Qed.

Lemma bump_positive (y : number) (acc : list (number * nat)) :
  positive_counts acc -> positive_counts (bump number_leb y acc).
Proof.
  unfold positive_counts.
  induction acc as [|[k c] acc IH]; intros H; simpl.
  - repeat constructor.
  - inversion H as [|? ? Hc Hacc]; subst.
    destruct (number_eqb number_leb k y); constructor; simpl in *; auto; lia.
Qed.

Lemma value_counts_spec (col : list (option number)) :
  StronglySorted year_differs (keys (value_counts number_leb col))
  /\ positive_counts (value_counts number_leb col).
Proof.
  unfold value_counts.
  assert (H : forall acc,
     StronglySorted year_differs (keys acc) /\ positive_counts acc ->
     StronglySorted year_differs (keys (fold_left
        (fun acc v => match v with Some y => bump number_leb y acc | None => acc end)
        col acc))
     /\ positive_counts (fold_left
        (fun acc v => match v with Some y => bump number_leb y acc | None => acc end)
        col acc)).
  { induction col as [|[y|] col IH]; intros acc [Hn Hp]; simpl; auto.
    apply IH. split; [now apply bump_distinct|now apply bump_positive]. }
  apply H. split; constructor.
Qed.

Lemma insert_year_keys (p : number * nat) (l : list (number * nat)) (k : number) :
  In k (keys (insert_year number_leb p l)) <-> k = fst p \/ In k (keys l).
Proof.
  induction l as [|q l IH]; simpl.
  - intuition.
  - destruct (number_leb (fst p) (fst q)); simpl.
    + intuition.
    + rewrite IH. intuition.
Qed.

Lemma insert_year_sorted (p : number * nat) (l : list (number * nat)) :
  StronglySorted year_lt (keys l) ->
  Forall (fun k => year_differs (fst p) k) (keys l) ->
  StronglySorted year_lt (keys (insert_year number_leb p l)).
Proof.
  destruct number_order as [Htot Htr].
  induction l as [|q l IH]; intros Hs Hn; simpl.
  - repeat constructor.
  - simpl in Hs. inversion Hs as [|? ? Hs' Hall]; subst.
    simpl in Hn. inversion Hn as [|? ? Hq Hn']; subst.
    destruct (number_leb (fst p) (fst q)) eqn:E; simpl.
    + assert (Hlt : year_lt (fst p) (fst q)).
      { unfold year_lt. unfold year_differs, number_eqb in Hq.
        rewrite E in Hq. exact Hq. }
      constructor; [constructor; auto|].
      constructor; [exact Hlt|].
      eapply Forall_impl; [|exact Hall]. intros k Hk. unfold year_lt in *.
      destruct (number_leb k (fst p)) eqn:Ek; [|reflexivity].
      rewrite (Htr _ _ _ Ek E) in Hk. discriminate.
    + constructor.
      * apply IH; auto.
      * apply Forall_forall. intros k Hk. apply insert_year_keys in Hk.
        destruct Hk as [->|Hk]; [exact E|].
        rewrite Forall_forall in Hall. now apply Hall.
Qed.

Lemma insert_year_positive (p : number * nat) (l : list (number * nat)) :
  1 <= snd p -> positive_counts l -> positive_counts (insert_year number_leb p l).
Proof.
  unfold positive_counts. induction l as [|q l IH]; intros Hp Hl; simpl.
  - repeat constructor; auto.
  - inversion Hl; subst.
    destruct (number_leb (fst p) (fst q)); repeat constructor; auto.
Qed.

Lemma insert_year_perm (p : number * nat) (l : list (number * nat)) :
  Permutation (insert_year number_leb p l) (p :: l).
Proof.
  induction l as [|q l IH]; simpl; [reflexivity|].
  destruct (number_leb (fst p) (fst q)); [reflexivity|].
  eapply Permutation_trans; [apply perm_skip, IH|apply perm_swap].
Qed.

Lemma sort_years_perm (l : list (number * nat)) :
  Permutation (sort_years number_leb l) l.
Proof.
  unfold sort_years. induction l as [|p l IH]; simpl; [constructor|].
  eapply Permutation_trans; [apply insert_year_perm|now apply perm_skip].
Qed.

Lemma sort_years_spec (l : list (number * nat)) :
  StronglySorted year_differs (keys l) -> positive_counts l ->
  StronglySorted year_lt (keys (sort_years number_leb l))
  /\ positive_counts (sort_years number_leb l).
Proof.
  induction l as [|p l IH]; intros Hn Hp; simpl.
  - split; constructor.
  - simpl in Hn. inversion Hn as [|? ? Hn' Hnot]; subst.
    inversion Hp as [|? ? Hp1 Hp']; subst.
    destruct (IH Hn' Hp') as [Hs Hpos].
    split.
    + apply insert_year_sorted; auto.
      apply Forall_forall. intros k Hk. rewrite Forall_forall in Hnot.
      apply Hnot. unfold keys in *.
      exact (Permutation_in _ (Permutation_map fst (sort_years_perm l)) Hk).
    + now apply insert_year_positive.
Qed.

Lemma bump_count (y y' : number) (acc : list (number * nat)) :
  count_of y' (bump number_leb y acc)
  = count_of y' acc + (if number_eqb number_leb y y' then 1 else 0).
Proof.
  unfold count_of. induction acc as [|[k c] acc IH]; cbn [bump find fst snd].
  - destruct (number_eqb number_leb y y'); reflexivity.
  - destruct (number_eqb number_leb k y) eqn:Eky; cbn [bump find fst snd].
    + destruct (number_eqb number_leb k y') eqn:Eky'.
      * rewrite number_eqb_sym in Eky.
        rewrite (number_eqb_trans _ _ _ Eky Eky'). (cbn [snd]; lia).
      * destruct (number_eqb number_leb y y') eqn:Eyy'; [|cbn [snd]; lia].
        rewrite (number_eqb_trans _ _ _ Eky Eyy') in Eky'. discriminate.
    + destruct (number_eqb number_leb k y') eqn:Eky'.
      * destruct (number_eqb number_leb y y') eqn:Eyy'; [|cbn [snd]; lia].
        rewrite number_eqb_sym in Eyy'.
        rewrite (number_eqb_trans _ _ _ Eky' Eyy') in Eky. discriminate.
      * exact IH.
Qed.

Lemma value_counts_count (col : list (option number)) (y : number) :
  count_of y (value_counts number_leb col) = length (filter (value_is y) col).
Proof.
  unfold value_counts.
  assert (H : forall acc,
            count_of y (fold_left
                          (fun acc v =>
                             match v with Some z => bump number_leb z acc | None => acc end)
                          col acc)
            = count_of y acc + length (filter (value_is y) col)).
  { induction col as [|[z|] col IH]; intros acc; simpl.
    - lia.
    - rewrite IH, bump_count. destruct (number_eqb number_leb z y); simpl; lia.
    - apply IH. }
  rewrite H. reflexivity.
Qed.

Lemma count_of_in (l : list (number * nat)) (y : number) (c : nat) :
  StronglySorted year_differs (keys l) -> In (y, c) l -> count_of y l = c.
Proof.
  unfold count_of. induction l as [|[k c'] l IH]; intros Hn Hin; [contradiction|].
  simpl in Hn. inversion Hn as [|? ? Hn' Hnot]; subst. simpl.
  destruct Hin as [Heq|Hin].
  - injection Heq as -> ->. now rewrite number_eqb_refl.
  - destruct (number_eqb number_leb k y) eqn:E; [|now apply IH].
    exfalso. rewrite Forall_forall in Hnot.
    assert (Hy : In y (keys l)) by (change y with (fst (y, c)); now apply in_map).
    apply Hnot in Hy. unfold year_differs in Hy. congruence.
Qed.

Lemma count_of_positive (l : list (number * nat)) (y : number) :
  1 <= count_of y l -> exists p, In p l /\ number_eqb number_leb (fst p) y = true.
Proof.
  unfold count_of. intros H.
  destruct (find (fun p => number_eqb number_leb (fst p) y) l) as [p|] eqn:E;
    [|simpl in H; lia].
  apply find_some in E. exists p. exact E.
Qed.

End SummaryTable.

Arguments year_lt {number} number_leb a b.
Arguments year_differs {number} number_leb a b.
Arguments value_is {number} number_leb y v.

(** The target row has the numeric year [y]. *)
Definition year_is {number : Type} (number_leb : number -> number -> bool)
    (to_numeric : str -> option number) (y : number) (t : TargetRecord) : bool :=
  value_is number_leb y (to_numeric (t_year t)).

(** The table that is written to [targets_by_year_summary.csv] comes
    from the target rows that were loaded. *)
Lemma targets_analysis_summary {number : Type} (number_leb : number -> number -> bool)
    (to_numeric : str -> option number) (files : Output)
    (table : list (SummaryRow number)) :
  In (TargetsSummary table)
     (written (snd (targets_analysis number_leb to_numeric files))) ->
  exists r rs,
    extracted_targets_goals_csv files = Some (r :: rs)
    /\ table = summary_table
                 (sort_years number_leb
                    (value_counts number_leb
                       (map (fun t => to_numeric (t_year t)) (r :: rs)))).
Proof.
  destruct files as [t l i a s].
  destruct t as [[|r rs]|], l as [l|], i as [i|], a as [a|];
    cbn -[summary_table sort_years value_counts];
    intros H;
    repeat (destruct H as [H|H]; [try discriminate|]);
    try contradiction;
    injection H as <-; exists r, rs; split; reflexivity.
Qed.

(** C8.  In the summary table of targets per year that stage 3 writes,
    the rows are in ascending order of the year; the first row has no
    change values; in every later row [YoY Change] is the count of the
    row minus the count of the row before it, which is at least 1, and
    [YoY % Change] is the [float64] value that pandas computes: the
    count of the row divided by the count of the row before it, minus
    1, times 100, every operation rounded to [float64].  (This is the
    difference divided by the count before, times 100, up to rounding
    only.) *)
Theorem C8_year_over_year_change {number : Type}
    (number_leb : number -> number -> bool) (to_numeric : str -> option number)
    (files : Output) (table : list (SummaryRow number)) :
  total_preorder number_leb ->
  In (TargetsSummary table)
     (written (snd (targets_analysis number_leb to_numeric files))) ->
  (forall r post, table = r :: post ->
     YoY_Change r = None /\ YoY_pct_Change r = None)
  /\ (forall pre r0 r1 post, table = pre ++ r0 :: r1 :: post ->
        number_leb (Year r0) (Year r1) = true
        /\ number_leb (Year r1) (Year r0) = false
        /\ 1 <= Target_Mentions r0
        /\ YoY_Change r1
           = Some (Z.of_nat (Target_Mentions r1) - Z.of_nat (Target_Mentions r0))%Z
        /\ YoY_pct_Change r1
           = Some ((count_float (Target_Mentions r1)
                    / count_float (Target_Mentions r0) - 1) * 100)%float).
Proof.
  intros Hord H. apply targets_analysis_summary in H.
  destruct H as [r [rs [_ ->]]].
  set (col := map (fun t => to_numeric (t_year t)) (r :: rs)).
  destruct (value_counts_spec number number_leb col) as [Hn Hp].
  destruct (sort_years_spec number number_leb Hord _ Hn Hp) as [Hs Hpos].
  set (l := sort_years number_leb (value_counts number_leb col)) in *.
  split.
  - intros r0 post Ht. destruct l as [|[y c] l']; [discriminate|].
    rewrite summary_table_cons in Ht. injection Ht as <- _. auto.
  - intros pre r0 r1 post Ht. apply summary_table_adjacent in Ht.
    destruct Ht as [lpre [y0 [c0 [y1 [c1 [lpost [Hl [Hy [Hc ->]]]]]]]]].
    rewrite Hy, Hc. simpl. rewrite Hl in Hs, Hpos.
    unfold keys in Hs. rewrite map_app in Hs. simpl in Hs.
    apply sorted_adjacent in Hs.
    split; [exact (year_lt_leb number number_leb Hord _ _ Hs)|].
    split; [exact Hs|]. split; [|split; reflexivity].
    unfold positive_counts in Hpos. rewrite Forall_forall in Hpos.
    apply (Hpos (y0, c0)). apply in_or_app. right. now left.
Qed.

Definition target_row (year : string) : TargetRecord :=
  MkTarget (L year) (L "Other Report") (L "report.pdf") 1 (L "our target")
    [] [] (L "target").

(** The numbers that pandas reads from the year cells of the sample
    tables: ['2022'] and ['2023'] are numbers, ['Unknown'] is the
    missing value. *)
Definition sample_to_numeric (cell : str) : option Z :=
  if str_eqb cell (L "2022") then Some 2022%Z
  else if str_eqb cell (L "2023") then Some 2023%Z
  else None.

Lemma Z_leb_total_preorder : total_preorder Z.leb.
Proof.
  split.
  - intros a b. destruct (Z.leb_spec a b); [now left|right].
    apply Z.leb_le. lia.
  - intros a b c H1 H2. apply Z.leb_le in H1, H2. apply Z.leb_le. lia.
Qed.

(** Three target rows of 2023 and three of 2022, one of an unknown
    year; the other three tables are missing. *)
Definition sample_tables : Output :=
  {| extracted_targets_goals_csv :=
       Some (map target_row
               ["2023"; "2022"; "2023"; "Unknown"; "2022"; "2022"; "2023"]%string);
     extracted_language_patterns_csv := None;
     extracted_initiatives_csv := None;
     extracted_impact_areas_csv := None;
     extraction_statistics_txt := None |}.

Definition sample_summary : list (SummaryRow Z) :=
  [MkSummaryRow 2022%Z 3 None None;
   MkSummaryRow 2023%Z 3 (Some 0%Z) (Some 0%float)].

Lemma C8_year_over_year_change_witness :
  YoY_Change (MkSummaryRow 2023%Z 3 (Some 0%Z) (Some 0%float))
  = Some (Z.of_nat 3 - Z.of_nat 3)%Z
  /\ YoY_pct_Change (MkSummaryRow 2023%Z 3 (Some 0%Z) (Some 0%float))
     = Some ((count_float 3 / count_float 3 - 1) * 100)%float.
Proof.
  refine (proj2 (proj2 (proj2 (proj2
    (C8_year_over_year_change Z.leb sample_to_numeric sample_tables sample_summary
       Z_leb_total_preorder _)
    [] (MkSummaryRow 2022%Z 3 None None)
    (MkSummaryRow 2023%Z 3 (Some 0%Z) (Some 0%float))
    [] eq_refl)))).
  vm_compute. tauto.
Defined.

(** Five target rows of 2022 and six of 2023. *)
Definition five_then_six : Output :=
  {| extracted_targets_goals_csv :=
       Some (map target_row
               ["2022"; "2022"; "2022"; "2022"; "2022";
                "2023"; "2023"; "2023"; "2023"; "2023"; "2023"]%string);
     extracted_language_patterns_csv := None;
     extracted_initiatives_csv := None;
     extracted_impact_areas_csv := None;
     extraction_statistics_txt := None |}.

(** C8 as stated fails: after five mentions in one year and six in the
    next, the difference divided by the count before, times 100, is 20,
    and the table holds the [float64] below 20, which is printed as
    19.999999999999996. *)
Lemma C8_counterexample :
  exists r0 r1,
    In (TargetsSummary [r0; r1])
       (written (snd (targets_analysis Z.leb sample_to_numeric five_then_six)))
    /\ Target_Mentions r0 = 5 /\ Target_Mentions r1 = 6
    /\ YoY_pct_Change r1 = Some 0x1.3ffffffffffffp+4%float
    /\ ((count_float 6 - count_float 5) / count_float 5 * 100)%float = 20%float
    /\ PrimFloat.ltb 0x1.3ffffffffffffp+4 20 = true.
Proof.
  exists (MkSummaryRow 2022%Z 5 None None),
         (MkSummaryRow 2023%Z 6 (Some 1%Z) (Some 0x1.3ffffffffffffp+4%float)).
  vm_compute. tauto.
Qed.

(** ** Stage 3: the counts of the summary table *)

(** X15.  The summary table of the targets has one row for every year
    that pandas reads as a number in the target table: the years of the
    rows ascend, so that no two rows have the same year; every row
    counts the target rows of its year, at least one; every target row
    with a numeric year is counted in the row of that year, and the
    target rows whose year is the missing value are counted in no
    row. *)
Theorem summary_table_counts {number : Type}
    (number_leb : number -> number -> bool) (to_numeric : str -> option number)
    (files : Output) (table : list (SummaryRow number)) :
  total_preorder number_leb ->
  In (TargetsSummary table)
     (written (snd (targets_analysis number_leb to_numeric files))) ->
  exists targets,
    extracted_targets_goals_csv files = Some targets
    /\ (forall r, In r table ->
          Target_Mentions r
          = length (filter (year_is number_leb to_numeric (Year r)) targets)
          /\ 1 <= Target_Mentions r)
    /\ (forall t y, In t targets -> to_numeric (t_year t) = Some y ->
          exists r, In r table /\ number_eqb number_leb (Year r) y = true)
    /\ StronglySorted (year_lt number_leb) (map Year table).
Proof.
  intros Hord H. apply targets_analysis_summary in H.
  destruct H as [t0 [ts [Hfile ->]]]. exists (t0 :: ts).
  split; [exact Hfile|].
  set (targets := t0 :: ts).
  set (col := map (fun t => to_numeric (t_year t)) targets).
  destruct (value_counts_spec number number_leb col) as [Hn Hp].
  destruct (sort_years_spec number number_leb Hord _ Hn Hp) as [Hs Hpos].
  pose proof (sort_years_perm number number_leb (value_counts number_leb col)) as Hperm.
  pose proof (summary_table_entries (sort_years number_leb (value_counts number_leb col)))
    as Hrows.
  assert (Hyears : map Year (summary_table
                     (sort_years number_leb (value_counts number_leb col)))
                   = keys (sort_years number_leb (value_counts number_leb col))).
  { unfold keys. rewrite <- Hrows at 2. rewrite map_map. reflexivity. }
  split; [|split].
  - intros r Hr.
    assert (Hin : In (Year r, Target_Mentions r)
                    (sort_years number_leb (value_counts number_leb col))).
    { rewrite <- Hrows.
      exact (in_map (fun r => (Year r, Target_Mentions r)) _ r Hr). }
    split.
    + apply (Permutation_in _ Hperm) in Hin.
      rewrite <- (count_of_in number number_leb Hord _ _ _ Hn Hin).
      rewrite value_counts_count by exact Hord.
      unfold col. rewrite length_filter_map. reflexivity.
    + unfold positive_counts in Hpos. rewrite Forall_forall in Hpos.
      exact (Hpos _ Hin).
  - intros t y Ht Hy.
    assert (Hc : 1 <= count_of number number_leb y (value_counts number_leb col)).
    { rewrite value_counts_count by exact Hord.
      unfold col. rewrite length_filter_map.
      assert (Hf : In t (filter (fun x => value_is number_leb y (to_numeric (t_year x)))
                           targets)).
      { apply filter_In. split; [exact Ht|]. rewrite Hy. simpl.
        now apply number_eqb_refl. }
      destruct (filter (fun x => value_is number_leb y (to_numeric (t_year x))) targets);
        [contradiction|simpl; lia]. }
    apply count_of_positive in Hc. destruct Hc as [p [Hp' He]].
    apply (Permutation_in _ (Permutation_sym Hperm)) in Hp'.
    rewrite <- Hrows in Hp'. apply in_map_iff in Hp'.
    destruct Hp' as [r [Hr Hin]]. exists r. split; [exact Hin|].
    rewrite <- Hr in He. exact He.
  - rewrite Hyears. exact Hs.
Qed.

Lemma summary_table_counts_witness :
  exists targets,
    extracted_targets_goals_csv sample_tables = Some targets
    /\ (forall r, In r sample_summary ->
          Target_Mentions r
          = length (filter (year_is Z.leb sample_to_numeric (Year r)) targets)
          /\ 1 <= Target_Mentions r)
    /\ (forall t y, In t targets -> sample_to_numeric (t_year t) = Some y ->
          exists r, In r sample_summary /\ number_eqb Z.leb (Year r) y = true)
    /\ StronglySorted (year_lt Z.leb) (map Year sample_summary).
Proof.
  apply (summary_table_counts Z.leb sample_to_numeric sample_tables sample_summary
           Z_leb_total_preorder).
  vm_compute. tauto.
Defined.

(** ** Stage 3: a table that is missing *)






